(** * DXCrawler: the library-version and markup-consistency checks

    A shallow embedding of the two analyzers of the crawler,
    [check-libs] (library signatures, version comparison, the registry
    and its merge) and [check-same-markup] (body decoding, element counts
    and the retry protocol), together with the JavaScript built-ins they
    rest on: strings, the Number conversion, regular expressions, and a
    store of mutable objects. *)

From Stdlib Require Import ZArith String Ascii List Bool Lia.
From stdpp Require Import base option gmap strings list.

Local Open Scope Z_scope.

(* ================================================================== *)
(** * Part I. JavaScript values                                        *)
(* ================================================================== *)

(** ** Exceptions and results

    A computation either returns or throws. [Unsupported] marks
    behaviour outside the fragment of the language modelled here
    (regular-expression syntax left out below, a write to
    [Object.prototype] or to the prototype of [libmap] by way of a
    descriptor named [__proto__]); it is not an exception of the
    language, and it is never produced for the patterns written in the
    sources nor for the built-in registry. What is proved of a
    computation says nothing of the code where the computation ends in
    [Unsupported]. *)

Inductive error : Type :=
| TypeError
| SyntaxError
| ReferenceError
| Unsupported.

Inductive res (A : Type) : Type :=
| Ok (a : A)
| Throw (e : error).

Arguments Ok {A} a.
Arguments Throw {A} e.

Global Instance res_ret : MRet res := fun _ a => Ok a.

Global Instance res_bind : MBind res := fun _ _ f x =>
  match x with
  | Ok a => f a
  | Throw e => Throw e
  end.

(** ** Strings

    A JavaScript string is modelled as a [string] of code units; the
    model covers code units below 256. *)

Definition code (c : ascii) : N := N_of_ascii c.

Definition isDigit (c : ascii) : bool := (48 <=? code c)%N && (code c <=? 57)%N.

(** WhiteSpace and LineTerminator code units (the set behind [\s] and
    behind the trimming done by the Number conversion). *)
Definition isLineTerminator (c : ascii) : bool :=
  (code c =? 10)%N || (code c =? 13)%N.

Definition isWhiteSpace (c : ascii) : bool :=
  ((9 <=? code c)%N && (code c <=? 13)%N) || (code c =? 32)%N || (code c =? 160)%N.

Definition isWordChar (c : ascii) : bool :=
  isDigit c
  || ((65 <=? code c)%N && (code c <=? 90)%N)
  || ((97 <=? code c)%N && (code c <=? 122)%N)
  || (code c =? 95)%N.

Definition strlen (s : string) : nat := String.length s.

Fixpoint str_forallb (p : ascii -> bool) (s : string) : bool :=
  match s with
  | EmptyString => true
  | String c s' => p c && str_forallb p s'
  end.

(** [s.substr(0, n)] for a possibly negative [n]: a negative length is
    taken as zero. *)
Fixpoint str_take (n : nat) (s : string) : string :=
  match n, s with
  | S n', String c s' => String c (str_take n' s')
  | _, _ => EmptyString
  end.

Fixpoint str_drop (n : nat) (s : string) : string :=
  match n, s with
  | S n', String _ s' => str_drop n' s'
  | _, _ => s
  end.

Definition substr0 (s : string) (n : Z) : string := str_take (Z.to_nat n) s.

Fixpoint str_prefixb (p s : string) : bool :=
  match p, s with
  | EmptyString, _ => true
  | String a p', String b s' => Ascii.eqb a b && str_prefixb p' s'
  | String _ _, EmptyString => false
  end.

(** [s.indexOf(pat)]: the index of the first occurrence, [-1] when there
    is none. *)
Fixpoint indexOf_from (pat s : string) (i : Z) : Z :=
  if str_prefixb pat s then i
  else match s with
       | EmptyString => -1
       | String _ s' => indexOf_from pat s' (i + 1)
       end.

Definition indexOf (s pat : string) : Z := indexOf_from pat s 0.

(** [s.split(sep)] for a one-character separator: never empty. *)
Fixpoint split_on (sep : ascii) (s : string) : list string :=
  match s with
  | EmptyString => [EmptyString]
  | String c s' =>
      if Ascii.eqb c sep then EmptyString :: split_on sep s'
      else match split_on sep s' with
           | h :: t => String c h :: t
           | [] => [String c EmptyString]
           end
  end.

(** [arr.indexOf(x) >= 0] on an array of strings. *)
Definition array_includes (l : list string) (x : string) : bool :=
  existsb (String.eqb x) l.

(** ** Numbers

    A Number is a binary64 value. Finite values are kept as [m * 2^e];
    the two zeros are not told apart (no operation used here separates
    them: [String(-0)] is ["0"] and [-0 == 0]). *)

Inductive number : Type :=
| NaN
| Inf (negative : bool)
| Fin (m e : Z).

Definition of_Z (z : Z) : number := Fin z 0.

(** [floor (log2 (n / d))] for positive [n] and [d]. *)
Definition floor_log2_ratio (n d : Z) : Z :=
  let t := Z.log2 n - Z.log2 d in
  if (if 0 <=? t then d * 2 ^ t <=? n else d <=? n * 2 ^ (- t)) then t else t - 1.

(** The binary64 value nearest to [n / d] ([n], [d] positive), ties to
    the even significand: 53 significant bits, exponents from [-1074],
    overflow to infinity. *)
Definition round_ratio (n d : Z) : number :=
  let l := floor_log2_ratio n d in
  let e := Z.max (l - 52) (-1074) in
  let N := if e <? 0 then n * 2 ^ (- e) else n in
  let D := if e <? 0 then d else d * 2 ^ e in
  let q := N / D in
  let r := N mod D in
  let q' := if 2 * r <? D then q
            else if D <? 2 * r then q + 1
            else if Z.even q then q else q + 1 in
  if (971 <? e) || ((e =? 971) && (q' =? 2 ^ 53)) then Inf false else Fin q' e.

(** The Number for the mathematical value [m * 10^k], [m >= 0]. *)
Definition round_decimal (m k : Z) : number :=
  if m =? 0 then Fin 0 0
  else if 0 <=? k then round_ratio (m * 10 ^ k) 1
  else round_ratio m (10 ^ (- k)).

Definition num_neg (x : number) : number :=
  match x with
  | NaN => NaN
  | Inf s => Inf (negb s)
  | Fin m e => Fin (- m) e
  end.

(** The integer a Number denotes, when it denotes one. *)
Definition int_value (x : number) : option Z :=
  match x with
  | Fin m e =>
      if 0 <=? e then Some (m * 2 ^ e)
      else if m mod 2 ^ (- e) =? 0 then Some (m / 2 ^ (- e)) else None
  | _ => None
  end.

(** Ordering; [None] when an operand is NaN (every comparison with NaN
    is false). *)
Definition num_compare (x y : number) : option comparison :=
  match x, y with
  | NaN, _ | _, NaN => None
  | Inf a, Inf b => Some (if a then (if b then Eq else Lt) else (if b then Gt else Eq))
  | Inf a, Fin _ _ => Some (if a then Lt else Gt)
  | Fin _ _, Inf b => Some (if b then Gt else Lt)
  | Fin m1 e1, Fin m2 e2 =>
      let k := Z.min e1 e2 in
      Some (Z.compare (m1 * 2 ^ (e1 - k)) (m2 * 2 ^ (e2 - k)))
  end.

Definition num_eqb (x y : number) : bool :=
  match num_compare x y with Some Eq => true | _ => false end.
Definition num_gtb (x y : number) : bool :=
  match num_compare x y with Some Gt => true | _ => false end.
Definition num_geb (x y : number) : bool :=
  match num_compare x y with Some Gt | Some Eq => true | _ => false end.
Definition num_leb (x y : number) : bool :=
  match num_compare x y with Some Lt | Some Eq => true | _ => false end.

(** Truthiness of a Number: false for zero and NaN. *)
Definition num_truthy (x : number) : bool :=
  match x with
  | NaN => false
  | Inf _ => true
  | Fin m _ => negb (m =? 0)
  end.

(** ** The Number conversion of a string

    [Number(s)]: surrounding white space is dropped; the empty string is
    0; then a hexadecimal, octal or binary integer literal, or a signed
    decimal literal with optional fraction and exponent, or [Infinity];
    anything else is NaN. The value is rounded to the nearest binary64
    value. *)

(** The longest prefix whose characters satisfy [p], and the rest. *)
Fixpoint str_span (p : ascii -> bool) (s : string) : string * string :=
  match s with
  | EmptyString => (EmptyString, EmptyString)
  | String c s' =>
      if p c
      then let (d, r) := str_span p s' in (String c d, r)
      else (EmptyString, s)
  end.

Definition span_digits (s : string) : string * string := str_span isDigit s.

Definition digit_value (c : ascii) : Z := Z.of_N (code c) - 48.

Fixpoint decimal_value_acc (acc : Z) (s : string) : Z :=
  match s with
  | EmptyString => acc
  | String c s' => decimal_value_acc (10 * acc + digit_value c) s'
  end.

(** The integer written by a string of decimal digits. *)
Definition decimal_value (s : string) : Z := decimal_value_acc 0 s.

Definition radix_digit (radix : Z) (c : ascii) : option Z :=
  let n := Z.of_N (code c) in
  let v := if isDigit c then n - 48
           else if (97 <=? n) && (n <=? 102) then n - 87
           else if (65 <=? n) && (n <=? 70) then n - 55
           else 16 in
  if v <? radix then Some v else None.

Fixpoint radix_value_acc (radix acc : Z) (s : string) : option Z :=
  match s with
  | EmptyString => Some acc
  | String c s' =>
      match radix_digit radix c with
      | Some v => radix_value_acc radix (radix * acc + v) s'
      | None => None
      end
  end.

Definition radix_value (radix : Z) (s : string) : option Z :=
  match s with
  | EmptyString => None
  | _ => radix_value_acc radix 0 s
  end.

Fixpoint trim_start (s : string) : string :=
  match s with
  | String c s' => if isWhiteSpace c then trim_start s' else s
  | EmptyString => EmptyString
  end.

Fixpoint trim_end (s : string) : string :=
  match s with
  | EmptyString => EmptyString
  | String c s' =>
      match trim_end s' with
      | EmptyString => if isWhiteSpace c then EmptyString else String c EmptyString
      | t => String c t
      end
  end.

Definition is_empty (s : string) : bool :=
  match s with EmptyString => true | _ => false end.

Inductive decimal_literal : Type :=
| DInfinity
| DValue (m k : Z).

(** An optional sign. *)
Definition strip_sign (s : string) : bool * string :=
  match s with
  | String c u =>
      if Ascii.eqb c "-" then (true, u)
      else if Ascii.eqb c "+" then (false, u)
      else (false, s)
  | EmptyString => (false, s)
  end.

(** The exponent after [e] or [E]: an optional sign and digits, up to
    the end of the literal. *)
Definition parse_exponent (s : string) : option Z :=
  let (neg, u) := strip_sign s in
  let (ds, r) := span_digits u in
  if negb (is_empty ds) && is_empty r
  then Some (if neg : bool then - decimal_value ds else decimal_value ds)
  else None.

Definition parse_unsigned_decimal (s : string) : option decimal_literal :=
  if String.eqb s "Infinity" then Some DInfinity
  else
    let (ip, r1) := span_digits s in
    let (fp, r2) := match r1 with
                    | String c r => if Ascii.eqb c "." then span_digits r else (EmptyString, r1)
                    | EmptyString => (EmptyString, r1)
                    end in
    if is_empty ip && is_empty fp then None
    else
      let m := decimal_value (ip +:+ fp) in
      let k := - Z.of_nat (strlen fp) in
      match r2 with
      | EmptyString => Some (DValue m k)
      | String c r3 =>
          if Ascii.eqb c "e" || Ascii.eqb c "E"
          then match parse_exponent r3 with
               | Some x => Some (DValue m (x + k))
               | None => None
               end
          else None
      end.

Definition of_integer (v : Z) : number :=
  if v =? 0 then Fin 0 0 else round_ratio v 1.

Definition parse_decimal (s : string) : number :=
  let (neg, u) := strip_sign s in
  match parse_unsigned_decimal u with
  | Some DInfinity => Inf neg
  | Some (DValue m k) => if neg : bool then num_neg (round_decimal m k) else round_decimal m k
  | None => NaN
  end.

Definition parse_nondecimal (s : string) : option Z :=
  match s with
  | String z (String x r) =>
      if negb (Ascii.eqb z "0") then None
      else if Ascii.eqb x "x" || Ascii.eqb x "X" then radix_value 16 r
      else if Ascii.eqb x "o" || Ascii.eqb x "O" then radix_value 8 r
      else if Ascii.eqb x "b" || Ascii.eqb x "B" then radix_value 2 r
      else None
  | _ => None
  end.

Definition ToNumber (s : string) : number :=
  let t := trim_end (trim_start s) in
  if is_empty t then Fin 0 0
  else match parse_nondecimal t with
       | Some v => of_integer v
       | None => parse_decimal t
       end.

(** ** Dynamically typed values *)

Inductive value : Type :=
| VUndefined
| VNull
| VBool (b : bool)
| VNumber (x : number)
| VString (s : string).

Definition typeof_is_string (v : value) : bool :=
  match v with VString _ => true | _ => false end.

(** [v.split(".")]: only strings have a [split] method. *)
Definition value_split (v : value) (sep : ascii) : res (list string) :=
  match v with
  | VString s => Ok (split_on sep s)
  | _ => Throw TypeError
  end.

(** ** Regular expressions

    The fragment of the pattern language the sources use, and a little
    more: characters and escapes, classes, groups (capturing or not),
    lookahead, greedy and lazy quantifiers, alternation, the anchors and
    word boundaries; flags [g], [i] and [m]. Back-references, named
    groups, lookbehind and legacy octal escapes are [Unsupported]. *)

Inductive cset : Type :=
| SChar (c : ascii)
| SRange (lo hi : ascii)
| SDigit (complement : bool)
| SSpace (complement : bool)
| SWord (complement : bool)
| SNotLineTerminator
| SUnion (a b : cset)
| SEmpty.

Fixpoint cset_mem (s : cset) (c : ascii) : bool :=
  match s with
  | SChar a => Ascii.eqb a c
  | SRange lo hi => (code lo <=? code c)%N && (code c <=? code hi)%N
  | SDigit neg => xorb neg (isDigit c)
  | SSpace neg => xorb neg (isWhiteSpace c)
  | SWord neg => xorb neg (isWordChar c)
  | SNotLineTerminator => negb (isLineTerminator c)
  | SUnion a b => cset_mem a c || cset_mem b c
  | SEmpty => false
  end.

(** Canonicalize (case folding under the [i] flag): the upper-case form
    of a letter, within the code units of the model. *)
Definition is_lower (c : ascii) : bool :=
  ((97 <=? code c)%N && (code c <=? 122)%N)
  || ((224 <=? code c)%N && (code c <=? 254)%N && negb (code c =? 247)%N).

Definition is_upper (c : ascii) : bool :=
  ((65 <=? code c)%N && (code c <=? 90)%N)
  || ((192 <=? code c)%N && (code c <=? 222)%N && negb (code c =? 215)%N).

Definition canonicalize (c : ascii) : ascii :=
  if is_lower c then ascii_of_N (code c - 32) else c.

Definition lower_form (c : ascii) : ascii :=
  if is_upper c then ascii_of_N (code c + 32) else c.

(** CharacterSetMatcher: with [ignoreCase] a character matches when
    some member of the set has the same canonical form. *)
Definition set_matches (ignoreCase invert : bool) (s : cset) (c : ascii) : bool :=
  let found :=
    if ignoreCase
    then cset_mem s (canonicalize c) || cset_mem s (lower_form (canonicalize c))
    else cset_mem s c in
  xorb invert found.

Inductive regex : Type :=
| REmpty
| RSet (invert : bool) (s : cset)
| RSeq (r1 r2 : regex)
| RAlt (r1 r2 : regex)
| RRepeat (min : nat) (max : option nat) (greedy : bool) (r : regex)
| RGroup (i : nat) (r : regex)
| RLookahead (negative : bool) (r : regex)
| RBol
| REol
| RWordBoundary (negative : bool).

(** *** Parsing a pattern *)

Inductive escape : Type :=
| EChar (c : ascii)
| ESet (s : cset)
| EWordBoundary (negative : bool).

Definition hex2 (a b : ascii) : option ascii :=
  match radix_digit 16 a, radix_digit 16 b with
  | Some x, Some y => Some (ascii_of_N (Z.to_N (16 * x + y)))
  | _, _ => None
  end.

(** The escape after a backslash. A backslash before a digit other
    than a lone [0] is a back-reference or a legacy octal escape, which
    the language accepts: it is left out here ([Unsupported]), as are
    [\k], a [\c] without a letter and a [\u] escape above 255. *)
Definition parse_escape (in_class : bool) (s : string) : res (escape * string) :=
  match s with
  | EmptyString => Throw SyntaxError
  | String c r =>
      if Ascii.eqb c "d" then Ok (ESet (SDigit false), r)
      else if Ascii.eqb c "D" then Ok (ESet (SDigit true), r)
      else if Ascii.eqb c "s" then Ok (ESet (SSpace false), r)
      else if Ascii.eqb c "S" then Ok (ESet (SSpace true), r)
      else if Ascii.eqb c "w" then Ok (ESet (SWord false), r)
      else if Ascii.eqb c "W" then Ok (ESet (SWord true), r)
      else if Ascii.eqb c "b" then
        Ok (if in_class then EChar (ascii_of_N 8) else EWordBoundary false, r)
      else if Ascii.eqb c "B" then
        Ok (if in_class then EChar c else EWordBoundary true, r)
      else if Ascii.eqb c "t" then Ok (EChar (ascii_of_N 9), r)
      else if Ascii.eqb c "n" then Ok (EChar (ascii_of_N 10), r)
      else if Ascii.eqb c "v" then Ok (EChar (ascii_of_N 11), r)
      else if Ascii.eqb c "f" then Ok (EChar (ascii_of_N 12), r)
      else if Ascii.eqb c "r" then Ok (EChar (ascii_of_N 13), r)
      else if Ascii.eqb c "0" then
        match r with
        | String d _ => if isDigit d then Throw Unsupported else Ok (EChar (ascii_of_N 0), r)
        | EmptyString => Ok (EChar (ascii_of_N 0), r)
        end
      else if isDigit c then Throw Unsupported
      else if Ascii.eqb c "x" then
        match r with
        | String a (String b r') =>
            match hex2 a b with
            | Some ch => Ok (EChar ch, r')
            | None => Ok (EChar c, r)
            end
        | _ => Ok (EChar c, r)
        end
      else if Ascii.eqb c "u" then
        match r with
        | String a (String b (String a' (String b' r'))) =>
            match hex2 a b, hex2 a' b' with
            | Some hi, Some lo =>
                if (code hi =? 0)%N then Ok (EChar lo, r') else Throw Unsupported
            | _, _ => Ok (EChar c, r)
            end
        | _ => Ok (EChar c, r)
        end
      else if Ascii.eqb c "c" then
        match r with
        | String l r' =>
            if ((65 <=? code l)%N && (code l <=? 90)%N) || ((97 <=? code l)%N && (code l <=? 122)%N)
            then Ok (EChar (ascii_of_N (code l mod 32)), r')
            else Throw Unsupported
        | EmptyString => Throw Unsupported
        end
      else if Ascii.eqb c "k" then Throw Unsupported
      else Ok (EChar c, r)
  end.

Definition escape_set (e : escape) : cset :=
  match e with
  | EChar c => SChar c
  | ESet s => s
  | EWordBoundary _ => SEmpty
  end.

Definition class_atom (s : string) : res (escape * string) :=
  match s with
  | EmptyString => Throw SyntaxError
  | String "\" r => parse_escape true r
  | String c r => Ok (EChar c, r)
  end.

(** The members of a class, up to and including the closing bracket. *)
Fixpoint parse_class_items (fuel : nat) (s : string) (acc : cset) : res (cset * string) :=
  match fuel with
  | O => Throw Unsupported
  | S f =>
      match s with
      | EmptyString => Throw SyntaxError
      | String "]" r => Ok (acc, r)
      | _ =>
          '(a, s1) ← class_atom s;
          match s1 with
          | String "-" (String "]" _) => parse_class_items f s1 (SUnion acc (escape_set a))
          | String "-" EmptyString => Throw SyntaxError
          | String "-" s2 =>
              '(b, s3) ← class_atom s2;
              match a, b with
              | EChar lo, EChar hi =>
                  if (code hi <? code lo)%N then Throw SyntaxError
                  else parse_class_items f s3 (SUnion acc (SRange lo hi))
              | _, _ =>
                  parse_class_items f s3
                    (SUnion acc (SUnion (escape_set a) (SUnion (SChar "-") (escape_set b))))
              end
          | _ => parse_class_items f s1 (SUnion acc (escape_set a))
          end
      end
  end.

Definition parse_class (s : string) : res (regex * string) :=
  let '(invert, s1) := match s with
                       | String "^" r => (true, r)
                       | _ => (false, s)
                       end in
  '(cs, s2) ← parse_class_items (S (strlen s1)) s1 SEmpty;
  Ok (RSet invert cs, s2).

(** [{n}], [{n,}] or [{n,m}] after the opening brace. *)
Definition parse_braces (s : string) : option (nat * option nat * string) :=
  let (d1, r1) := span_digits s in
  if is_empty d1 then None
  else
    let lo := Z.to_nat (decimal_value d1) in
    match r1 with
    | String "}" r => Some (lo, Some lo, r)
    | String "," (String "}" r) => Some (lo, None, r)
    | String "," r2 =>
        let (d2, r3) := span_digits r2 in
        if is_empty d2 then None
        else match r3 with
             | String "}" r => Some (lo, Some (Z.to_nat (decimal_value d2)), r)
             | _ => None
             end
    | _ => None
    end.

Definition starts_quantifier (s : string) : bool :=
  match s with
  | String "*" _ | String "+" _ | String "?" _ => true
  | String "{" r => match parse_braces r with Some _ => true | None => false end
  | _ => false
  end.

(** An atom followed by its quantifier, if there is one. *)
Definition with_quantifier (atom : regex) (s : string) : res (regex * string) :=
  let q := match s with
           | String "*" r => Some (O, None, r)
           | String "+" r => Some (1%nat, None, r)
           | String "?" r => Some (O, Some 1%nat, r)
           | String "{" r => parse_braces r
           | _ => None
           end in
  match q with
  | None => Ok (atom, s)
  | Some (lo, hi, r) =>
      if match hi with Some h => (h <? lo)%nat | None => false end
      then Throw SyntaxError
      else match r with
           | String "?" r' => Ok (RRepeat lo hi false atom, r')
           | _ => Ok (RRepeat lo hi true atom, r)
           end
  end.

Definition expect_close (s : string) : res string :=
  match s with
  | String ")" r => Ok r
  | _ => Throw SyntaxError
  end.

(** Disjunction, Alternative and Term; [n] counts the capturing groups
    opened so far, which number the groups from left to right. *)
Fixpoint parse_disjunction (fuel : nat) (s : string) (n : nat) : res (regex * string * nat) :=
  match fuel with
  | O => Throw Unsupported
  | S f =>
      '(a, s1, n1) ← parse_alternative f s n;
      match s1 with
      | String "|" s2 =>
          '(b, s3, n3) ← parse_disjunction f s2 n1;
          Ok (RAlt a b, s3, n3)
      | _ => Ok (a, s1, n1)
      end
  end
with parse_alternative (fuel : nat) (s : string) (n : nat) : res (regex * string * nat) :=
  match fuel with
  | O => Throw Unsupported
  | S f =>
      match s with
      | EmptyString | String "|" _ | String ")" _ => Ok (REmpty, s, n)
      | _ =>
          '(t, s1, n1) ← parse_term f s n;
          '(r, s2, n2) ← parse_alternative f s1 n1;
          Ok (RSeq t r, s2, n2)
      end
  end
with parse_term (fuel : nat) (s : string) (n : nat) : res (regex * string * nat) :=
  match fuel with
  | O => Throw Unsupported
  | S f =>
      match s with
      | EmptyString => Throw SyntaxError
      | String "^" s1 => Ok (RBol, s1, n)
      | String "$" s1 => Ok (REol, s1, n)
      | String "(" (String "?" (String ":" s1)) =>
          '(r, s2, n2) ← parse_disjunction f s1 n;
          s3 ← expect_close s2;
          '(q, s4) ← with_quantifier r s3;
          Ok (q, s4, n2)
      | String "(" (String "?" (String "=" s1)) =>
          '(r, s2, n2) ← parse_disjunction f s1 n;
          s3 ← expect_close s2;
          if starts_quantifier s3 then Throw Unsupported
          else Ok (RLookahead false r, s3, n2)
      | String "(" (String "?" (String "!" s1)) =>
          '(r, s2, n2) ← parse_disjunction f s1 n;
          s3 ← expect_close s2;
          if starts_quantifier s3 then Throw Unsupported
          else Ok (RLookahead true r, s3, n2)
      | String "(" (String "?" (String "<" _)) => Throw Unsupported
      | String "(" (String "?" _) => Throw SyntaxError
      | String "(" s1 =>
          '(r, s2, n2) ← parse_disjunction f s1 (S n);
          s3 ← expect_close s2;
          '(q, s4) ← with_quantifier (RGroup (S n) r) s3;
          Ok (q, s4, n2)
      | String "\" s1 =>
          '(e, s2) ← parse_escape false s1;
          match e with
          | EWordBoundary neg => Ok (RWordBoundary neg, s2, n)
          | _ =>
              '(q, s3) ← with_quantifier (RSet false (escape_set e)) s2;
              Ok (q, s3, n)
          end
      | String "." s1 =>
          '(q, s2) ← with_quantifier (RSet false SNotLineTerminator) s1;
          Ok (q, s2, n)
      | String "[" s1 =>
          '(c, s2) ← parse_class s1;
          '(q, s3) ← with_quantifier c s2;
          Ok (q, s3, n)
      | String "*" _ | String "+" _ | String "?" _ => Throw SyntaxError
      | String c s1 =>
          if Ascii.eqb c "{" && starts_quantifier s then Throw SyntaxError
          else
            '(q, s2) ← with_quantifier (RSet false (SChar c)) s1;
            Ok (q, s2, n)
      end
  end.

Record regexp : Type := mkRegExp {
  re_body : regex;
  re_groups : nat;
  re_global : bool;
  re_ignoreCase : bool;
  re_multiline : bool
}.

Fixpoint count_char (c : ascii) (s : string) : nat :=
  match s with
  | EmptyString => O
  | String a s' => (if Ascii.eqb a c then 1 else 0)%nat + count_char c s'
  end.

(** The flags: [g], [i] and [m], each at most once. *)
Definition parse_flags (flags : string) : res (bool * bool * bool) :=
  if negb (str_forallb (fun c => Ascii.eqb c "g" || Ascii.eqb c "i" || Ascii.eqb c "m") flags)
  then Throw (if str_forallb (fun c => existsb (Ascii.eqb c) ["g"; "i"; "m"; "s"; "u"; "y"; "d"; "v"]%char) flags
              then Unsupported else SyntaxError)
  else if (1 <? count_char "g" flags)%nat || (1 <? count_char "i" flags)%nat
          || (1 <? count_char "m" flags)%nat
  then Throw SyntaxError
  else Ok ((0 <? count_char "g" flags)%nat, (0 <? count_char "i" flags)%nat,
           (0 <? count_char "m" flags)%nat).

(** [new RegExp(pattern, flags)]; a regular-expression literal
    [/pattern/flags] is the same object, built when the script loads. *)
Definition RegExp_new (pattern flags : string) : res regexp :=
  '(g, i, m) ← parse_flags flags;
  '(r, rest, n) ← parse_disjunction (4 * S (strlen pattern)) pattern O;
  if is_empty rest then Ok (mkRegExp r n g i m) else Throw SyntaxError.


(** *** Matching

    The backtracking matcher of the language definition, written as the
    list of the states every way of matching leads to, in the order
    backtracking tries them: the match found is the head of the list. A
    state is the position in the input (the code unit before it and the
    text after it) and the captures so far. *)

Record mstate : Type := mkState {
  ms_prev : option ascii;
  ms_rest : string;
  ms_caps : gmap nat string
}.

Fixpoint groups_of (r : regex) : list nat :=
  match r with
  | RSeq a b | RAlt a b => groups_of a ++ groups_of b
  | RRepeat _ _ _ a | RLookahead _ a => groups_of a
  | RGroup i a => i :: groups_of a
  | _ => []
  end.

Definition clear_groups (gs : list nat) (st : mstate) : mstate :=
  mkState (ms_prev st) (ms_rest st) (foldr delete (ms_caps st) gs).

(** The text consumed between an earlier state and a later one. *)
Definition consumed (st st' : mstate) : string :=
  str_take (strlen (ms_rest st) - strlen (ms_rest st')) (ms_rest st).

Definition is_line_start (multiline : bool) (st : mstate) : bool :=
  match ms_prev st with
  | None => true
  | Some c => multiline && isLineTerminator c
  end.

Definition is_line_end (multiline : bool) (st : mstate) : bool :=
  match ms_rest st with
  | EmptyString => true
  | String c _ => multiline && isLineTerminator c
  end.

Definition at_word_boundary (st : mstate) : bool :=
  xorb (match ms_prev st with Some c => isWordChar c | None => false end)
       (match ms_rest st with String c _ => isWordChar c | EmptyString => false end).

(** RepeatMatcher: the captures of the repeated atom are cleared before
    each iteration, and once the minimum is met an iteration that
    consumes nothing is abandoned. *)
Fixpoint repeat_match (step : mstate -> list mstate) (clear : mstate -> mstate)
    (fuel min : nat) (max : option nat) (greedy : bool) (st : mstate) : list mstate :=
  match fuel with
  | O => []
  | S f =>
      match max with
      | Some O => [st]
      | _ =>
          let more :=
            flat_map
              (fun st' =>
                 if Nat.eqb min 0 && Nat.eqb (strlen (ms_rest st')) (strlen (ms_rest st))
                 then []
                 else repeat_match step clear f (Nat.pred min) (Nat.pred <$> max) greedy st')
              (step (clear st)) in
          if (0 <? min)%nat then more
          else if greedy then more ++ [st]
          else st :: more
      end
  end.

Section Matcher.

Variables ignoreCase multiline : bool.

Fixpoint rmatch (r : regex) (st : mstate) : list mstate :=
  match r with
  | REmpty => [st]
  | RSet invert s =>
      match ms_rest st with
      | String c rest =>
          if set_matches ignoreCase invert s c
          then [mkState (Some c) rest (ms_caps st)]
          else []
      | EmptyString => []
      end
  | RSeq a b => flat_map (rmatch b) (rmatch a st)
  | RAlt a b => rmatch a st ++ rmatch b st
  | RRepeat lo hi greedy a =>
      repeat_match (rmatch a) (clear_groups (groups_of a))
        (S (lo + strlen (ms_rest st))) lo hi greedy st
  | RGroup i a =>
      map (fun st' => mkState (ms_prev st') (ms_rest st')
                        (<[i := consumed st st']> (ms_caps st')))
          (rmatch a st)
  | RLookahead negative a =>
      match rmatch a st with
      | st' :: _ =>
          if negative then [] else [mkState (ms_prev st) (ms_rest st) (ms_caps st')]
      | [] => if negative then [st] else []
      end
  | RBol => if is_line_start multiline st then [st] else []
  | REol => if is_line_end multiline st then [st] else []
  | RWordBoundary negative => if xorb negative (at_word_boundary st) then [st] else []
  end.

End Matcher.

(** The result of a successful match: the matched text, then the
    capture of each group ([None] for a group that took no part). *)
Definition match_result : Type := list (option string).

Definition result_of (re : regexp) (st st' : mstate) : match_result :=
  Some (consumed st st') :: map (fun i => ms_caps st' !! i) (seq 1 (re_groups re)).

(** The first position, from the left, at which the pattern matches. *)
Fixpoint search (re : regexp) (prev : option ascii) (s : string) : option match_result :=
  let st := mkState prev s ∅ in
  match rmatch (re_ignoreCase re) (re_multiline re) (re_body re) st with
  | st' :: _ => Some (result_of re st st')
  | [] =>
      match s with
      | String c s' => search re (Some c) s'
      | EmptyString => None
      end
  end.

(** [re.exec(s)] on a regular expression whose [lastIndex] is 0, and
    [s.match(re)] for a [re] without the [g] flag. *)
Definition RegExp_exec (re : regexp) (s : string) : option match_result :=
  search re None s.

Definition String_match (s : string) (re : regexp) : option match_result :=
  RegExp_exec re s.

Definition RegExp_test (re : regexp) (s : string) : bool :=
  match RegExp_exec re s with Some _ => true | None => false end.

(** [m[i]] on a match result. *)
Definition group (m : match_result) (i : nat) : value :=
  match m !! i with
  | Some (Some s) => VString s
  | _ => VUndefined
  end.

(** [m[i]] where it is concatenated with a string or handed to
    [test]: [undefined] reads as the text ["undefined"]. *)
Definition group_text (m : match_result) (i : nat) : string :=
  match m !! i with
  | Some (Some s) => s
  | _ => "undefined"
  end.

(** The double quote and the line feed, as one-character strings. *)
Definition dquote : string := String (ascii_of_N 34) EmptyString.
Definition newline : ascii := ascii_of_N 10.


(** ** The website handed to the checks

    [url_href] is [website.url.href] and [wcontent] is
    [website.content], the markup fetched by the crawler; a script has
    its source address ([embed] for an inline script) and, when it was
    fetched, its text. *)

Record script : Type := mkScript {
  jsUrl : string;
  content : option string
}.

Record website : Type := mkWebsite {
  url_href : string;
  originalUrl : string;
  wcontent : string;
  js : list script
}.

(** ** Facts about numbers and the Number conversion *)

Section NumberFacts.

(** Integers up to [2^53] are binary64 values: rounding keeps them. *)
Lemma int_value_of_integer (v : Z) :
  0 <= v <= 2 ^ 53 -> int_value (of_integer v) = Some v.
Proof.
  intros [Hlo Hhi]. unfold of_integer.
  destruct (Z.eqb_spec v 0) as [->|Hnz]; [reflexivity|].
  destruct (Z.eq_dec v (2 ^ 53)) as [->|Hne]; [vm_compute; reflexivity|].
  assert (Hpos : 0 < v) by lia.
  assert (Hlog : 0 <= Z.log2 v < 53).
  { split; [apply Z.log2_nonneg|]. apply Z.log2_lt_pow2; lia. }
  pose proof (Z.log2_spec v Hpos) as [Hle _].
  unfold round_ratio, floor_log2_ratio.
  change (Z.log2 1) with 0. rewrite Z.sub_0_r.
  replace (0 <=? Z.log2 v) with true by (symmetry; apply Z.leb_le; lia).
  replace (1 * 2 ^ Z.log2 v <=? v) with true by (symmetry; apply Z.leb_le; lia).
  rewrite Z.max_l by lia.
  set (l := Z.log2 v) in *.
  destruct (Z.ltb_spec (l - 52) 0) as [Hneg|Hnn].
  - rewrite Z.div_1_r, Z.mod_1_r. change (2 * 0 <? 1) with true. cbv iota.
    replace (971 <? l - 52) with false by (symmetry; apply Z.ltb_ge; lia).
    replace (l - 52 =? 971) with false by (symmetry; apply Z.eqb_neq; lia).
    cbn [orb andb int_value].
    replace (0 <=? l - 52) with false by (symmetry; apply Z.leb_gt; lia).
    assert (Hp : 0 < 2 ^ (- (l - 52))) by (apply Z.pow_pos_nonneg; lia).
    rewrite Z.mod_mul by lia. cbn [Z.eqb].
    rewrite Z.div_mul by lia. reflexivity.
  - assert (l = 52) by lia. replace (l - 52) with 0 by lia.
    change (2 ^ 0) with 1. rewrite Z.mul_1_l, Z.div_1_r, Z.mod_1_r.
    change (2 * 0 <? 1) with true. change (0 <? 0) with false.
    change (971 <? 0) with false. change (0 =? 971) with false.
    cbn [orb andb int_value]. change (0 <=? 0) with true. cbv iota.
    change (2 ^ 0) with 1. rewrite Z.mul_1_r. reflexivity.
Qed.

(** Two Numbers that denote integers compare as the integers do. *)
Lemma num_compare_int (x y : number) (a b : Z) :
  int_value x = Some a -> int_value y = Some b ->
  num_compare x y = Some (a ?= b).
Proof.
  assert (scale : forall m e v k, int_value (Fin m e) = Some v -> k <= e -> k <= 0 ->
                    m * 2 ^ (e - k) = v * 2 ^ (- k)).
  { intros m e v k Hv Hk Hk0. cbn [int_value] in Hv.
    destruct (Z.leb_spec 0 e).
    - injection Hv as <-. rewrite <- Z.mul_assoc, <- Z.pow_add_r by lia.
      repeat f_equal; lia.
    - destruct (Z.eqb_spec (m mod 2 ^ (- e)) 0) as [Hm|]; [|discriminate].
      injection Hv as <-.
      assert (0 < 2 ^ (- e)) by (apply Z.pow_pos_nonneg; lia).
      pose proof (Z.div_mod m (2 ^ (- e)) ltac:(lia)) as Hdm.
      rewrite Hm, Z.add_0_r in Hdm.
      rewrite Hdm at 1.
      rewrite (Z.mul_comm (2 ^ (- e))), <- Z.mul_assoc, <- Z.pow_add_r by lia.
      repeat f_equal; lia. }
  destruct x as [| |m1 e1], y as [| |m2 e2]; try discriminate.
  intros Ha Hb. cbn [num_compare]. f_equal.
  set (k := Z.min e1 e2).
  destruct (Z.leb_spec k 0) as [Hk|Hk].
  - rewrite (scale m1 e1 a k Ha), (scale m2 e2 b k Hb) by lia.
    assert (0 < 2 ^ (- k)) by (apply Z.pow_pos_nonneg; lia).
    symmetry. apply Zmult_compare_compat_r; lia.
  - cbn [int_value] in Ha, Hb.
    replace (0 <=? e1) with true in Ha by (symmetry; apply Z.leb_le; lia).
    replace (0 <=? e2) with true in Hb by (symmetry; apply Z.leb_le; lia).
    injection Ha as <-. injection Hb as <-.
    assert (0 < 2 ^ k) by (apply Z.pow_pos_nonneg; lia).
    replace (2 ^ e1) with (2 ^ (e1 - k) * 2 ^ k)
      by (rewrite <- Z.pow_add_r by lia; f_equal; lia).
    replace (2 ^ e2) with (2 ^ (e2 - k) * 2 ^ k)
      by (rewrite <- Z.pow_add_r by lia; f_equal; lia).
    rewrite !Z.mul_assoc. apply Zmult_compare_compat_r; lia.
Qed.

(** A digit is none of the other characters the conversion looks for. *)
Lemma digit_cases (c : ascii) :
  isDigit c = true ->
  isWhiteSpace c = false /\ Ascii.eqb c "-" = false /\ Ascii.eqb c "+" = false
  /\ Ascii.eqb c "I" = false /\ Ascii.eqb c "x" = false /\ Ascii.eqb c "X" = false
  /\ Ascii.eqb c "o" = false /\ Ascii.eqb c "O" = false
  /\ Ascii.eqb c "b" = false /\ Ascii.eqb c "B" = false.
Proof.
  intros H.
  assert (Hne : forall d, isDigit d = false -> Ascii.eqb c d = false).
  { intros d Hd. destruct (Ascii.eqb_spec c d) as [->|]; congruence. }
  repeat split; try (apply Hne; reflexivity).
  unfold isDigit, isWhiteSpace in *.
  destruct (N.leb_spec 48 (code c)), (N.leb_spec (code c) 57); try discriminate.
  destruct (N.leb_spec 9 (code c)), (N.leb_spec (code c) 13),
    (N.eqb_spec (code c) 32), (N.eqb_spec (code c) 160); cbn; trivial; lia.
Qed.

Lemma append_cons (c : ascii) (s t : string) : String c s +:+ t = String c (s +:+ t).
Proof. reflexivity. Qed.

Lemma append_empty_r (s : string) : s +:+ "" = s.
Proof.
  induction s as [|c s IH]; [reflexivity|].
  rewrite append_cons, IH. reflexivity.
Qed.

Lemma span_digits_all (p : string) :
  str_forallb isDigit p = true -> span_digits p = (p, EmptyString).
Proof.
  unfold span_digits. induction p as [|c p IH]; cbn; [reflexivity|].
  intros [Hc Hp]%andb_prop. rewrite Hc, (IH Hp). reflexivity.
Qed.

Lemma trim_end_digits (p : string) :
  str_forallb isDigit p = true -> trim_end p = p.
Proof.
  induction p as [|c p IH]; cbn; [reflexivity|].
  intros [Hc Hp]%andb_prop. rewrite (IH Hp).
  destruct (digit_cases c Hc) as [-> _]. destruct p; reflexivity.
Qed.

(** On a non-empty string of digits the conversion is the rounding of
    the integer the digits write. *)
Lemma ToNumber_digits (p : string) :
  p <> EmptyString -> str_forallb isDigit p = true ->
  ToNumber p = of_integer (decimal_value p).
Proof.
  intros Hne Hd. destruct p as [|c p]; [congruence|].
  pose proof Hd as [Hc Hp]%andb_prop.
  destruct (digit_cases c Hc) as (Hws & Hm & Hpl & HI & _).
  unfold ToNumber. cbn [trim_start]. rewrite Hws, (trim_end_digits _ Hd).
  cbn [is_empty].
  assert (parse_nondecimal (String c p) = None) as ->.
  { cbn [parse_nondecimal]. destruct p as [|x r]; [reflexivity|].
    cbn in Hp. apply andb_prop in Hp as [Hx _].
    destruct (digit_cases x Hx) as (_ & _ & _ & _ & -> & -> & -> & -> & -> & ->).
    destruct (negb (Ascii.eqb c "0")); reflexivity. }
  unfold parse_decimal. cbn [strip_sign]. rewrite Hm, Hpl.
  unfold parse_unsigned_decimal.
  assert (String.eqb (String c p) "Infinity" = false) as ->.
  { cbn. rewrite HI. reflexivity. }
  rewrite (span_digits_all _ Hd). cbn [is_empty andb strlen String.length].
  rewrite append_empty_r. cbn [Z.of_nat Z.opp].
  unfold round_decimal, of_integer. cbn [Z.leb Z.compare].
  change (10 ^ 0) with 1. rewrite Z.mul_1_r. reflexivity.
Qed.

End NumberFacts.

(** ** Facts about strings and the matcher *)

Section MatcherFacts.

Lemma strlen_append (a b : string) : strlen (a +:+ b) = (strlen a + strlen b)%nat.
Proof.
  unfold strlen. induction a as [|c a IH]; [reflexivity|].
  rewrite append_cons. cbn [String.length]. rewrite IH. reflexivity.
Qed.

Lemma str_take_append (a b : string) :
  str_take (strlen (a +:+ b) - strlen b) (a +:+ b) = a.
Proof.
  rewrite strlen_append. replace (strlen a + strlen b - strlen b)%nat with (strlen a) by lia.
  induction a as [|c a IH].
  - destruct b; reflexivity.
  - rewrite append_cons. cbn [strlen String.length str_take]. f_equal. exact IH.
Qed.

Lemma append_assoc (a b c : string) : (a +:+ b) +:+ c = a +:+ b +:+ c.
Proof.
  induction a as [|x a IH]; [reflexivity|]. rewrite !append_cons, IH. reflexivity.
Qed.

Lemma str_forallb_append (p : ascii -> bool) (a b : string) :
  str_forallb p (a +:+ b) = str_forallb p a && str_forallb p b.
Proof.
  induction a as [|x a IH]; [reflexivity|].
  rewrite append_cons. cbn [str_forallb]. rewrite IH, andb_assoc. reflexivity.
Qed.

Lemma str_span_run (p : ascii -> bool) (s : string) :
  str_forallb p (fst (str_span p s)) = true.
Proof.
  induction s as [|c s IH]; [reflexivity|]. cbn [str_span].
  destruct (p c) eqn:Hc; [|reflexivity].
  destruct (str_span p s). cbn [fst str_forallb] in *. rewrite Hc, IH. reflexivity.
Qed.

Lemma str_take_all (s : string) : str_take (strlen s - 0) s = s.
Proof.
  rewrite Nat.sub_0_r. induction s as [|c s IH]; [reflexivity|].
  cbn [strlen String.length str_take]. f_equal. exact IH.
Qed.

Lemma str_span_append (p : ascii -> bool) (s : string) :
  fst (str_span p s) +:+ snd (str_span p s) = s.
Proof.
  induction s as [|c s IH]; [reflexivity|]. cbn [str_span].
  destruct (p c); [|reflexivity].
  destruct (str_span p s) as [d r]. cbn [fst snd] in *.
  rewrite append_cons, IH. reflexivity.
Qed.

(** The states a greedy run over the characters satisfying [p] leaves
    behind, the longest run first. *)
Fixpoint run_states (p : ascii -> bool) (prev : option ascii) (s : string)
    (caps : gmap nat string) : list mstate :=
  match s with
  | String c s' =>
      if p c then run_states p (Some c) s' caps ++ [mkState prev s caps]
      else [mkState prev s caps]
  | EmptyString => [mkState prev s caps]
  end.

Variables ignoreCase multiline : bool.

Lemma rmatch_set (invert : bool) (cs : cset) (prev : option ascii) (s : string)
    (caps : gmap nat string) :
  rmatch ignoreCase multiline (RSet invert cs) (mkState prev s caps)
  = match s with
    | String c r =>
        if set_matches ignoreCase invert cs c then [mkState (Some c) r caps] else []
    | EmptyString => []
    end.
Proof. reflexivity. Qed.

Lemma clear_groups_nil (prev : option ascii) (s : string) (caps : gmap nat string) :
  clear_groups [] (mkState prev s caps) = mkState prev s caps.
Proof. reflexivity. Qed.

Lemma repeat_star_set (invert : bool) (cs : cset) (s : string) :
  forall (fuel : nat) (prev : option ascii) (caps : gmap nat string),
  (strlen s < fuel)%nat ->
  repeat_match (rmatch ignoreCase multiline (RSet invert cs)) (clear_groups [])
    fuel 0 None true (mkState prev s caps)
  = run_states (set_matches ignoreCase invert cs) prev s caps.
Proof.
  set (step := rmatch ignoreCase multiline (RSet invert cs)).
  induction s as [|c s IH]; intros [|fuel] prev caps Hf;
    try (unfold strlen in Hf; cbn in Hf; lia).
  - reflexivity.
  - cbn [repeat_match clear_groups foldr ms_prev ms_rest ms_caps run_states
         Nat.ltb Nat.leb fmap option_fmap option_map Nat.pred].
    rewrite clear_groups_nil.
    change (step (mkState prev (String c s) caps))
      with (rmatch ignoreCase multiline (RSet invert cs) (mkState prev (String c s) caps)).
    rewrite rmatch_set.
    destruct (set_matches ignoreCase invert cs c); [|reflexivity].
    cbn [flat_map ms_rest Nat.eqb andb].
    replace (strlen s =? strlen (String c s))%nat with false
      by (symmetry; apply Nat.eqb_neq; unfold strlen; cbn; lia).
    rewrite app_nil_r, IH by (unfold strlen in *; cbn in Hf; lia). reflexivity.
Qed.

Lemma repeat_plus_set (invert : bool) (cs : cset) (s : string)
    (fuel : nat) (prev : option ascii) (caps : gmap nat string) :
  (S (strlen s) < fuel)%nat ->
  repeat_match (rmatch ignoreCase multiline (RSet invert cs)) (clear_groups [])
    fuel 1 None true (mkState prev s caps)
  = match s with
    | String c s' =>
        if set_matches ignoreCase invert cs c
        then run_states (set_matches ignoreCase invert cs) (Some c) s' caps
        else []
    | EmptyString => []
    end.
Proof.
  set (step := rmatch ignoreCase multiline (RSet invert cs)).
  destruct fuel as [|fuel]; [lia|]. intros Hf.
  cbn [repeat_match clear_groups foldr ms_prev ms_rest ms_caps
       Nat.ltb Nat.leb fmap option_fmap option_map Nat.pred].
  rewrite clear_groups_nil.
  change (step (mkState prev s caps))
    with (rmatch ignoreCase multiline (RSet invert cs) (mkState prev s caps)).
  rewrite rmatch_set.
  destruct s as [|c s]; [reflexivity|].
  destruct (set_matches ignoreCase invert cs c); [|reflexivity].
  cbn [flat_map Nat.eqb andb].
  rewrite app_nil_r. apply repeat_star_set. unfold strlen in *. cbn in Hf. lia.
Qed.

Lemma rmatch_repeat_set (lo : nat) (hi : option nat) (greedy invert : bool) (cs : cset)
    (prev : option ascii) (s : string) (caps : gmap nat string) :
  rmatch ignoreCase multiline (RRepeat lo hi greedy (RSet invert cs)) (mkState prev s caps)
  = repeat_match (rmatch ignoreCase multiline (RSet invert cs)) (clear_groups [])
      (S (lo + strlen s)) lo hi greedy (mkState prev s caps).
Proof. reflexivity. Qed.

Lemma run_states_head (p : ascii -> bool) (s : string) :
  forall (prev : option ascii) (caps : gmap nat string),
  exists prev' tl,
    run_states p prev s caps = mkState prev' (snd (str_span p s)) caps :: tl
    /\ Forall (fun st => exists c r, ms_rest st = String c r /\ p c = true) tl.
Proof.
  induction s as [|c s IH]; intros prev caps.
  - exists prev, []. split; [reflexivity|constructor].
  - cbn [run_states str_span]. destruct (p c) eqn:Hc.
    + destruct (IH (Some c) caps) as (prev' & tl & -> & Htl).
      exists prev', (tl ++ [mkState prev (String c s) caps]).
      destruct (str_span p s) as [d r]. split; [reflexivity|].
      apply Forall_app. split; [exact Htl|]. repeat constructor. eauto.
    + exists prev, []. split; [reflexivity|constructor].
Qed.

(** A property of the remaining text that dropping a character of the
    run keeps holds in every state of the run. *)
Lemma run_states_forall (p : ascii -> bool) (P : string -> Prop) (s : string) :
  (forall c r, p c = true -> P (String c r) -> P r) ->
  forall (prev : option ascii) (caps : gmap nat string),
  P s -> Forall (fun st => P (ms_rest st) /\ ms_caps st = caps) (run_states p prev s caps).
Proof.
  intros Hstep. induction s as [|c s IH]; intros prev caps Hs.
  - repeat constructor. exact Hs.
  - cbn [run_states]. destruct (p c) eqn:Hc.
    + apply Forall_app. split; [apply IH; eauto|]. repeat constructor. exact Hs.
    + repeat constructor. exact Hs.
Qed.

Lemma flat_map_singleton {A : Type} (l : list A) : flat_map (fun x => [x]) l = l.
Proof. induction l as [|x l IH]; cbn; [|rewrite IH]; reflexivity. Qed.

Lemma flat_map_nil_forall {A B : Type} (f : A -> list B) (l : list A) :
  Forall (fun x => f x = []) l -> flat_map f l = [].
Proof. induction 1 as [|x l Hx _ IH]; cbn; [|rewrite Hx, IH]; reflexivity. Qed.

End MatcherFacts.

(* ================================================================== *)
(** * Part II. check-libs                                              *)
(* ================================================================== *)

Module CheckLibs.

(** ** compareVersions *)

(** [isValidPart(x)] is [/^\d+$/.test(x)], applied to the parts after
    [map(Number)]: the test converts the Number back to a string, and
    [Number::toString] writes a bare digit string exactly for the
    non-negative integers below [10^21] (zero of either sign is ["0"]);
    every other Number is written with a sign, a point or an exponent,
    or as [NaN] or [Infinity]. *)
Definition isValidPart (x : number) : bool :=
  match int_value x with
  | Some z => (0 <=? z) && (z <? 10 ^ 21)
  | None => false
  end.

(** The loop [for (i = 0; i < v1.length; ++i)], with [todo] iterations
    left: [Some r] when the body returns [r], [None] when the loop runs
    out. Reading past the end of [v2] gives [undefined], which is
    neither equal to nor less than a Number. *)
Fixpoint compare_loop (v1 v2 : list number) (i todo : nat) : option number :=
  match todo with
  | O => None
  | S todo' =>
      if Nat.eqb (length v2) i then Some (of_Z 1)
      else match v1 !! i, v2 !! i with
           | Some a, Some b =>
               if num_eqb a b then compare_loop v1 v2 (S i) todo'
               else if num_gtb a b then Some (of_Z 1)
               else Some (of_Z (-1))
           | _, _ => Some (of_Z (-1))
           end
  end.

Definition compareVersions (version1 version2 : value) : res number :=
  if negb (typeof_is_string version1) || negb (typeof_is_string version1)
  then Ok NaN
  else
    v1 ← value_split version1 ".";
    v2 ← value_split version2 ".";
    let v1 := map ToNumber v1 in
    let v2 := map ToNumber v2 in
    if negb (forallb isValidPart v1) || negb (forallb isValidPart v2)
    then Ok NaN
    else match compare_loop v1 v2 0 (length v1) with
         | Some r => Ok r
         | None =>
             if negb (Nat.eqb (length v1) (length v2)) then Ok (of_Z (-1))
             else Ok (of_Z 0)
         end.

(** ** Library descriptors and version information *)

Record minVersion_t : Type := mkMinVersion {
  major : string;
  minor : string
}.

(** The properties of a library descriptor other than its [check]
    function; every property may be absent. [match_] is the property
    the source calls [match], and [lib_check] below the one it calls
    [check]. *)
Record descriptor : Type := mkDescriptor {
  name : option string;
  minVersion : option minVersion_t;
  patchOptional : option bool;
  bannedVersions : option (list string);
  skip : option bool;
  match_ : option string
}.

Record vinfo : Type := mkVinfo {
  vname : option string;
  needsUpdate : bool;
  vminVersion : string;
  vversion : value;
  bannedVersion : option value;
  url : option string;
  lineNumber : option nat
}.

(** A [check] function: called with the descriptor as [this] and the
    script text; it returns a [vinfo], or a falsy value ([null],
    [false], the empty string), or throws. *)
Definition checkfn : Type := descriptor -> string -> res (option vinfo).

Record library : Type := mkLibrary {
  desc : descriptor;
  lib_check : option checkfn
}.

(** Truthiness of an optional property. *)
Definition truthy_flag (b : option bool) : bool := default false b.

Definition truthy_string (s : option string) : bool :=
  match s with
  | Some s => negb (is_empty s)
  | None => false
  end.

(** ** checkVersion *)

(** The [patchOptional] step: [version.match] against the pattern for
    two dotted runs of digits and a suffix, then the test whether the
    suffix opens with a dot and a digit; only a string has a [match]
    method. *)
Definition patch_version (version : value) : res value :=
  match version with
  | VString v =>
      re ← RegExp_new "^(\d+\.\d+)(.*)$" "";
      match String_match v re with
      | Some parts =>
          re2 ← RegExp_new "^\.\d+" "";
          if negb (RegExp_test re2 (group_text parts 2))
          then Ok (VString (group_text parts 1 +:+ ".0" +:+ group_text parts 2))
          else Ok version
      | None => Ok version
      end
  | _ => Throw TypeError
  end.

(** [bannedVersions.indexOf(version) >= 0]: strict equality with a
    member of the array of strings. *)
Definition is_banned (banned : list string) (version : value) : bool :=
  match version with
  | VString v => array_includes banned v
  | _ => false
  end.

Definition checkVersion (library : descriptor) (version : value) : res vinfo :=
  mv ← match minVersion library with
       | Some mv => Ok mv
       | None => Throw TypeError
       end;
  let vinfo := mkVinfo (name library) true (major mv +:+ minor mv) version None None None in
  version ← (if truthy_flag (patchOptional library) then patch_version version else Ok version);
  cmp ← compareVersions version (VString (vminVersion vinfo));
  let vinfo := mkVinfo (vname vinfo) (num_eqb cmp (of_Z (-1))) (vminVersion vinfo)
                 (vversion vinfo) None None None in
  match bannedVersions library with
  | Some banned =>
      if is_banned banned version
      then Ok (mkVinfo (vname vinfo) true (vminVersion vinfo) (vversion vinfo)
                 (Some version) None None)
      else Ok vinfo
  | None => Ok vinfo
  end.

(** [version && checkVersion(this, v)] *)
Definition and_checkVersion (this : descriptor) (version : option match_result)
    (v : match_result -> value) : res (option vinfo) :=
  match version with
  | Some m => r ← checkVersion this (v m); Ok (Some r)
  | None => Ok None
  end.

Definition defaultCheck : checkfn := fun this scriptText =>
  re ← RegExp_new (default "" (match_ this)) "m";
  and_checkVersion this (String_match scriptText re) (fun version => group version 1).

(** ** The built-in registry *)

Definition builtin (nm major minor : string) (patch : option bool) (f : checkfn) : library :=
  mkLibrary (mkDescriptor (Some nm) (Some (mkMinVersion major minor)) patch None None None)
            (Some f).

Definition check_Prototype : checkfn := fun this scriptText =>
  re ← RegExp_new "Prototype JavaScript framework, version (\d+\.\d+\.\d+)" "m";
  let version := String_match scriptText re in
  and_checkVersion this version (fun version => group version 1).

Definition check_Dojo : checkfn := fun this scriptText =>
  if indexOf scriptText "dojo" =? -1 then Ok None
  else
    re ← RegExp_new "\.version\s*=\s*\{\s*major:\s*(\d+)\D+(\d+)\D+(\d+)" "m";
    match String_match scriptText re with
    | Some version =>
        r ← checkVersion this
              (VString (group_text version 1 +:+ "." +:+ group_text version 2 +:+ "."
                        +:+ group_text version 3));
        Ok (Some r)
    | None =>
        re ← RegExp_new "\s*major:\s*(\d+),\s*minor:\s*(\d+),\s*patch:\s*(\d+)," "mi";
        let version := String_match scriptText re in
        and_checkVersion this version
          (fun version => VString (group_text version 1 +:+ "." +:+ group_text version 2 +:+ "."
                                   +:+ group_text version 3))
    end.

Definition check_Mootools : checkfn := fun this scriptText =>
  re ← RegExp_new "this.MooTools\s*=\s*\{version:\s*'(\d+\.\d+\.\d+)" "m";
  let version := String_match scriptText re in
  and_checkVersion this version (fun version => group version 1).

Definition check_SWFObject : checkfn := fun this scriptText =>
  re ← RegExp_new "\*\s+SWFObject v(\d+\.\d+)" "m";
  let version := String_match scriptText re in
  and_checkVersion this version (fun version => group version 1).

Definition check_jQueryFormPlugin : checkfn := fun this scriptText =>
  re ← RegExp_new "Form Plugin\s+\*\s+version: (\d+\.\d+)" "m";
  let version := String_match scriptText re in
  and_checkVersion this version (fun version => group version 1).

Definition check_Modernizr : checkfn := fun this scriptText =>
  re ← RegExp_new "\*\s*Modernizr\s+(\d+\.\d+\.\d+)" "m";
  let version := String_match scriptText re in
  and_checkVersion this version (fun version => group version 1).

Definition check_jQueryCookie : checkfn := fun this scriptText =>
  re ← RegExp_new "\*\s*jQuery Cookie Plugin v(\d+\.\d+\.\d+)" "m";
  let version := String_match scriptText re in
  and_checkVersion this version (fun version => group version 1).

Definition check_hoverIntent : checkfn := fun this scriptText =>
  re ← RegExp_new "\*\s*hoverIntent v(\d+\.\d+\.\d+)" "m";
  match String_match scriptText re with
  | Some version => r ← checkVersion this (group version 1); Ok (Some r)
  | None =>
      re ← RegExp_new "\*\s*hoverIntent r(\d)" "m";
      let version := String_match scriptText re in
      and_checkVersion this version
        (fun version => VString ("1." +:+ group_text version 1 +:+ ".0"))
  end.

Definition check_jQueryEasing : checkfn := fun this scriptText =>
  re ← RegExp_new "\*\s*jQuery Easing v(\d+\.\d+)\s*" "m";
  let version := String_match scriptText re in
  and_checkVersion this version (fun version => group version 1).

Definition check_underscore : checkfn := fun this scriptText =>
  re ← RegExp_new ("exports._(?:.*)?.VERSION=" +:+ dquote +:+ "(\d+.\d+.\d+)" +:+ dquote) "m";
  let version := String_match scriptText re in
  and_checkVersion this version (fun version => group version 1).

Definition check_hammer : checkfn := fun this scriptText =>
  if negb (indexOf scriptText "hammer.input" =? -1) then
    re ← RegExp_new (".VERSION\s*=\s*['|" +:+ dquote +:+ "](\d+.\d+.\d+)['|" +:+ dquote +:+ "]") "m";
    let version := String_match scriptText re in
    and_checkVersion this version (fun version => group version 1)
  else Ok None.

Definition check_jQuerySuperfish : checkfn := fun this scriptText =>
  re ← RegExp_new ("jQuery Superfish Menu Plugin - v(\d+.\d+.\d+)" +:+ dquote) "m";
  let version := String_match scriptText re in
  and_checkVersion this version (fun version => group version 1).

Definition check_jQueryMousewheel : checkfn := fun this scriptText =>
  re ← RegExp_new (".mousewheel={version:" +:+ dquote +:+ "(\d+.\d+.\d+)") "";
  let version := String_match scriptText re in
  and_checkVersion this version (fun version => group version 1).

Definition check_jQueryMobile : checkfn := fun this scriptText =>
  re ← RegExp_new (".mobile,{version:" +:+ dquote +:+ "(\d+.\d+.\d+)") "";
  let version := String_match scriptText re in
  and_checkVersion this version (fun version => group version 1).

Definition check_jQueryUI : checkfn := fun this scriptText =>
  re ← RegExp_new ("\.ui,[\s\r\n]*\{[\s\r\n]*version:\s*" +:+ dquote +:+ "(\d+.\d+.\d+)") "m";
  let version := String_match scriptText re in
  and_checkVersion this version (fun version => group version 1).

(** The header is searched first; a match that also occurs after a
    colon ([Requires: jQuery v1.7.1]) is a plugin's, and is passed over. *)
Definition check_jQuery : checkfn := fun this scriptText =>
  regex ← RegExp_new "(?:jQuery\s*v)(\d+.\d+.\d+)\s" "g";
  let version := RegExp_exec regex scriptText in
  header ← match version with
           | Some version =>
               isPluginRegExp ← RegExp_new ("(?::\s*)" +:+ group_text version 0) "g";
               if negb (RegExp_test isPluginRegExp scriptText)
               then r ← checkVersion this (group version 1); Ok (Some r)
               else Ok None
           | None => Ok None
           end;
  match header with
  | Some r => Ok (Some r)
  | None =>
      re ← RegExp_new ("jquery:\s*" +:+ dquote +:+ "([^" +:+ dquote +:+ "]+)") "";
      match String_match scriptText re with
      | Some version => r ← checkVersion this (group version 1); Ok (Some r)
      | None =>
          regex ← RegExp_new ("(?:jquery[,\)].{0,200}=" +:+ dquote +:+ ")(\d+\.\d+)(\..*?)"
                              +:+ dquote) "gi";
          match RegExp_exec regex scriptText with
          | Some results =>
              let version := group_text results 1
                             +:+ (match group results 2 with VString s => s | _ => "" end) in
              if is_empty version then Ok None
              else r ← checkVersion this (VString version); Ok (Some r)
          | None => Ok None
          end
      end
  end.

Definition default_libraries : list library :=
  [ builtin "Prototype" "1.6." "1" None check_Prototype;
    builtin "Dojo" "1.5." "3" None check_Dojo;
    builtin "Mootools" "1.2." "6" None check_Mootools;
    builtin "SWFObject" "2." "1" None check_SWFObject;
    builtin "jQuery Form Plugin" "3." "19" None check_jQueryFormPlugin;
    builtin "Modernizr" "1.1." "" None check_Modernizr;
    builtin "jQuery cookie" "1.3." "1" (Some false) check_jQueryCookie;
    builtin "hoverIntent" "1.8." "0" (Some false) check_hoverIntent;
    builtin "jQuery Easing" "1.3." "0" (Some true) check_jQueryEasing;
    builtin "underscore" "1.0." "0" (Some false) check_underscore;
    builtin "hammer js" "2.0." "2" (Some false) check_hammer;
    builtin "jQuery Superfish" "1.7." "4" (Some false) check_jQuerySuperfish;
    builtin "jQuery mousewheel" "3.1." "12" (Some true) check_jQueryMousewheel;
    builtin "jQuery mobile" "1.4." "3" (Some true) check_jQueryMobile;
    builtin "jQuery UI" "1.8." "24" None check_jQueryUI;
    builtin "jQuery" "1.6." "4" (Some true) check_jQuery ].

(** ** checkScript and check *)

Record status : Type := mkStatus {
  passed : bool;
  data : option vinfo
}.

(** [website.content.substr(0, pos).split('\n').length] *)
Definition line_of (text : string) (pos : Z) : nat :=
  length (split_on newline (substr0 text pos)).

(** The loop of [checkScript] over the registry, from its current
    entry on: [continue] moves to the next entry, [break] leaves the
    loop with the status it has set. A descriptor whose [check] is not a
    function makes the call throw. *)
Fixpoint scan_libraries (libs : list library) (js : script) (site : website)
    (st : status) : res status :=
  match libs with
  | [] => Ok st
  | lib :: rest =>
      if truthy_flag (skip (desc lib)) then scan_libraries rest js site st
      else if negb (String.eqb (jsUrl js) "embed") then
        f ← match lib_check lib with
            | Some f => Ok f
            | None => Throw TypeError
            end;
        result ← f (desc lib) (default "" (content js));
        match result with
        | Some result =>
            if needsUpdate result then
              let pos := indexOf (wcontent site) (jsUrl js) in
              let lineNumber := line_of (wcontent site) pos in
              let result := mkVinfo (vname result) (needsUpdate result) (vminVersion result)
                              (vversion result) (bannedVersion result)
                              (Some (jsUrl js)) (Some lineNumber) in
              Ok (mkStatus false (Some result))
            else scan_libraries rest js site st
        | None => scan_libraries rest js site st
        end
      else scan_libraries rest js site st
  end.

Definition checkScript (libraries : list library) (js : script) (site : website) : res status :=
  scan_libraries libraries js site (mkStatus true None).

Record test : Type := mkTest {
  testName : string;
  turl : string;
  tpassed : bool;
  tdata : list (option vinfo)
}.

(** The loop of [check] over the scripts of the page. *)
Fixpoint scan_scripts (libraries : list library) (scripts : list script) (site : website)
    (t : test) : res test :=
  match scripts with
  | [] => Ok t
  | js :: rest =>
      result ← checkScript libraries js site;
      if negb (passed result)
      then scan_scripts libraries rest site
             (mkTest (testName t) (turl t) false (tdata t ++ [data result]))
      else scan_scripts libraries rest site t
  end.

(** [check(website)] against the active registry: what the promise is
    resolved with. When a [check] function throws inside the tick, the
    promise is never resolved; that is the [Throw] outcome. *)
Definition check (libraries : list library) (site : website) : res test :=
  scan_scripts libraries (js site) site
    (mkTest "jslibs" (url_href site) true []).

(** ** The registry in the store

    Descriptors are mutable objects: [mergeConfig] copies the defaults
    into new objects, writes to the override objects it is handed, and
    keeps references to both. The store maps locations to objects;
    arrays are lists of locations. *)

Definition loc : Type := nat.

Abbreviation heap := (gmap loc library).

Definition or_else {A : Type} (a b : option A) : option A :=
  match a with
  | Some _ => a
  | None => b
  end.

(** [for (var n in config) target[n] = config[n]]: every property the
    override has replaces the target's; the others stay. *)
Definition overlay (config target : library) : library :=
  mkLibrary
    (mkDescriptor
       (or_else (name (desc config)) (name (desc target)))
       (or_else (minVersion (desc config)) (minVersion (desc target)))
       (or_else (patchOptional (desc config)) (patchOptional (desc target)))
       (or_else (bannedVersions (desc config)) (bannedVersions (desc target)))
       (or_else (skip (desc config)) (skip (desc target)))
       (or_else (match_ (desc config)) (match_ (desc target))))
    (or_else (lib_check config) (lib_check target)).

(** [libmap] is created as [{ }], so a key it does not own is looked up
    on [Object.prototype]: its methods are truthy functions, and
    [__proto__] is [Object.prototype] itself. *)
Definition Object_prototype_methods : list string :=
  [ "constructor"; "toString"; "toLocaleString"; "valueOf"; "hasOwnProperty";
    "isPrototypeOf"; "propertyIsEnumerable"; "__defineGetter__"; "__defineSetter__";
    "__lookupGetter__"; "__lookupSetter__" ].

Inductive libmap_entry : Type :=
| Own (l : loc)
| InheritedMethod
| ObjectPrototype
| Missing.

Definition libmap_get (libmap : gmap string loc) (key : string) : libmap_entry :=
  match libmap !! key with
  | Some l => Own l
  | None =>
      if String.eqb key "__proto__" then ObjectPrototype
      else if existsb (String.eqb key) Object_prototype_methods then InheritedMethod
      else Missing
  end.

(** The first [forEach] of [mergeConfig]: each default is copied into
    a new object, indexed by its name when it has one, and pushed.
    Assigning [libmap["__proto__"]] would replace the prototype of
    [libmap]: that is outside the model. *)
Fixpoint copy_defaults (h : heap) (libraries : list loc) (newlibraries : list loc)
    (libmap : gmap string loc) : heap * res (list loc * gmap string loc) :=
  match libraries with
  | [] => (h, Ok (newlibraries, libmap))
  | l :: rest =>
      match h !! l with
      | None => (h, Throw TypeError)
      | Some library =>
          let newlibrary := fresh (dom h) in
          let h := <[newlibrary := library]> h in
          match name (desc library) with
          | Some nm =>
              if is_empty nm then copy_defaults h rest (newlibraries ++ [newlibrary]) libmap
              else if String.eqb nm "__proto__" then (h, Throw Unsupported)
              else copy_defaults h rest (newlibraries ++ [newlibrary])
                     (<[nm := newlibrary]> libmap)
          | None => copy_defaults h rest (newlibraries ++ [newlibrary]) libmap
          end
      end
  end.

(** The second [forEach]: an override without a name is passed over; an
    override whose name [libmap] does not know gets [defaultCheck], is
    pushed itself, and is indexed; otherwise its properties are written
    onto the object [libmap] holds for the name. When that object is a
    method of [Object.prototype], the write to its read-only [name]
    throws (the file is in strict mode); when it is [Object.prototype],
    the writes change every object: outside the model. *)
Fixpoint apply_overrides (h : heap) (libconfig : list loc) (newlibraries : list loc)
    (libmap : gmap string loc) : heap * res (list loc) :=
  match libconfig with
  | [] => (h, Ok newlibraries)
  | c :: rest =>
      match h !! c with
      | None => (h, Throw TypeError)
      | Some config =>
          if negb (truthy_string (name (desc config)))
          then apply_overrides h rest newlibraries libmap
          else
            let nm := default "" (name (desc config)) in
            match libmap_get libmap nm with
            | Missing =>
                let h := <[c := mkLibrary (desc config) (Some defaultCheck)]> h in
                apply_overrides h rest (newlibraries ++ [c]) (<[nm := c]> libmap)
            | Own target =>
                match h !! target with
                | Some t => apply_overrides (<[target := overlay config t]> h) rest
                              newlibraries libmap
                | None => (h, Throw TypeError)
                end
            | InheritedMethod => (h, Throw TypeError)
            | ObjectPrototype => (h, Throw Unsupported)
            end
      end
  end.

Definition mergeConfig (h : heap) (libraries libconfig : list loc) : heap * res (list loc) :=
  match copy_defaults h libraries [] ∅ with
  | (h, Ok (newlibraries, libmap)) => apply_overrides h libconfig newlibraries libmap
  | (h, Throw e) => (h, Throw e)
  end.

(** The module state: the store, the active registry [libraries] and
    the saved [original_libraries]. *)
Record state : Type := mkModule {
  store : heap;
  libraries : list loc;
  original_libraries : list loc
}.

(** [module.exports.merge(config)]; [None] is a call without argument
    (or with a falsy one). An exception leaves [libraries] as it was,
    and the writes made before it in place. *)
Definition merge (st : state) (config : option (list loc)) : state * res (list loc) :=
  match config with
  | Some config =>
      match mergeConfig (store st) (original_libraries st) config with
      | (h, Ok l) => (mkModule h l (original_libraries st), Ok l)
      | (h, Throw e) => (mkModule h (libraries st) (original_libraries st), Throw e)
      end
  | None =>
      (mkModule (store st) (original_libraries st) (original_libraries st),
       Ok (original_libraries st))
  end.

(** Allocation of a list of objects. *)
Fixpoint alloc_all (h : heap) (objs : list library) : heap * list loc :=
  match objs with
  | [] => (h, [])
  | o :: rest =>
      let l := fresh (dom h) in
      let (h', ls) := alloc_all (<[l := o]> h) rest in
      (h', l :: ls)
  end.

(** Loading the module: the built-in registry is saved as
    [original_libraries]; when [check-libs.json] exists, its entries
    [libconfig] are merged in. *)
Definition load (libconfig : option (list library)) : res state :=
  let (h, libs) := alloc_all ∅ default_libraries in
  match libconfig with
  | None => Ok (mkModule h libs libs)
  | Some cfg =>
      let (h, cfg) := alloc_all h cfg in
      match mergeConfig h libs cfg with
      | (h, Ok l) => Ok (mkModule h l libs)
      | (_, Throw e) => Throw e
      end
  end.

(** The objects an array of locations holds. *)
Definition objects (h : heap) (ls : list loc) : list library :=
  omap (fun l => h !! l) ls.

(** [check] as exported: against the active registry of the module. *)
Definition check_active (st : state) (site : website) : res test :=
  check (objects (store st) (libraries st)) site.

(** ** Facts: compareVersions *)

(** A part is well formed when it matches [^\d+$]: a non-empty run of
    digits. *)
Definition well_formed_part (p : string) : Prop :=
  p <> EmptyString /\ str_forallb isDigit p = true.

Definition well_formed (a : string) : Prop :=
  Forall well_formed_part (split_on "." a).

(** The integers the parts of a version write. *)
Definition parts (a : string) : list Z :=
  map decimal_value (split_on "." a).

(** Every part is an integer a Number holds exactly. *)
Definition representable (a : string) : Prop :=
  Forall (fun v => v <= 2 ^ 53) (parts a).

(** The comparison as the specification words it: part by part as
    integers; [1] where [b] has no part left, the order of the first two
    parts that differ, [-1] when [a] runs out first, [0] when both run
    out together. *)
Fixpoint compare_parts (a b : list Z) : Z :=
  match a, b with
  | [], [] => 0
  | [], _ :: _ => -1
  | _ :: _, [] => 1
  | x :: a', y :: b' =>
      if x =? y then compare_parts a' b'
      else if y <? x then 1 else -1
  end.

Section CompareFacts.

Lemma digit_value_range (c : ascii) : isDigit c = true -> 0 <= digit_value c <= 9.
Proof.
  unfold isDigit, digit_value. intros [H1 H2]%andb_prop.
  apply N.leb_le in H1, H2. lia.
Qed.

Lemma decimal_value_acc_nonneg (p : string) (acc : Z) :
  str_forallb isDigit p = true -> 0 <= acc -> 0 <= decimal_value_acc acc p.
Proof.
  revert acc. induction p as [|c p IH]; intros acc Hd Hacc; cbn; [assumption|].
  cbn in Hd. apply andb_prop in Hd as [Hc Hp].
  apply IH; [assumption|]. pose proof (digit_value_range c Hc). lia.
Qed.

Lemma decimal_value_nonneg (p : string) :
  str_forallb isDigit p = true -> 0 <= decimal_value p.
Proof. intros H. apply decimal_value_acc_nonneg; [assumption|lia]. Qed.

(** The Numbers of the parts of a well-formed version. *)
Lemma ToNumber_parts (l : list string) :
  Forall well_formed_part l -> map ToNumber l = map of_integer (map decimal_value l).
Proof.
  induction 1 as [|p l [Hne Hd] _ IH]; cbn; [reflexivity|].
  rewrite IH, (ToNumber_digits p Hne Hd). reflexivity.
Qed.

Lemma parts_nonneg (l : list string) :
  Forall well_formed_part l -> Forall (fun v => 0 <= v) (map decimal_value l).
Proof.
  induction 1 as [|p l [_ Hd] _ IH]; cbn; constructor; auto using decimal_value_nonneg.
Qed.

Lemma isValidPart_of_integer (v : Z) :
  0 <= v <= 2 ^ 53 -> isValidPart (of_integer v) = true.
Proof.
  intros H. unfold isValidPart. rewrite (int_value_of_integer v H).
  apply andb_true_intro. split; [apply Z.leb_le|apply Z.ltb_lt]; lia.
Qed.

Lemma valid_parts (l : list Z) :
  Forall (fun v => 0 <= v <= 2 ^ 53) l -> forallb isValidPart (map of_integer l) = true.
Proof.
  induction 1 as [|v l Hv _ IH]; cbn; [reflexivity|].
  rewrite (isValidPart_of_integer v Hv), IH. reflexivity.
Qed.

Lemma num_eqb_of_integer (x y : Z) :
  0 <= x <= 2 ^ 53 -> 0 <= y <= 2 ^ 53 ->
  num_eqb (of_integer x) (of_integer y) = (x =? y)
  /\ num_gtb (of_integer x) (of_integer y) = (y <? x).
Proof.
  intros Hx Hy. unfold num_eqb, num_gtb.
  rewrite (num_compare_int _ _ x y (int_value_of_integer x Hx) (int_value_of_integer y Hy)).
  rewrite Z.eqb_compare, (Z.ltb_compare y x), (Z.compare_antisym x y).
  destruct (x ?= y); split; reflexivity.
Qed.

(** What the loop returns, read off the two lists of integers. *)
Fixpoint loop_result (a b : list Z) : option Z :=
  match a, b with
  | [], _ => None
  | _ :: _, [] => Some 1
  | x :: a', y :: b' =>
      if x =? y then loop_result a' b'
      else if y <? x then Some 1 else Some (-1)
  end.

Lemma compare_loop_result (a b : list Z) (pre1 pre2 : list number) :
  Forall (fun v => 0 <= v <= 2 ^ 53) a ->
  Forall (fun v => 0 <= v <= 2 ^ 53) b ->
  length pre1 = length pre2 ->
  compare_loop (pre1 ++ map of_integer a) (pre2 ++ map of_integer b)
    (length pre1) (length a)
  = of_Z <$> loop_result a b.
Proof.
  intros Ha. revert b pre1 pre2.
  induction Ha as [|x a Hx Ha IH]; intros b pre1 pre2 Hb Hlen; [reflexivity|].
  cbn [length compare_loop loop_result].
  destruct Hb as [|y b Hy Hb].
  - cbn [map]. rewrite app_nil_r, <- Hlen, Nat.eqb_refl. reflexivity.
  - replace (length (pre2 ++ map of_integer (y :: b)) =? length pre1)%nat with false.
    2:{ symmetry. apply Nat.eqb_neq. rewrite length_app. cbn. lia. }
    cbn [map].
    rewrite (list_lookup_middle pre1 _ (of_integer x) _ eq_refl).
    rewrite (list_lookup_middle pre2 _ (of_integer y) _ Hlen).
    destruct (num_eqb_of_integer x y Hx Hy) as [-> ->].
    destruct (x =? y).
    + rewrite (cons_middle (of_integer x)), (cons_middle (of_integer y)), !app_assoc.
      replace (S (length pre1)) with (length (pre1 ++ [of_integer x]))
        by (rewrite length_app; cbn; lia).
      apply IH; [assumption|]. rewrite !length_app. cbn. lia.
    + destruct (y <? x); reflexivity.
Qed.

Lemma compare_parts_loop (a b : list Z) :
  compare_parts a b =
  match loop_result a b with
  | Some r => r
  | None => if negb (length a =? length b)%nat then -1 else 0
  end.
Proof.
  revert b. induction a as [|x a IH]; intros [|y b]; cbn; try reflexivity.
  rewrite IH. destruct (x =? y); [reflexivity|]. destruct (y <? x); reflexivity.
Qed.

Lemma compare_parts_refl (a : list Z) : compare_parts a a = 0.
Proof.
  induction a as [|x a IH]; cbn; [reflexivity|]. rewrite Z.eqb_refl. exact IH.
Qed.

Lemma compareVersions_parts (a b : string) :
  well_formed a -> well_formed b -> representable a -> representable b ->
  compareVersions (VString a) (VString b) = Ok (of_Z (compare_parts (parts a) (parts b))).
Proof.
  intros Wa Wb Ra Rb.
  assert (Ba : Forall (fun v => 0 <= v <= 2 ^ 53) (parts a)).
  { apply Forall_and; split; [exact (parts_nonneg _ Wa)|exact Ra]. }
  assert (Bb : Forall (fun v => 0 <= v <= 2 ^ 53) (parts b)).
  { apply Forall_and; split; [exact (parts_nonneg _ Wb)|exact Rb]. }
  unfold compareVersions. cbn [typeof_is_string negb orb value_split mbind res_bind].
  rewrite (ToNumber_parts _ Wa), (ToNumber_parts _ Wb).
  fold (parts a) (parts b).
  rewrite (valid_parts _ Ba), (valid_parts _ Bb). cbn [negb orb].
  pose proof (compare_loop_result (parts a) (parts b) [] [] Ba Bb eq_refl) as Hloop.
  cbn [app length] in Hloop. rewrite !length_map, Hloop, compare_parts_loop.
  destruct (loop_result (parts a) (parts b)); cbn [fmap option_fmap option_map]; [reflexivity|].
  destruct (negb (length (parts a) =? length (parts b))%nat); reflexivity.
Qed.

End CompareFacts.

(** ** Facts: the patch-optional step *)

Definition not_line_terminator (c : ascii) : bool := negb (isLineTerminator c).

(** [<major>.<minor><suffix>]: two runs of digits, each the longest
    there is, joined by a dot, and a suffix free of line terminators
    (the [.] of the pattern does not match one). *)
Definition patch_shape (v : string) : option (string * string) :=
  let (d1, r1) := str_span isDigit v in
  match r1 with
  | String c r2 =>
      let (d2, suffix) := str_span isDigit r2 in
      if Ascii.eqb c "." && negb (is_empty d1) && negb (is_empty d2)
         && str_forallb not_line_terminator suffix
      then Some (d1 +:+ "." +:+ d2, suffix)
      else None
  | EmptyString => None
  end.

(** The suffix opens with a dot and a digit. *)
Definition starts_dot_digit (s : string) : bool :=
  match s with
  | String c (String d _) => Ascii.eqb c "." && isDigit d
  | _ => false
  end.

(** The normalization as the specification words it: a version of the
    shape [<major>.<minor><suffix>] whose suffix does not open with a
    dot and a digit gets [.0] between the minor and the suffix; any
    other version is left as it is. *)
Definition patch_normalize (v : string) : string :=
  match patch_shape v with
  | Some (majmin, suffix) =>
      if starts_dot_digit suffix then v else majmin +:+ ".0" +:+ suffix
  | None => v
  end.

Section PatchFacts.

Local Abbreviation D := (RSet false (SDigit false)).
Local Abbreviation g1 :=
  (RSeq (RRepeat 1 None true D)
     (RSeq (RSet false (SChar ".")) (RSeq (RRepeat 1 None true D) REmpty))).
Local Abbreviation R2 :=
  (RSeq (RGroup 2 (RSeq (RRepeat 0 None true (RSet false SNotLineTerminator)) REmpty))
     (RSeq REol REmpty)).
Local Abbreviation patch_body := (RSeq RBol (RSeq (RGroup 1 g1) R2)).
Local Abbreviation test_body :=
  (RSeq RBol (RSeq (RSet false (SChar ".")) (RSeq (RRepeat 1 None true D) REmpty))).

Lemma RegExp_new_patch :
  RegExp_new "^(\d+\.\d+)(.*)$" "" = Ok (mkRegExp patch_body 2 false false false).
Proof. vm_compute. reflexivity. Qed.

Lemma RegExp_new_test :
  RegExp_new "^\.\d+" "" = Ok (mkRegExp test_body 0 false false false).
Proof. vm_compute. reflexivity. Qed.

(** One or more digits, from a given state. *)
Lemma rmatch_digits (prev : option ascii) (s : string) (caps : gmap nat string) :
  rmatch false false (RRepeat 1 None true D) (mkState prev s caps)
  = match s with
    | String c s' => if isDigit c then run_states isDigit (Some c) s' caps else []
    | EmptyString => []
    end.
Proof.
  rewrite rmatch_repeat_set, repeat_plus_set by (unfold strlen; lia). reflexivity.
Qed.

Lemma rmatch_digits_states (prev : option ascii) (s : string) (caps : gmap nat string) :
  fst (str_span isDigit s) <> EmptyString ->
  exists prev' tl,
    rmatch false false (RRepeat 1 None true D) (mkState prev s caps)
    = mkState prev' (snd (str_span isDigit s)) caps :: tl
    /\ Forall (fun st => exists c r, ms_rest st = String c r /\ isDigit c = true) tl.
Proof.
  rewrite rmatch_digits. destruct s as [|c s]; [cbn; congruence|].
  cbn [str_span]. destruct (isDigit c) eqn:Hc; [|cbn; congruence]. intros _.
  destruct (run_states_head isDigit s (Some c) caps) as (prev' & tl & -> & Htl).
  exists prev', tl. destruct (str_span isDigit s). split; [reflexivity|exact Htl].
Qed.

Lemma rmatch_digits_none (prev : option ascii) (s : string) (caps : gmap nat string) :
  fst (str_span isDigit s) = EmptyString ->
  rmatch false false (RRepeat 1 None true D) (mkState prev s caps) = [].
Proof.
  rewrite rmatch_digits. destruct s as [|c s]; [reflexivity|].
  cbn [str_span]. destruct (isDigit c); [|reflexivity].
  destruct (str_span isDigit s). cbn. congruence.
Qed.

(** A literal character, from a given state. *)
Lemma rmatch_char (a : ascii) (prev : option ascii) (s : string) (caps : gmap nat string) :
  rmatch false false (RSet false (SChar a)) (mkState prev s caps)
  = match s with
    | String c r => if Ascii.eqb a c then [mkState (Some c) r caps] else []
    | EmptyString => []
    end.
Proof. reflexivity. Qed.

Lemma rmatch_seq (a b : regex) (st : mstate) :
  rmatch false false (RSeq a b) st = flat_map (rmatch false false b) (rmatch false false a st).
Proof. reflexivity. Qed.

Lemma rmatch_seq_empty (a : regex) (st : mstate) :
  rmatch false false (RSeq a REmpty) st = rmatch false false a st.
Proof. rewrite rmatch_seq. apply flat_map_singleton. Qed.

(** A dot and then digits: only from a text that opens with them. *)
Lemma rmatch_dot_digits (prev : option ascii) (s : string) (caps : gmap nat string) :
  rmatch false false (RSeq (RSet false (SChar ".")) (RSeq (RRepeat 1 None true D) REmpty))
    (mkState prev s caps)
  = match s with
    | String c r =>
        if Ascii.eqb "." c then rmatch false false (RRepeat 1 None true D) (mkState (Some c) r caps)
        else []
    | EmptyString => []
    end.
Proof.
  rewrite rmatch_seq, rmatch_char. destruct s as [|c r]; [reflexivity|].
  destruct (Ascii.eqb "." c); [|reflexivity].
  cbn [flat_map]. rewrite app_nil_r. apply rmatch_seq_empty.
Qed.

Lemma digit_not_dot (c : ascii) : isDigit c = true -> Ascii.eqb "." c = false.
Proof. intros H. destruct (Ascii.eqb_spec "." c) as [<-|]; [discriminate H|reflexivity]. Qed.

(** The first group: digits, a dot, digits. Backtracking into the
    first run of digits never helps, since a digit is not a dot. *)
Lemma rmatch_g1 (prev : option ascii) (v : string) (caps : gmap nat string) :
  rmatch false false g1 (mkState prev v caps)
  = match fst (str_span isDigit v), snd (str_span isDigit v) with
    | String _ _, String c r2 =>
        if Ascii.eqb "." c
        then rmatch false false (RRepeat 1 None true D) (mkState (Some c) r2 caps)
        else []
    | _, _ => []
    end.
Proof.
  rewrite rmatch_seq.
  destruct (fst (str_span isDigit v)) as [|c0 d] eqn:Hd.
  - rewrite rmatch_digits_none by exact Hd. reflexivity.
  - destruct (rmatch_digits_states prev v caps) as (prev' & tl & -> & Htl);
      [rewrite Hd; discriminate|].
    cbn [flat_map]. rewrite rmatch_dot_digits.
    rewrite (flat_map_nil_forall _ tl), app_nil_r.
    + destruct (snd (str_span isDigit v)) as [|c r2]; [reflexivity|].
      destruct (Ascii.eqb "." c); reflexivity.
    + eapply Forall_impl; [exact Htl|]. intros [p r k] (c & r' & Hr & Hc).
      cbn [ms_rest] in Hr. subst r. rewrite rmatch_dot_digits, (digit_not_dot c Hc).
      reflexivity.
Qed.

Lemma span_not_line_terminator (s : string) :
  str_forallb not_line_terminator s = true ->
  snd (str_span not_line_terminator s) = EmptyString.
Proof.
  induction s as [|c s IH]; [reflexivity|]. cbn [str_forallb str_span].
  intros [-> Hs]%andb_prop. specialize (IH Hs).
  destruct (str_span not_line_terminator s). exact IH.
Qed.

(** The second group and the end anchor: the rest of the text, when it
    holds no line terminator. *)
Lemma rmatch_R2 (prev : option ascii) (s : string) (caps : gmap nat string) :
  if str_forallb not_line_terminator s
  then exists prev', rmatch false false R2 (mkState prev s caps)
                     = [mkState prev' EmptyString (<[2%nat := s]> caps)]
  else rmatch false false R2 (mkState prev s caps) = [].
Proof.
  assert (Heol : forall st, rmatch false false (RSeq REol REmpty) st
                            = if is_empty (ms_rest st) then [st] else []).
  { intros [p r k]. rewrite rmatch_seq_empty. cbn. destruct r; reflexivity. }
  rewrite rmatch_seq.
  change (rmatch false false (RGroup 2 ?r) ?st)
    with (map (fun st' => mkState (ms_prev st') (ms_rest st')
                            (<[2%nat := consumed st st']> (ms_caps st')))
              (rmatch false false r st)).
  rewrite rmatch_seq_empty, rmatch_repeat_set, repeat_star_set by (unfold strlen; lia).
  change (set_matches false false SNotLineTerminator) with not_line_terminator.
  destruct (str_forallb not_line_terminator s) eqn:Hs.
  - destruct (run_states_head not_line_terminator s prev caps) as (prev' & tl & -> & Htl).
    rewrite (span_not_line_terminator s Hs). exists prev'.
    cbn [map flat_map ms_prev ms_rest ms_caps]. rewrite Heol. cbn [ms_rest is_empty].
    unfold consumed. cbn [ms_rest]. rewrite str_take_all.
    rewrite flat_map_nil_forall; [reflexivity|].
    apply Forall_map. eapply Forall_impl; [exact Htl|].
    intros [p r k] (c & r' & Hr & _). cbn [ms_rest] in Hr. subst r.
    rewrite Heol. reflexivity.
  - apply flat_map_nil_forall, Forall_map.
    assert (HP : Forall (fun st => str_forallb not_line_terminator (ms_rest st) = false
                                   /\ ms_caps st = caps)
                        (run_states not_line_terminator prev s caps)).
    { apply (run_states_forall not_line_terminator
               (fun r => str_forallb not_line_terminator r = false)); [|exact Hs].
      intros c r Hc Hr. cbn [str_forallb] in Hr. rewrite Hc in Hr. exact Hr. }
    eapply Forall_impl; [exact HP|].
    intros [p r k] [Hr _]. cbn [ms_rest] in Hr. rewrite Heol. cbn [ms_rest].
    destruct r; [discriminate Hr|reflexivity].
Qed.

Lemma digit_not_line_terminator (c : ascii) :
  isDigit c = true -> not_line_terminator c = true.
Proof.
  intros H. destruct (digit_cases c H) as [Hws _].
  unfold not_line_terminator, isLineTerminator, isWhiteSpace in *.
  destruct (N.eqb_spec (code c) 10) as [E|];
    [rewrite E in Hws; vm_compute in Hws; discriminate Hws|].
  destruct (N.eqb_spec (code c) 13) as [E|];
    [rewrite E in Hws; vm_compute in Hws; discriminate Hws|].
  reflexivity.
Qed.

(** Every state the digits leave keeps what dropping digits keeps. *)
Lemma rmatch_digits_forall (P : string -> Prop) (prev : option ascii) (s : string)
    (caps : gmap nat string) :
  (forall c r, isDigit c = true -> P (String c r) -> P r) ->
  P s ->
  Forall (fun st => P (ms_rest st) /\ ms_caps st = caps)
         (rmatch false false (RRepeat 1 None true D) (mkState prev s caps)).
Proof.
  intros Hstep Hs. rewrite rmatch_digits. destruct s as [|c s]; [constructor|].
  destruct (isDigit c) eqn:Hc; [|constructor].
  apply run_states_forall; eauto.
Qed.

(** The whole pattern at the start of a version. *)
Lemma rmatch_patch_body (v : string) :
  match patch_shape v with
  | Some (majmin, suffix) =>
      exists prev' tl,
        rmatch false false patch_body (mkState None v ∅)
        = mkState prev' EmptyString (<[2%nat := suffix]> (<[1%nat := majmin]> ∅)) :: tl
  | None => rmatch false false patch_body (mkState None v ∅) = []
  end.
Proof.
  rewrite rmatch_seq.
  change (rmatch false false RBol (mkState None v ∅)) with [mkState None v ∅].
  cbn [flat_map]. rewrite app_nil_r, rmatch_seq.
  change (rmatch false false (RGroup 1 ?r) ?st)
    with (map (fun st' => mkState (ms_prev st') (ms_rest st')
                            (<[1%nat := consumed st st']> (ms_caps st')))
              (rmatch false false r st)).
  rewrite rmatch_g1. unfold patch_shape.
  pose proof (str_span_append isDigit v) as Hv.
  destruct (str_span isDigit v) as [d1 r1]. cbn [fst snd] in *.
  destruct r1 as [|c r2].
  { destruct d1; reflexivity. }
  pose proof (str_span_append isDigit r2) as Hr2.
  pose proof (str_span_run isDigit r2) as Hrun.
  destruct d1 as [|c1 d1].
  { destruct (str_span isDigit r2). rewrite andb_false_r. reflexivity. }
  rewrite (Ascii.eqb_sym c "."). destruct (Ascii.eqb_spec "." c) as [<-|];
    [|destruct (str_span isDigit r2); reflexivity].
  cbn [is_empty negb andb].
  destruct (fst (str_span isDigit r2)) as [|c2 d2'] eqn:Hd2.
  { rewrite rmatch_digits_none by exact Hd2.
    destruct (str_span isDigit r2) as [d2 suffix]. cbn [fst] in Hd2. subst d2. reflexivity. }
  pose proof (rmatch_digits_forall
                (fun r => str_forallb not_line_terminator r
                          = str_forallb not_line_terminator (snd (str_span isDigit r2)))
                (Some "."%char) r2 ∅) as HP.
  destruct (rmatch_digits_states (Some "."%char) r2 ∅) as (prev' & tl & Hst & _);
    [rewrite Hd2; discriminate|].
  rewrite Hst in *.
  destruct (str_span isDigit r2) as [d2 suffix]. cbn [fst snd] in *. subst d2.
  cbn [is_empty negb map flat_map ms_prev ms_rest ms_caps].
  assert (Hall : Forall (fun st => str_forallb not_line_terminator (ms_rest st)
                                   = str_forallb not_line_terminator suffix
                                   /\ ms_caps st = ∅)
                        (mkState prev' suffix ∅ :: tl)).
  { apply HP.
    - intros c r Hc Hr. cbn [str_forallb] in Hr.
      rewrite (digit_not_line_terminator c Hc) in Hr. exact Hr.
    - rewrite <- Hr2, str_forallb_append.
      replace (str_forallb not_line_terminator (String c2 d2')) with true; [reflexivity|].
      symmetry. clear - Hrun. revert Hrun. generalize (String c2 d2') as d.
      induction d as [|x d IH]; [reflexivity|]. cbn [str_forallb].
      intros [Hx Hd]%andb_prop. rewrite (digit_not_line_terminator x Hx). auto. }
  apply Forall_cons_1 in Hall as [_ Htl].
  pose proof (rmatch_R2 prev' suffix
                (<[1%nat := consumed (mkState None v ∅) (mkState prev' suffix ∅)]> ∅)) as HR2.
  destruct (str_forallb not_line_terminator suffix) eqn:Hsuf.
  - destruct HR2 as [prev'' ->]. eexists prev'', _. cbn [app].
    unfold consumed. cbn [ms_rest].
    rewrite <- Hv, <- Hr2.
    replace (String c1 d1 +:+ String "." (String c2 d2' +:+ suffix))
      with ((String c1 d1 +:+ "." +:+ String c2 d2') +:+ suffix)
      by (rewrite !append_assoc; reflexivity).
    rewrite str_take_append. reflexivity.
  - rewrite HR2. cbn [app]. apply flat_map_nil_forall, Forall_map.
    eapply Forall_impl; [exact Htl|].
    intros [p r k] [Hr _]. cbn [ms_prev ms_rest ms_caps] in *.
    pose proof (rmatch_R2 p r (<[1%nat := consumed (mkState None v ∅) (mkState p r k)]> k)) as H.
    rewrite Hr in H. exact H.
Qed.

Lemma search_unfold (re : regexp) (prev : option ascii) (s : string) :
  search re prev s
  = match rmatch (re_ignoreCase re) (re_multiline re) (re_body re) (mkState prev s ∅) with
    | st' :: _ => Some (result_of re (mkState prev s ∅) st')
    | [] =>
        match s with
        | String c s' => search re (Some c) s'
        | EmptyString => None
        end
    end.
Proof. destruct s; reflexivity. Qed.

(** A pattern anchored at the start (without the [m] flag) matches
    nowhere else. *)
Lemma search_anchored (r : regex) (n : nat) (g i : bool) (s : string) :
  forall c, search (mkRegExp (RSeq RBol r) n g i false) (Some c) s = None.
Proof.
  induction s as [|x s IH]; intros c; rewrite search_unfold; cbn; [reflexivity|apply IH].
Qed.

Lemma String_match_patch (v : string) :
  String_match v (mkRegExp patch_body 2 false false false)
  = match patch_shape v with
    | Some (majmin, suffix) => Some [Some v; Some majmin; Some suffix]
    | None => None
    end.
Proof.
  unfold String_match, RegExp_exec. rewrite search_unfold.
  cbn [re_ignoreCase re_multiline re_body].
  pose proof (rmatch_patch_body v) as H.
  destruct (patch_shape v) as [[majmin suffix]|].
  - destruct H as (prev' & tl & ->).
    unfold result_of, consumed. cbn [ms_rest ms_caps re_groups seq map].
    rewrite str_take_all, lookup_insert_ne, !lookup_insert_eq by lia. reflexivity.
  - rewrite H. destruct v; [reflexivity|apply search_anchored].
Qed.

Lemma RegExp_test_dot_digit (s : string) :
  RegExp_test (mkRegExp test_body 0 false false false) s = starts_dot_digit s.
Proof.
  unfold RegExp_test, RegExp_exec. rewrite search_unfold.
  cbn [re_ignoreCase re_multiline re_body].
  rewrite rmatch_seq.
  change (rmatch false false RBol (mkState None s ∅)) with [mkState None s ∅].
  cbn [flat_map]. rewrite app_nil_r, rmatch_dot_digits.
  destruct s as [|c r]; [reflexivity|].
  cbn [starts_dot_digit]. rewrite (Ascii.eqb_sym c ".").
  destruct (Ascii.eqb "." c).
  - rewrite rmatch_digits. destruct r as [|d r].
    + rewrite search_anchored. reflexivity.
    + cbn [andb]. destruct (isDigit d).
      * destruct (run_states_head isDigit r (Some d) ∅) as (p & tl & -> & _). reflexivity.
      * rewrite search_anchored. reflexivity.
  - rewrite search_anchored. destruct r; reflexivity.
Qed.

(** The [patchOptional] step of the source is the normalization. *)
Lemma patch_version_normalize (v : string) :
  patch_version (VString v) = Ok (VString (patch_normalize v)).
Proof.
  unfold patch_version, patch_normalize.
  rewrite RegExp_new_patch. cbn [mbind res_bind]. rewrite String_match_patch.
  destruct (patch_shape v) as [[majmin suffix]|]; [|reflexivity].
  rewrite RegExp_new_test. cbn [mbind res_bind].
  change (group_text [Some v; Some majmin; Some suffix] 2) with suffix.
  change (group_text [Some v; Some majmin; Some suffix] 1) with majmin.
  rewrite RegExp_test_dot_digit. destruct (starts_dot_digit suffix); reflexivity.
Qed.

Lemma str_span_exact (p : ascii -> bool) (d r : string) :
  str_forallb p d = true ->
  match r with String c _ => p c = false | EmptyString => True end ->
  str_span p (d +:+ r) = (d, r).
Proof.
  intros Hd Hr. induction d as [|x d IH].
  - destruct r as [|c r]; [reflexivity|]. cbn [String.append str_span].
    change (EmptyString +:+ String c r) with (String c r). cbn [str_span].
    rewrite Hr. reflexivity.
  - cbn [str_forallb] in Hd. apply andb_prop in Hd as [Hx Hd].
    rewrite append_cons. cbn [str_span]. rewrite Hx, (IH Hd). reflexivity.
Qed.


End PatchFacts.

(** ** Facts: checkVersion *)

(** The version that is compared and looked up among the banned ones. *)
Definition normalized (library : descriptor) (v : string) : string :=
  if truthy_flag (patchOptional library) then patch_normalize v else v.

Definition banned_hit (library : descriptor) (v : string) : bool :=
  match bannedVersions library with
  | Some banned => array_includes banned v
  | None => false
  end.

(** On two strings the comparison returns: it does not throw. *)
Lemma compareVersions_strings (a b : string) :
  exists cmp, compareVersions (VString a) (VString b) = Ok cmp.
Proof.
  unfold compareVersions. cbn [typeof_is_string negb orb value_split mbind res_bind].
  destruct (_ || _); [eauto|]. destruct (compare_loop _ _ _ _); [eauto|].
  destruct (negb _); eauto.
Qed.




(** C3, as it stands, fails on parts too long for a Number: a
    well-formed version of one part of 22 digits does not compare equal
    to itself, since its Number prints with an exponent and
    [isValidPart] refuses it. *)
Lemma compareVersions_long_part_incomparable :
  ~ (forall a b : string, well_formed a -> well_formed b ->
       compareVersions (VString a) (VString b)
       = Ok (of_Z (compare_parts (parts a) (parts b)))).
Proof.
  intros H.
  specialize (H "1000000000000000000000" "1000000000000000000000").
  assert (W : well_formed "1000000000000000000000").
  { repeat constructor; discriminate. }
  specialize (H W W). vm_compute in H. discriminate H.
Qed.

(** Beyond [2^53] distinct integers can round to one Number, and the
    parts then compare equal. *)
Example compareVersions_rounds_parts :
  compareVersions (VString "9007199254740993") (VString "9007199254740992") = Ok (of_Z 0).
Proof. vm_compute. reflexivity. Qed.

(** C3 (amended): for versions whose parts are non-empty runs of digits
    writing integers of at most [2^53], [compareVersions] compares the
    parts positionally as integers: [1] at the first index where [b] has
    no part, the order of the first parts that differ, [-1] when all
    parts of [a] equal those of [b] and [b] has more, [0] when the parts
    are the same; so a version compares equal to itself. *)
Theorem compareVersions_positional (a b : string) :
  well_formed a -> well_formed b -> representable a -> representable b ->
  compareVersions (VString a) (VString b) = Ok (of_Z (compare_parts (parts a) (parts b)))
  /\ compareVersions (VString a) (VString a) = Ok (of_Z 0).
Proof.
  intros Wa Wb Ra Rb. split.
  - apply compareVersions_parts; assumption.
  - rewrite (compareVersions_parts a a Wa Wa Ra Ra), compare_parts_refl. reflexivity.
Qed.

(** The instances the specification names: ["1.2"] against ["1.2.0"]
    is [-1], and ["1.2.0"] against ["1.2"] is [1]. *)
Lemma compareVersions_positional_witness :
  compareVersions (VString "1.2") (VString "1.2.0") = Ok (of_Z (-1))
  /\ compareVersions (VString "1.2.0") (VString "1.2") = Ok (of_Z 1)
  /\ compareVersions (VString "1.2") (VString "1.2") = Ok (of_Z 0).
Proof.
  assert (W1 : well_formed "1.2") by (repeat constructor; discriminate).
  assert (W2 : well_formed "1.2.0") by (repeat constructor; discriminate).
  assert (R1 : representable "1.2") by (repeat constructor; discriminate).
  assert (R2 : representable "1.2.0") by (repeat constructor; discriminate).
  split; [|split].
  - exact (proj1 (compareVersions_positional "1.2" "1.2.0" W1 W2 R1 R2)).
  - exact (proj1 (compareVersions_positional "1.2.0" "1.2" W2 W1 R2 R1)).
  - exact (proj2 (compareVersions_positional "1.2" "1.2.0" W1 W2 R1 R2)).
Defined.

(** C4: [compareVersions] tests the type of its first argument twice
    and never that of its second, and it converts the parts with
    [Number] before it validates them. A second argument that is not a
    string makes [split] throw instead of giving NaN; and a part such as
    the empty string, or ["1e1"], which does not match [^\d+$], converts
    to a non-negative integer and is accepted. *)
Example compareVersions_second_argument_unchecked :
  compareVersions (VString "1.0") (VNumber (of_Z 1)) = Throw TypeError
  /\ compareVersions (VString "1.0") VUndefined = Throw TypeError
  /\ compareVersions (VNumber (of_Z 1)) (VString "1.0") = Ok NaN
  /\ compareVersions (VString "1.") (VString "1.0") = Ok (of_Z 0)
  /\ compareVersions (VString "1e1") (VString "10") = Ok (of_Z 0).
Proof. repeat split; vm_compute; reflexivity. Qed.

(** ** Facts: checkScript and check *)

(** [pat] occurs in [s]. *)
Definition occurs (pat s : string) : Prop :=
  exists pre post, s = pre +:+ pat +:+ post.

Section ScanFacts.

Lemma str_prefixb_spec (pat s : string) :
  str_prefixb pat s = true -> exists post, s = pat +:+ post.
Proof.
  revert s. induction pat as [|a pat IH]; intros s H.
  - exists s. reflexivity.
  - destruct s as [|b s]; [discriminate H|]. cbn [str_prefixb] in H.
    apply andb_prop in H as [Hab Hp]. apply Ascii.eqb_eq in Hab as ->.
    destruct (IH s Hp) as [post ->]. exists post. reflexivity.
Qed.

(** The offset of a text that does not occur is [-1]. *)
Lemma indexOf_from_absent (pat s : string) (i : Z) :
  ~ occurs pat s -> indexOf_from pat s i = -1.
Proof.
  revert i. induction s as [|c s IH]; intros i Hno.
  - cbn [indexOf_from]. destruct (str_prefixb pat "") eqn:Hp; [|reflexivity].
    destruct (str_prefixb_spec _ _ Hp) as [post Hpost].
    exfalso. apply Hno. exists EmptyString, post. exact Hpost.
  - cbn [indexOf_from]. destruct (str_prefixb pat (String c s)) eqn:Hp.
    + destruct (str_prefixb_spec _ _ Hp) as [post Hpost].
      exfalso. apply Hno. exists EmptyString, post. exact Hpost.
    + apply IH. intros (pre & post & ->). apply Hno.
      exists (String c pre), post. reflexivity.
Qed.

Lemma indexOf_absent (s pat : string) : ~ occurs pat s -> indexOf s pat = -1.
Proof. apply indexOf_from_absent. Qed.

(** The prefix before offset [-1] is empty, and the empty text is on
    line 1. *)
Lemma line_of_absent (text : string) : line_of text (-1) = 1%nat.
Proof. reflexivity. Qed.

(** What the scan of one script leaves: the status it started with, or
    a violation annotated with the address and the line of the script. *)
Lemma scan_libraries_status (libs : list library) (js : script) (site : website)
    (st0 st : status) :
  scan_libraries libs js site st0 = Ok st ->
  st = st0
  \/ exists r, needsUpdate r = true
               /\ st = mkStatus false
                         (Some (mkVinfo (vname r) (needsUpdate r) (vminVersion r) (vversion r)
                                  (bannedVersion r) (Some (jsUrl js))
                                  (Some (line_of (wcontent site)
                                           (indexOf (wcontent site) (jsUrl js)))))).
Proof.
  induction libs as [|lib libs IH]; cbn [scan_libraries]; intros H.
  - left. congruence.
  - destruct (truthy_flag (skip (desc lib))); [auto|].
    destruct (negb (String.eqb (jsUrl js) "embed")); [|auto].
    destruct (lib_check lib) as [f|]; [|discriminate H]. cbn [mbind res_bind] in H.
    destruct (f (desc lib) (default "" (content js))) as [[r|]|e];
      cbn [mbind res_bind] in H; [| auto | discriminate H].
    destruct (needsUpdate r) eqn:Hr; [|auto].
    right. exists r. split; [exact Hr|]. congruence.
Qed.

Lemma indexOf_from_occurs (pat s : string) (i : Z) :
  0 <= i -> occurs pat s -> 0 <= indexOf_from pat s i.
Proof.
  intros Hi (pre & post & ->). revert i Hi.
  induction pre as [|c pre IH]; intros i Hi.
  - change (EmptyString +:+ pat +:+ post) with (pat +:+ post).
    assert (Hp : str_prefixb pat (pat +:+ post) = true).
    { clear. induction pat as [|a pat IH]; [reflexivity|].
      rewrite append_cons. cbn [str_prefixb]. rewrite Ascii.eqb_refl. exact IH. }
    destruct (pat +:+ post); cbn [indexOf_from]; rewrite Hp; exact Hi.
  - rewrite append_cons. cbn [indexOf_from].
    destruct (str_prefixb pat _); [exact Hi|]. apply IH. lia.
Qed.

(** Offset [-1] is given only for a text that does not occur. *)
Lemma indexOf_absent_inv (s pat : string) : indexOf s pat = -1 -> ~ occurs pat s.
Proof.
  intros H Hocc. pose proof (indexOf_from_occurs pat s 0 ltac:(lia) Hocc) as Hge.
  unfold indexOf in H. lia.
Qed.

End ScanFacts.

(** C10: when the address of a script does not occur in the markup of
    the page, [indexOf] gives [-1], the prefix before that offset is
    empty, and a violation reported for the script carries line 1 (and
    the address of the script). *)
Theorem checkScript_line_of_absent_url (libs : list library) (js : script) (site : website)
    (st : status) :
  ~ occurs (jsUrl js) (wcontent site) ->
  checkScript libs js site = Ok st ->
  passed st = false ->
  indexOf (wcontent site) (jsUrl js) = -1
  /\ substr0 (wcontent site) (-1) = EmptyString
  /\ exists r, data st = Some r /\ lineNumber r = Some 1%nat /\ url r = Some (jsUrl js).
Proof.
  intros Hno Hscan Hfail. pose proof (indexOf_absent _ _ Hno) as Hidx.
  split; [exact Hidx|]. split; [reflexivity|].
  destruct (scan_libraries_status _ _ _ _ _ Hscan) as [->|(r & _ & ->)];
    [discriminate Hfail|].
  eexists. split; [reflexivity|]. cbn [lineNumber url]. rewrite Hidx. split; reflexivity.
Qed.

(** A page whose markup does not hold the address of its script, which
    carries an outdated SWFObject: the violation is on line 1. *)
Lemma checkScript_line_of_absent_url_witness :
  indexOf "<html></html>" "swf.js" = -1
  /\ substr0 "<html></html>" (-1) = EmptyString
  /\ exists r,
       data (mkStatus false
               (Some (mkVinfo (Some "SWFObject") true "2.1" (VString "1.5") None
                        (Some "swf.js") (Some 1%nat)))) = Some r
       /\ lineNumber r = Some 1%nat /\ url r = Some "swf.js".
Proof.
  apply (checkScript_line_of_absent_url default_libraries
           (mkScript "swf.js" (Some "* SWFObject v1.5"))
           (mkWebsite "http://example.org/" "http://example.org/" "<html></html>"
              [mkScript "swf.js" (Some "* SWFObject v1.5")])).
  - apply indexOf_absent_inv. vm_compute. reflexivity.
  - vm_compute. reflexivity.
  - reflexivity.
Defined.

(** ** Facts: what check reports *)

Definition script_text (js : script) : string := default "" (content js).

(** The violation a descriptor reports for a script: none for a
    descriptor flagged [skip] or an embedded script, else the result of
    its [check] when that asks for an update. *)
Definition report (lib : library) (js : script) : option vinfo :=
  if truthy_flag (skip (desc lib)) || String.eqb (jsUrl js) "embed" then None
  else match lib_check lib with
       | Some f =>
           match f (desc lib) (script_text js) with
           | Ok (Some r) => if needsUpdate r then Some r else None
           | _ => None
           end
       | None => None
       end.

(** The [check] of the descriptor returns on the script (or is not
    called at all). *)
Definition returns (lib : library) (js : script) : bool :=
  truthy_flag (skip (desc lib)) || String.eqb (jsUrl js) "embed"
  || match lib_check lib with
     | Some f => match f (desc lib) (script_text js) with Ok _ => true | Throw _ => false end
     | None => false
     end.

Definition annotate (site : website) (js : script) (r : vinfo) : vinfo :=
  mkVinfo (vname r) (needsUpdate r) (vminVersion r) (vversion r) (bannedVersion r)
    (Some (jsUrl js))
    (Some (line_of (wcontent site) (indexOf (wcontent site) (jsUrl js)))).

(** The first violation among the registry descriptors, in registry
    order, for one script. *)
Definition first_violation (libs : list library) (site : website) (js : script)
    : option vinfo :=
  annotate site js <$> head (omap (fun lib => report lib js) libs).

(** The violations of a page: the first violation of each script that
    has one, in script order. *)
Definition violations (libs : list library) (site : website) : list vinfo :=
  omap (first_violation libs site) (js site).

Section CheckFacts.

Lemma first_violation_cons (lib : library) (libs : list library) (site : website)
    (js : script) :
  first_violation (lib :: libs) site js
  = match report lib js with
    | Some r => Some (annotate site js r)
    | None => first_violation libs site js
    end.
Proof.
  unfold first_violation. cbn [omap list_omap]. destruct (report lib js); reflexivity.
Qed.

End CheckFacts.

(** A page with an outdated Prototype in its first script and an
    outdated SWFObject in its second, and what [check] resolves with on
    it under the built-in registry. *)
Definition two_outdated_scripts : website :=
  mkWebsite "http://example.org/" "http://example.org/"
    "<script src=p.js></script><script src=swf.js></script>"
    [ mkScript "p.js" (Some "Prototype JavaScript framework, version 1.5.0");
      mkScript "swf.js" (Some "* SWFObject v1.5") ].

Definition two_violations : test :=
  mkTest "jslibs" "http://example.org/" false
    [ Some (mkVinfo (Some "Prototype") true "1.6.1" (VString "1.5.0") None
              (Some "p.js") (Some 1%nat));
      Some (mkVinfo (Some "SWFObject") true "2.1" (VString "1.5") None
              (Some "swf.js") (Some 1%nat)) ].

Example check_two_outdated_scripts :
  check default_libraries two_outdated_scripts = Ok two_violations.
Proof. vm_compute. reflexivity. Qed.

(** C1, as it stands, fails on a page with two scripts that each hold
    an outdated library: both violations are reported, not the first
    alone. *)
Lemma check_reports_every_violating_script :
  ~ (forall (site : website) (t : test),
       check default_libraries site = Ok t ->
       tpassed t = false -> exists r, tdata t = [Some r]).
Proof.
  intros H.
  destruct (H two_outdated_scripts two_violations check_two_outdated_scripts eq_refl)
    as [r Hr].
  discriminate Hr.
Qed.

(** The descriptors [checkScript] consults for a script: the registry
    in order, up to and including the first descriptor that reports a
    violation; the loop breaks there, and the later ones are never
    called. *)
Fixpoint consulted (libs : list library) (js : script) : list library :=
  match libs with
  | [] => []
  | lib :: rest =>
      match report lib js with
      | Some _ => [lib]
      | None => lib :: consulted rest js
      end
  end.

Section BreakFacts.

(** Whenever the scan of one script returns, it returns the first
    violation in registry order, whatever the descriptors after it would
    have done. *)
Lemma scan_libraries_returned (libs : list library) (site : website) (js : script)
    (st st' : status) :
  scan_libraries libs js site st = Ok st' ->
  st' = match first_violation libs site js with
        | Some v => mkStatus false (Some v)
        | None => st
        end.
Proof.
  induction libs as [|lib libs IH]; cbn [scan_libraries]; intros H.
  - cbn. congruence.
  - rewrite first_violation_cons. unfold report, script_text.
    destruct (truthy_flag (skip (desc lib))); [exact (IH H)|].
    destruct (String.eqb (jsUrl js) "embed"); [exact (IH H)|].
    cbn [orb negb] in *.
    destruct (lib_check lib) as [f|]; [|discriminate H]. cbn [mbind res_bind] in H.
    destruct (f (desc lib) (default "" (content js))) as [[r|]|e];
      [| exact (IH H) | discriminate H].
    cbn [mbind res_bind] in H. destruct (needsUpdate r) eqn:Hn; [|exact (IH H)].
    cbv zeta in H. injection H as <-. unfold annotate. rewrite ?Hn. reflexivity.
Qed.

Lemma scan_scripts_returned (libs : list library) (site : website) (scripts : list script) :
  forall t t' : test,
  scan_scripts libs scripts site t = Ok t' ->
  t' = mkTest (testName t) (turl t)
         (tpassed t && match omap (first_violation libs site) scripts with
                       | [] => true
                       | _ :: _ => false
                       end)
         (tdata t ++ map Some (omap (first_violation libs site) scripts)).
Proof.
  induction scripts as [|js scripts IH]; intros t t' H.
  - cbn in H. injection H as <-. cbn. rewrite andb_true_r, app_nil_r.
    destruct t; reflexivity.
  - cbn [scan_scripts omap list_omap] in *. unfold checkScript in H.
    destruct (scan_libraries libs js site (mkStatus true None)) as [st|e] eqn:E;
      [|discriminate H].
    apply scan_libraries_returned in E. subst st. cbn [mbind res_bind] in H.
    destruct (first_violation libs site js) as [v|]; cbn [passed negb data] in H.
    + apply IH in H. subst t'. cbn [testName turl tpassed tdata map andb].
      rewrite andb_false_r, <- app_assoc. reflexivity.
    + apply IH, H.
Qed.

(** The scan of one script returns as soon as the descriptors it
    consults return. *)
Lemma scan_libraries_consulted (libs : list library) (site : website) (js : script)
    (st : status) :
  Forall (fun lib => returns lib js = true) (consulted libs js) ->
  scan_libraries libs js site st
  = Ok (match first_violation libs site js with
        | Some v => mkStatus false (Some v)
        | None => st
        end).
Proof.
  induction libs as [|lib libs IH]; [reflexivity|].
  cbn [consulted]. rewrite first_violation_cons. cbn [scan_libraries].
  destruct (report lib js) as [r|] eqn:Hr.
  - intros _. unfold report, script_text in Hr.
    destruct (truthy_flag (skip (desc lib))); [discriminate Hr|].
    destruct (String.eqb (jsUrl js) "embed"); [discriminate Hr|].
    cbn [orb negb] in *.
    destruct (lib_check lib) as [f|]; [|discriminate Hr]. cbn [mbind res_bind].
    destruct (f (desc lib) (default "" (content js))) as [[r'|]|e]; try discriminate Hr.
    cbn [mbind res_bind]. destruct (needsUpdate r') eqn:Hn; [|discriminate Hr].
    injection Hr as <-. unfold annotate. rewrite Hn. reflexivity.
  - intros H. inversion H as [|? ? H1 H2]; subst. specialize (IH H2).
    unfold report, returns, script_text in *.
    destruct (truthy_flag (skip (desc lib))); [exact IH|].
    destruct (String.eqb (jsUrl js) "embed"); [exact IH|].
    cbn [orb negb] in *.
    destruct (lib_check lib) as [f|]; [|discriminate H1]. cbn [mbind res_bind].
    destruct (f (desc lib) (default "" (content js))) as [[r'|]|e];
      [| exact IH | discriminate H1].
    cbn [mbind res_bind]. destruct (needsUpdate r'); [discriminate Hr | exact IH].
Qed.

Lemma scan_scripts_consulted (libs : list library) (site : website) (scripts : list script) :
  Forall (fun js => Forall (fun lib => returns lib js = true) (consulted libs js)) scripts ->
  forall t : test,
  scan_scripts libs scripts site t
  = Ok (mkTest (testName t) (turl t)
          (tpassed t && match omap (first_violation libs site) scripts with
                        | [] => true
                        | _ :: _ => false
                        end)
          (tdata t ++ map Some (omap (first_violation libs site) scripts))).
Proof.
  induction 1 as [|js scripts Hjs _ IH]; intros t.
  - cbn. rewrite andb_true_r, app_nil_r. destruct t; reflexivity.
  - cbn [scan_scripts omap list_omap]. unfold checkScript.
    rewrite (scan_libraries_consulted libs site js _ Hjs). cbn [mbind res_bind].
    destruct (first_violation libs site js) as [v|]; cbn [passed negb data].
    + rewrite IH. cbn [testName turl tpassed tdata map andb].
      rewrite andb_false_r, <- app_assoc. reflexivity.
    + apply IH.
Qed.

(** The scan stops at the first descriptor that reports: what comes
    after it in the registry plays no part. *)
Lemma scan_libraries_break (before after : list library) (lib : library) (site : website)
    (js : script) (r : vinfo) (st : status) :
  Forall (fun l => returns l js = true /\ report l js = None) before ->
  report lib js = Some r ->
  scan_libraries (before ++ lib :: after) js site st
  = Ok (mkStatus false (Some (annotate site js r))).
Proof.
  intros Hb Hr. rewrite scan_libraries_consulted.
  - replace (first_violation (before ++ lib :: after) site js)
      with (Some (annotate site js r)); [reflexivity|].
    induction Hb as [|l before [_ Hl] _ IH]; cbn [app]; rewrite first_violation_cons.
    + rewrite Hr. reflexivity.
    + rewrite Hl. exact IH.
  - induction Hb as [|l before [Hl1 Hl2] _ IH]; cbn [app consulted].
    + rewrite Hr. constructor; [|constructor].
      unfold report, returns in *.
      destruct (truthy_flag (skip (desc lib)) || String.eqb (jsUrl js) "embed");
        [discriminate Hr|]. cbn [orb].
      destruct (lib_check lib) as [f|]; [|discriminate Hr].
      destruct (f (desc lib) (script_text js)); [reflexivity|discriminate Hr].
    + rewrite Hl2. constructor; assumption.
Qed.

Lemma consulted_all (libs : list library) (scripts : list script) :
  forallb (fun js => forallb (fun lib => returns lib js) (consulted libs js)) scripts = true ->
  Forall (fun js => Forall (fun lib => returns lib js = true) (consulted libs js)) scripts.
Proof.
  intros H. apply Forall_forall. intros js Hjs. apply Forall_forall. intros lib Hlib.
  rewrite forallb_forall in H. specialize (H js ltac:(apply list_elem_of_In; exact Hjs)).
  rewrite forallb_forall in H. apply H, list_elem_of_In, Hlib.
Qed.

End BreakFacts.

(** C1 (amended): [check] scans every script in list order. For each
    script it consults the registry descriptors in registry order
    (descriptors flagged [skip] and embedded scripts report nothing) and
    stops scanning that script at the first violating match: the
    descriptors after it are not called, whatever they would do.
    Whenever [check] resolves, it resolves with [data] the list of these
    per-script first violations in script order and [passed=false]
    exactly when that list is not empty, so with [passed=true] and
    [data=[]] when no script holds an outdated or banned library; and it
    does resolve as soon as the [check] functions of the descriptors
    consulted return. *)
Theorem check_reports_first_violation_per_script (libs : list library) (site : website) :
  let expected :=
    mkTest "jslibs" (url_href site)
      (match violations libs site with [] => true | _ :: _ => false end)
      (map Some (violations libs site)) in
  (forall t : test, check libs site = Ok t -> t = expected)
  /\ (Forall (fun js => Forall (fun lib => returns lib js = true) (consulted libs js))
        (js site) ->
      check libs site = Ok expected)
  /\ (forall (js : script) (before after : list library) (lib : library) (r : vinfo),
        Forall (fun l => returns l js = true /\ report l js = None) before ->
        report lib js = Some r ->
        checkScript (before ++ lib :: after) js site
        = Ok (mkStatus false (Some (annotate site js r))))
  /\ (violations libs site = [] ->
      forall t : test, check libs site = Ok t ->
      t = mkTest "jslibs" (url_href site) true []).
Proof.
  cbv zeta. unfold check, violations. repeat split.
  - intros t H. apply scan_scripts_returned in H. exact H.
  - intros Hret. rewrite (scan_scripts_consulted libs site (js site) Hret). reflexivity.
  - intros js0 before after lib r Hb Hr. apply scan_libraries_break; assumption.
  - intros Hnil t H. apply scan_scripts_returned in H. rewrite Hnil in H. exact H.
Qed.

(** A page whose first script holds an outdated Prototype and, further
    on, a jQuery header on which the jQuery [check] throws: the scan of
    that script stops at Prototype, jQuery is never consulted, and the
    outdated SWFObject of the second script is reported as well. *)
Definition break_page : website :=
  mkWebsite "http://example.org/" "http://example.org/"
    "<script src=p.js></script><script src=swf.js></script>"
    [ mkScript "p.js"
        (Some "Prototype JavaScript framework, version 1.5.0 jQuery v1(2.3 ");
      mkScript "swf.js" (Some "* SWFObject v1.5") ].

Lemma check_reports_first_violation_per_script_witness :
  existsb (fun lib => negb (returns lib (mkScript "p.js"
            (Some "Prototype JavaScript framework, version 1.5.0 jQuery v1(2.3 "))))
    default_libraries = true
  /\ check default_libraries break_page = Ok two_violations.
Proof.
  split.
  - vm_compute. reflexivity.
  - assert (Hret : forallb (fun js => forallb (fun lib => returns lib js)
                                        (consulted default_libraries js))
                     (js break_page) = true) by (vm_compute; reflexivity).
    pose proof (proj1 (proj2 (check_reports_first_violation_per_script default_libraries
                         break_page)) (consulted_all _ _ Hret)) as E.
    rewrite E. vm_compute. reflexivity.
Defined.

(** ** Facts: the registry in the store *)

(** Every location of the array holds an object. *)
Definition allocated (h : heap) (ls : list loc) : Prop :=
  Forall (fun l => is_Some (h !! l)) ls.

(** An operation on the module from outside: the caller creates
    objects (the entries of an override list, say), then calls [merge]
    with an array of objects of its choice, or without argument. *)
Definition operation : Type := list library * option (list loc).

Definition run_operation (st : state) (op : operation) : state :=
  let (h, _) := alloc_all (store st) op.1 in
  (merge (mkModule h (libraries st) (original_libraries st)) op.2).1.

(** The name of a descriptor, when it has a truthy one. *)
Definition truthy_name (o : library) : option string :=
  match name (desc o) with
  | Some nm => if is_empty nm then None else Some nm
  | None => None
  end.

(** The names [libmap] finds on [Object.prototype]. *)
Definition inherited_key (nm : string) : bool :=
  String.eqb nm "__proto__" || existsb (String.eqb nm) Object_prototype_methods.

Definition has_name (nm : string) (o : library) : bool :=
  match truthy_name o with
  | Some n => String.eqb n nm
  | None => false
  end.

(** The merge as the (amended) specification words it, on the entries
    of the new list: an override without a name is passed over; an
    override whose name no entry has is appended, with the generic
    fallback as its extraction rule; any other override is laid over
    the entry of its name, property by property. *)
Definition apply_override (entries : list library) (o : library) : list library :=
  match truthy_name o with
  | None => entries
  | Some nm =>
      if existsb (has_name nm) entries
      then map (fun e => if has_name nm e then overlay o e else e) entries
      else entries ++ [mkLibrary (desc o) (Some defaultCheck)]
  end.

Definition merge_spec (defaults overrides : list library) : list library :=
  foldl apply_override defaults overrides.

(** No two entries share a name. *)
Definition unique_names (E : list library) : Prop :=
  forall i j o1 o2 nm,
    E !! i = Some o1 -> E !! j = Some o2 ->
    truthy_name o1 = Some nm -> truthy_name o2 = Some nm -> i = j.

(** The array holds exactly these objects. *)
Definition holds (h : heap) (ls : list loc) (os : list library) : Prop :=
  Forall2 (fun l o => h !! l = Some o) ls os.

(** [libmap] sends a name to the entry that has it. *)
Definition indexes (lm : gmap string loc) (nl : list loc) (E : list library) : Prop :=
  forall nm l,
    lm !! nm = Some l
    <-> exists i o, nl !! i = Some l /\ E !! i = Some o /\ truthy_name o = Some nm.

(** The merge as the (amended) specification words it, on the store
    itself. The entry of the new list that has a name, when there is
    one (the first, should there be several). *)
Definition entry_named (h : heap) (out : list loc) (nm : string) : option loc :=
  List.find (fun l => match h !! l with
                      | Some o => has_name nm o
                      | None => false
                      end) out.

(** One override, read as it is when its turn comes: without a name it
    is passed over; when an entry of the new list has its name, the
    properties the override has are written onto that entry; otherwise
    the override object itself gets the generic fallback as its
    extraction rule and is appended. *)
Definition override_step (st : heap * list loc) (c : loc) : heap * list loc :=
  match st.1 !! c with
  | None => st
  | Some config =>
      match truthy_name config with
      | None => st
      | Some nm =>
          match entry_named st.1 st.2 nm with
          | Some target =>
              match st.1 !! target with
              | Some t => (<[target := overlay config t]> st.1, st.2)
              | None => st
              end
          | None =>
              (<[c := mkLibrary (desc config) (Some defaultCheck)]> st.1, st.2 ++ [c])
          end
      end
  end.

(** The overrides applied in list order to the copies of the
    defaults. *)
Definition merge_registry (h : heap) (copies overrides : list loc) : heap * list loc :=
  foldl override_step (h, copies) overrides.

(** An object not named [__proto__], and a store of such objects. *)
Definition plain (o : library) : Prop :=
  forall nm, truthy_name o = Some nm -> nm <> "__proto__".

Definition all_plain (h : heap) : Prop :=
  forall l o, h !! l = Some o -> plain o.

(** An override the merge can take: an object whose name, if it has
    one, is not a member of [Object.prototype]. *)
Definition override_ready (h : heap) (c : loc) : Prop :=
  exists config,
    h !! c = Some config
    /\ forall nm, truthy_name config = Some nm -> inherited_key nm = false.

Section StoreFacts.

Lemma holds_objects (h : heap) (ls : list loc) (os : list library) :
  holds h ls os -> objects h ls = os.
Proof.
  unfold objects. induction 1 as [|l o ls os Hl _ IH]; [reflexivity|].
  cbn [omap list_omap]. rewrite Hl, IH. reflexivity.
Qed.

Lemma allocated_holds (h : heap) (ls : list loc) :
  allocated h ls -> holds h ls (objects h ls).
Proof.
  unfold objects. induction 1 as [|l ls [o Hl] _ IH]; [constructor|].
  cbn [omap list_omap]. rewrite Hl. constructor; assumption.
Qed.

Lemma holds_allocated (h : heap) (ls : list loc) (os : list library) :
  holds h ls os -> allocated h ls.
Proof. induction 1; constructor; eauto. Qed.

Lemma holds_keep (h h' : heap) (ls : list loc) (os : list library) :
  (forall l, l ∈ ls -> h' !! l = h !! l) -> holds h ls os -> holds h' ls os.
Proof.
  intros Hsame H. induction H as [|l o ls os Hl _ IH]; [constructor|].
  constructor.
  - rewrite Hsame; [exact Hl|apply list_elem_of_here].
  - apply IH. intros x Hx. apply Hsame, list_elem_of_further, Hx.
Qed.

Lemma truthy_name_string (o : library) :
  truthy_string (name (desc o)) = match truthy_name o with Some _ => true | None => false end.
Proof.
  unfold truthy_string, truthy_name. destruct (name (desc o)) as [nm|]; [|reflexivity].
  destruct (is_empty nm); reflexivity.
Qed.

Lemma truthy_name_default (o : library) (nm : string) :
  truthy_name o = Some nm -> default "" (name (desc o)) = nm /\ name (desc o) = Some nm.
Proof.
  unfold truthy_name. destruct (name (desc o)) as [n|]; [|discriminate].
  destruct (is_empty n); [discriminate|]. intros [= ->]. split; reflexivity.
Qed.


Lemma fresh_unallocated (h : heap) : h !! fresh (dom h) = None.
Proof. apply not_elem_of_dom, is_fresh. Qed.

(** The first loop writes only to new objects; the map it builds sends
    the name of every default to a new object. *)
Lemma copy_defaults_protects (ds : list loc) :
  forall (h : heap) (nl : list loc) (lm : gmap string loc) (h' : heap)
         (r : res (list loc * gmap string loc)),
  copy_defaults h ds nl lm = (h', r) ->
  (forall l, is_Some (h !! l) -> h' !! l = h !! l)
  /\ forall nl' lm', r = Ok (nl', lm') ->
       (forall nm l, lm' !! nm = Some l -> lm !! nm = Some l \/ h !! l = None)
       /\ (forall nm, is_Some (lm !! nm) -> is_Some (lm' !! nm))
       /\ (forall d o, d ∈ ds -> h !! d = Some o ->
             truthy_string (name (desc o)) = true ->
             is_Some (lm' !! default "" (name (desc o)))).
Proof.
  induction ds as [|d ds IH]; intros h nl lm h' r Hrun; cbn [copy_defaults] in Hrun.
  - injection Hrun as <- <-. split; [reflexivity|].
    intros nl' lm' [= <- <-]. repeat split; auto.
    intros d o Hd. apply elem_of_nil in Hd as [].
  - destruct (h !! d) as [library|] eqn:Hd.
    2:{ injection Hrun as <- <-. split; [reflexivity|]. intros ? ? [=]. }
    pose proof (fresh_unallocated h) as Hfresh.
    set (l := fresh (dom h)) in *. set (h1 := <[l := library]> h) in *.
    assert (Hh1 : forall l0, is_Some (h !! l0) -> h1 !! l0 = h !! l0).
    { intros l0 [x Hx]. unfold h1. apply lookup_insert_ne. congruence. }
    assert (Hstep : forall lm1,
              copy_defaults h1 ds (nl ++ [l]) lm1 = (h', r) ->
              (forall nm v, lm1 !! nm = Some v -> lm !! nm = Some v \/ h !! v = None) ->
              (forall nm, is_Some (lm !! nm) -> is_Some (lm1 !! nm)) ->
              (truthy_string (name (desc library)) = true ->
               is_Some (lm1 !! default "" (name (desc library)))) ->
              (forall l, is_Some (h !! l) -> h' !! l = h !! l)
              /\ forall nl' lm', r = Ok (nl', lm') ->
                   (forall nm l, lm' !! nm = Some l -> lm !! nm = Some l \/ h !! l = None)
                   /\ (forall nm, is_Some (lm !! nm) -> is_Some (lm' !! nm))
                   /\ (forall d0 o, d0 ∈ d :: ds -> h !! d0 = Some o ->
                         truthy_string (name (desc o)) = true ->
                         is_Some (lm' !! default "" (name (desc o))))).
    { intros lm1 Hrec Hval Hkey Hname.
      destruct (IH _ _ _ _ _ Hrec) as [Hkeep Hok]. split.
      - intros l0 Hl0. rewrite Hkeep, Hh1; [reflexivity|assumption|].
        rewrite Hh1; assumption.
      - intros nl' lm' ->. destruct (Hok nl' lm' eq_refl) as (Hv & Hk & Hd').
        repeat split.
        + intros nm v Hlook. destruct (Hv nm v Hlook) as [H1|H1]; [auto|].
          right. unfold h1 in H1. apply lookup_insert_None in H1. tauto.
        + auto.
        + intros d0 o [->|Hin]%elem_of_cons Ho Htr.
          * rewrite Hd in Ho. injection Ho as <-. auto.
          * apply (Hd' d0 o); [assumption| |assumption]. rewrite Hh1; eauto. }
    destruct (name (desc library)) as [nm|] eqn:Hnm; cbn [truthy_string default] in *.
    + destruct (is_empty nm) eqn:Hemp.
      * apply (Hstep lm Hrun); auto. discriminate.
      * destruct (String.eqb nm "__proto__").
        { injection Hrun as <- <-. split; [exact Hh1|]. intros ? ? [=]. }
        apply (Hstep _ Hrun).
        -- intros k v Hlook. apply lookup_insert_Some in Hlook as [[_ <-]|[_ Hlook]]; auto.
        -- intros k [v Hv]. destruct (decide (nm = k)) as [->|Hne].
           ++ rewrite lookup_insert_eq. eauto.
           ++ rewrite lookup_insert_ne by assumption. eauto.
        -- intros _. rewrite lookup_insert_eq. eauto.
    + apply (Hstep lm Hrun); auto. discriminate.
Qed.

Lemma copy_defaults_step (h : heap) (d : loc) (ds nl : list loc) (lm : gmap string loc)
    (o : library) :
  h !! d = Some o ->
  (forall nm, truthy_name o = Some nm -> nm <> "__proto__") ->
  copy_defaults h (d :: ds) nl lm
  = copy_defaults (<[fresh (dom h) := o]> h) ds (nl ++ [fresh (dom h)])
      (match truthy_name o with
       | Some nm => <[nm := fresh (dom h)]> lm
       | None => lm
       end).
Proof.
  intros Hd Hproto. cbn [copy_defaults]. rewrite Hd. unfold truthy_name in *.
  destruct (name (desc o)) as [nm|]; [|reflexivity].
  destruct (is_empty nm); [reflexivity|].
  destruct (String.eqb_spec nm "__proto__") as [->|]; [|reflexivity].
  exfalso. apply (Hproto "__proto__"); reflexivity.
Qed.

(** The first loop, on defaults with distinct names: the new list holds
    a new copy of each default, and the map indexes the copies. *)
Lemma copy_defaults_spec (ds : list loc) :
  forall (h : heap) (nl : list loc) (lm : gmap string loc) (E Ed : list library),
  holds h nl E -> holds h ds Ed -> NoDup nl ->
  unique_names (E ++ Ed) ->
  Forall (fun o => forall nm, truthy_name o = Some nm -> nm <> "__proto__") Ed ->
  indexes lm nl E ->
  exists h1 nl1 lm1,
    copy_defaults h ds nl lm = (h1, Ok (nl ++ nl1, lm1))
    /\ (forall l, is_Some (h !! l) -> h1 !! l = h !! l)
    /\ Forall (fun l => h !! l = None) nl1
    /\ length nl1 = length ds
    /\ holds h1 (nl ++ nl1) (E ++ Ed)
    /\ NoDup (nl ++ nl1)
    /\ indexes lm1 (nl ++ nl1) (E ++ Ed).
Proof.
  induction ds as [|d ds IH]; intros h nl lm E Ed HE Hd Hnd Huniq Hproto Hlm.
  - apply Forall2_nil_inv_l in Hd as ->. exists h, [], lm.
    rewrite !app_nil_r. repeat split; auto. apply Hlm. apply Hlm.
  - apply Forall2_cons_inv_l in Hd as (o & Ed' & Ho & Hd & ->).
    apply Forall_cons_1 in Hproto as [Hpo Hproto].
    rewrite (copy_defaults_step h d ds nl lm o Ho Hpo).
    pose proof (fresh_unallocated h) as Hfresh. set (l := fresh (dom h)) in *.
    assert (Hlen : length nl = length E) by (eapply Forall2_length; exact HE).
    assert (Hkeep : forall x, is_Some (h !! x) -> (<[l := o]> h) !! x = h !! x).
    { intros x [y Hy]. apply lookup_insert_ne. congruence. }
    assert (Hnotin : l ∉ nl).
    { intros Hin. apply holds_allocated in HE. unfold allocated in HE.
      rewrite Forall_forall in HE. destruct (HE l Hin) as [y Hy]. congruence. }
    rewrite (cons_middle o E Ed') in Huniq. rewrite app_assoc in Huniq.
    destruct (IH (<[l := o]> h) (nl ++ [l])
                (match truthy_name o with Some nm => <[nm := l]> lm | None => lm end)
                (E ++ [o]) Ed') as (h1 & nl1 & lm1 & Hrun & Hk1 & Hf1 & Hl1 & Hh1 & Hn1 & Hi1).
    + apply Forall2_app.
      * eapply holds_keep; [|exact HE]. intros x Hx. apply Hkeep.
        apply holds_allocated in HE. unfold allocated in HE. rewrite Forall_forall in HE. auto.
      * repeat constructor. apply lookup_insert_eq.
    + eapply holds_keep; [|exact Hd]. intros x Hx. apply Hkeep.
      apply holds_allocated in Hd. unfold allocated in Hd. rewrite Forall_forall in Hd. auto.
    + apply NoDup_app. split; [assumption|]. split; [|apply NoDup_singleton].
      intros x Hx Hx'. apply list_elem_of_singleton in Hx' as ->. contradiction.
    + exact Huniq.
    + exact Hproto.
    + (* the map indexes the entries, the new copy included *)
      intros k v. split.
      * intros Hlook.
        assert (Hold : lm !! k = Some v ->
                       exists i o0, (nl ++ [l]) !! i = Some v /\ (E ++ [o]) !! i = Some o0
                                    /\ truthy_name o0 = Some k).
        { intros H. apply Hlm in H as (i & o0 & Hi & Hi' & Hn).
          exists i, o0. rewrite !lookup_app_l by (eapply lookup_lt_Some; eassumption).
          auto. }
        destruct (truthy_name o) as [nm|] eqn:Hnm; [|auto].
        apply lookup_insert_Some in Hlook as [[<- <-]|[_ Hlook]]; [|auto].
        exists (length nl), o. rewrite list_lookup_middle by reflexivity.
        rewrite Hlen, list_lookup_middle by reflexivity. auto.
      * intros (i & o0 & Hi & Hi' & Hn).
        destruct (decide (i < length nl)%nat) as [Hlt|Hge].
        -- rewrite lookup_app_l in Hi by assumption.
           rewrite lookup_app_l in Hi' by lia.
           assert (Hlook : lm !! k = Some v) by (apply Hlm; eauto).
           destruct (truthy_name o) as [nm|] eqn:Hnm; [|assumption].
           rewrite lookup_insert_ne; [assumption|]. intros <-.
           assert (i = length E); [|lia].
           apply (Huniq i (length E) o0 o nm); [| |assumption|assumption].
           ++ rewrite lookup_app_l by (rewrite length_app; cbn; lia).
              rewrite lookup_app_l by lia. assumption.
           ++ rewrite lookup_app_l by (rewrite length_app; cbn; lia).
              apply list_lookup_middle. reflexivity.
        -- assert (i = length nl).
           { apply lookup_lt_Some in Hi. rewrite length_app in Hi. cbn in Hi. lia. }
           subst i. rewrite list_lookup_middle in Hi by reflexivity.
           rewrite Hlen, list_lookup_middle in Hi' by reflexivity.
           injection Hi as <-. injection Hi' as <-. rewrite Hn. apply lookup_insert_eq.
    + exists h1, (l :: nl1), lm1.
      rewrite <- !app_assoc in *. cbn [app] in *.
      repeat split; auto.
      * intros x Hx. rewrite Hk1, Hkeep; auto. rewrite Hkeep; auto.
      * constructor; [assumption|]. eapply Forall_impl; [exact Hf1|].
        intros x Hx. cbn in Hx. apply lookup_insert_None in Hx. tauto.
      * cbn. lia.
      * apply Hi1.
      * apply Hi1.
Qed.

Lemma overlay_name (config t : library) (nm : string) :
  truthy_name config = Some nm -> truthy_name (overlay config t) = Some nm.
Proof.
  intros H. destruct (truthy_name_default _ _ H) as [_ Hn].
  unfold truthy_name in *. cbn [overlay desc name]. rewrite Hn in *. exact H.
Qed.

Lemma has_name_spec (nm : string) (o : library) :
  has_name nm o = true <-> truthy_name o = Some nm.
Proof.
  unfold has_name. destruct (truthy_name o) as [n|]; [|split; discriminate].
  destruct (String.eqb_spec n nm) as [->|Hne]; split; congruence.
Qed.

(** The second loop on overrides that are distinct objects with names
    of their own: the list it returns holds what the specification
    says. *)
Lemma apply_overrides_spec (cs : list loc) :
  forall (h : heap) (nl : list loc) (lm : gmap string loc) (E Ec : list library),
  holds h nl E -> holds h cs Ec -> NoDup nl -> NoDup cs ->
  (forall c, c ∈ cs -> c ∉ nl) ->
  unique_names E -> indexes lm nl E ->
  Forall (fun o => forall nm, truthy_name o = Some nm -> inherited_key nm = false) Ec ->
  exists h' out,
    apply_overrides h cs nl lm = (h', Ok out)
    /\ holds h' out (foldl apply_override E Ec)
    /\ exists appended, out = nl ++ appended.
Proof.
  induction cs as [|c cs IH]; intros h nl lm E Ec HE Hc Hnd Hndc Hdisj Huniq Hlm Hkeys.
  - apply Forall2_nil_inv_l in Hc as ->. exists h, nl. cbn.
    repeat split; [assumption|]. exists []. rewrite app_nil_r. reflexivity.
  - apply Forall2_cons_inv_l in Hc as (config & Ec' & Hcfg & Hc & ->).
    apply Forall_cons_1 in Hkeys as [Hkey Hkeys].
    apply NoDup_cons in Hndc as [Hc_notin Hndc].
    assert (Hlen : length nl = length E) by (eapply Forall2_length; exact HE).
    assert (Hc_nl : c ∉ nl) by (apply Hdisj, list_elem_of_here).
    cbn [apply_overrides foldl]. rewrite Hcfg, truthy_name_string.
    unfold apply_override at 2.
    destruct (truthy_name config) as [nm|] eqn:Hnm; cbn [negb].
    2:{ apply IH; auto. intros x Hx. apply Hdisj, list_elem_of_further, Hx. }
    destruct (truthy_name_default _ _ Hnm) as [-> _].
    unfold libmap_get. destruct (lm !! nm) as [target|] eqn:Hlook.
    + (* the name is known: the entry of that name is overlaid *)
      pose proof Hlook as (i & o & Hi & Hi' & Hno)%Hlm.
      pose proof (Forall2_lookup_lr _ _ _ _ _ _ HE Hi Hi') as Ht. cbn in Ht. rewrite Ht.
      assert (Hex : existsb (has_name nm) E = true).
      { apply existsb_exists. exists o. split.
        - apply list_elem_of_In, list_elem_of_lookup. eauto.
        - apply has_name_spec, Hno. }
      rewrite Hex.
      set (f := fun e => if has_name nm e then overlay config e else e).
      assert (Hf : forall e, truthy_name (f e) = truthy_name e).
      { intros e. unfold f. destruct (has_name nm e) eqn:He; [|reflexivity].
        apply has_name_spec in He. rewrite He. apply overlay_name, Hnm. }
      apply (IH (<[target := overlay config o]> h) nl lm (map f E) Ec'); auto.
      * apply Forall2_same_length_lookup_2; [rewrite length_map; exact Hlen|].
        intros j l e Hj Hje. rewrite list_lookup_fmap in Hje.
        destruct (E !! j) as [e0|] eqn:Hej; [|discriminate]. injection Hje as <-.
        destruct (decide (j = i)) as [->|Hne].
        -- rewrite Hi in Hj. injection Hj as <-. rewrite Hi' in Hej. injection Hej as <-.
           unfold f. rewrite (proj2 (has_name_spec nm o) Hno). apply lookup_insert_eq.
        -- assert (Hlt : target <> l).
           { intros <-. apply Hne. apply (NoDup_lookup nl j i target Hnd); assumption. }
           rewrite lookup_insert_ne by exact Hlt.
           unfold f. destruct (has_name nm e0) eqn:He.
           ++ apply has_name_spec in He. exfalso. apply Hne.
              apply (Huniq j i e0 o nm); assumption.
           ++ exact (Forall2_lookup_lr _ _ _ _ _ _ HE Hj Hej).
      * eapply holds_keep; [|exact Hc]. intros x Hx. apply lookup_insert_ne.
        intros <-. apply (Hdisj target); [apply list_elem_of_further, Hx|].
        apply list_elem_of_lookup. eauto.
      * intros x Hx. apply Hdisj, list_elem_of_further, Hx.
      * intros a b o1 o2 k. rewrite !list_lookup_fmap.
        destruct (E !! a) as [ea|] eqn:Hea; [|discriminate].
        destruct (E !! b) as [eb|] eqn:Heb; [|discriminate].
        intros [= <-] [= <-]. rewrite !Hf. eauto.
      * intros k v. rewrite (Hlm k v). split; intros (a & e & Ha & Hae & Hk).
        -- exists a, (f e). rewrite list_lookup_fmap, Hae, Hf. auto.
        -- rewrite list_lookup_fmap in Hae.
           destruct (E !! a) as [ea|] eqn:Hea; [|discriminate]. injection Hae as <-.
           rewrite Hf in Hk. eauto.
    + (* the name is new: the override is appended *)
      specialize (Hkey nm eq_refl). unfold inherited_key in Hkey.
      apply orb_false_elim in Hkey as [-> ->].
      assert (Hex : existsb (has_name nm) E = false).
      { apply not_true_is_false. intros (e & [a Ha]%list_elem_of_In%list_elem_of_lookup & He)%existsb_exists.
        apply has_name_spec in He.
        destruct (Forall2_lookup_r _ _ _ _ _ HE Ha) as (l & Hl & _).
        assert (lm !! nm = Some l) by (apply Hlm; eauto). congruence. }
      rewrite Hex.
      set (config' := mkLibrary (desc config) (Some defaultCheck)).
      assert (Hn' : truthy_name config' = Some nm) by exact Hnm.
      assert (HuniqE : unique_names (E ++ [config'])).
      { intros a b o1 o2 k Ha Hb H1 H2.
        destruct (decide (a < length E)%nat) as [Hlta|Hgea],
                 (decide (b < length E)%nat) as [Hltb|Hgeb].
        - rewrite lookup_app_l in Ha, Hb by assumption. eauto.
        - exfalso. rewrite lookup_app_l in Ha by assumption.
          assert (b = length E) by (apply lookup_lt_Some in Hb; rewrite length_app in Hb; cbn in Hb; lia).
          subst b. rewrite list_lookup_middle in Hb by reflexivity. injection Hb as <-.
          rewrite Hn' in H2. injection H2 as <-.
          destruct (Forall2_lookup_r _ _ _ _ _ HE Ha) as (l & Hl & _).
          assert (lm !! nm = Some l) by (apply Hlm; eauto). congruence.
        - exfalso. rewrite lookup_app_l in Hb by assumption.
          assert (a = length E) by (apply lookup_lt_Some in Ha; rewrite length_app in Ha; cbn in Ha; lia).
          subst a. rewrite list_lookup_middle in Ha by reflexivity. injection Ha as <-.
          rewrite Hn' in H1. injection H1 as <-.
          destruct (Forall2_lookup_r _ _ _ _ _ HE Hb) as (l & Hl & _).
          assert (lm !! nm = Some l) by (apply Hlm; eauto). congruence.
        - apply lookup_lt_Some in Ha, Hb. rewrite length_app in Ha, Hb. cbn in Ha, Hb. lia. }
      destruct (IH (<[c := config']> h) (nl ++ [c]) (<[nm := c]> lm) (E ++ [config']) Ec')
        as (h' & out & Hrun & Hout & app & ->); auto.
      * apply Forall2_app.
        -- eapply holds_keep; [|exact HE]. intros x Hx. apply lookup_insert_ne. congruence.
        -- repeat constructor. apply lookup_insert_eq.
      * eapply holds_keep; [|exact Hc]. intros x Hx. apply lookup_insert_ne. congruence.
      * apply NoDup_app. split; [assumption|]. split; [|apply NoDup_singleton].
        intros x Hx Hx'. apply list_elem_of_singleton in Hx' as ->. contradiction.
      * intros x Hx [Hin|Hin]%elem_of_app.
        -- apply (Hdisj x); [apply list_elem_of_further, Hx|assumption].
        -- apply list_elem_of_singleton in Hin as ->. contradiction.
      * intros k v. split.
        -- intros [[<- <-]|[Hne Hold]]%lookup_insert_Some.
           ++ exists (length nl), config'. rewrite list_lookup_middle by reflexivity.
              rewrite Hlen, list_lookup_middle by reflexivity. auto.
           ++ apply Hlm in Hold as (a & e & Ha & Hae & Hk). exists a, e.
              rewrite !lookup_app_l by (eapply lookup_lt_Some; eassumption). auto.
        -- intros (a & e & Ha & Hae & Hk).
           destruct (decide (a < length nl)%nat) as [Hlt|Hge].
           ++ rewrite lookup_app_l in Ha by assumption.
              rewrite lookup_app_l in Hae by lia.
              assert (Hold : lm !! k = Some v) by (apply Hlm; eauto).
              rewrite lookup_insert_ne; [assumption|]. congruence.
           ++ assert (a = length nl).
              { apply lookup_lt_Some in Ha. rewrite length_app in Ha. cbn in Ha. lia. }
              subst a. rewrite list_lookup_middle in Ha by reflexivity.
              rewrite Hlen, list_lookup_middle in Hae by reflexivity.
              injection Ha as <-. injection Hae as <-.
              rewrite Hn' in Hk. injection Hk as <-. apply lookup_insert_eq.
      * exists h', (nl ++ [c] ++ app). rewrite <- app_assoc in Hrun.
        repeat split; [exact Hrun| |eauto].
        rewrite <- app_assoc in Hout. exact Hout.
Qed.

(** The second loop writes only to objects the map holds and to
    overrides whose name the map does not know: never to a protected
    object whose name it knows. *)
Lemma apply_overrides_protects (D : list loc) (cs : list loc) :
  forall (h : heap) (nl : list loc) (lm : gmap string loc) (h' : heap) (r : res (list loc)),
  apply_overrides h cs nl lm = (h', r) ->
  allocated h D ->
  (forall nm l, lm !! nm = Some l -> l ∉ D) ->
  (forall d o, d ∈ D -> h !! d = Some o -> truthy_string (name (desc o)) = true ->
     is_Some (lm !! default "" (name (desc o)))) ->
  forall d, d ∈ D -> h' !! d = h !! d.
Proof.
  induction cs as [|c cs IH]; intros h nl lm h' r Hrun Halloc Hval Hkey d Hd;
    cbn [apply_overrides] in Hrun.
  - injection Hrun as <- <-. reflexivity.
  - destruct (h !! c) as [config|] eqn:Hc; [|injection Hrun as <- <-; reflexivity].
    destruct (truthy_string (name (desc config))) eqn:Htr; cbn [negb] in Hrun;
      [|apply (IH _ _ _ _ _ Hrun); assumption].
    set (nm := default "" (name (desc config))) in *.
    unfold libmap_get in Hrun. destruct (lm !! nm) as [target|] eqn:Hlm.
    + (* the name is known: the object the map holds is written *)
      pose proof (Hval _ _ Hlm) as Htarget.
      destruct (h !! target) as [t|] eqn:Ht; [|injection Hrun as <- <-; reflexivity].
      assert (Hsame : forall d0, d0 ∈ D ->
                (<[target := overlay config t]> h) !! d0 = h !! d0).
      { intros d0 Hd0. apply lookup_insert_ne. congruence. }
      rewrite <- (Hsame d Hd). apply (IH _ _ _ _ _ Hrun); [| assumption | | assumption].
      * unfold allocated in *. rewrite Forall_forall in *. intros x Hx.
        rewrite Hsame by assumption. auto.
      * intros d0 o Hd0 Ho. rewrite Hsame in Ho by assumption. eauto.
    + destruct (String.eqb nm "__proto__"); [injection Hrun as <- <-; reflexivity|].
      destruct (existsb (String.eqb nm) Object_prototype_methods);
        [injection Hrun as <- <-; reflexivity|].
      (* the name is new: the override itself is written, and it is not protected *)
      assert (Hc' : c ∉ D).
      { intros Hin. destruct (Hkey c config Hin Hc Htr) as [x Hx].
        fold nm in Hx. congruence. }
      assert (Hsame : forall d0, d0 ∈ D ->
                (<[c := mkLibrary (desc config) (Some defaultCheck)]> h) !! d0 = h !! d0).
      { intros d0 Hd0. apply lookup_insert_ne. congruence. }
      rewrite <- (Hsame d Hd). apply (IH _ _ _ _ _ Hrun); [| | | assumption].
      * unfold allocated in *. rewrite Forall_forall in *. intros x Hx.
        rewrite Hsame by assumption. auto.
      * intros k l Hlook. apply lookup_insert_Some in Hlook as [[_ <-]|[_ Hlook]]; eauto.
      * intros d0 o Hd0 Ho Htr0. rewrite Hsame in Ho by assumption.
        destruct (Hkey d0 o Hd0 Ho Htr0) as [x Hx].
        destruct (decide (nm = default "" (name (desc o)))) as [<-|Hne].
        -- rewrite lookup_insert_eq. eauto.
        -- rewrite lookup_insert_ne by assumption. eauto.
Qed.

(** [mergeConfig] leaves the defaults it is given as they are. *)
Lemma mergeConfig_protects (h : heap) (ds cs : list loc) :
  allocated h ds ->
  forall d, d ∈ ds -> (mergeConfig h ds cs).1 !! d = h !! d.
Proof.
  intros Halloc d Hd. unfold mergeConfig.
  destruct (copy_defaults h ds [] ∅) as [h1 r] eqn:Hcopy.
  destruct (copy_defaults_protects _ _ _ _ _ _ Hcopy) as [Hkeep Hok].
  assert (Hds : forall x, x ∈ ds -> is_Some (h !! x)).
  { intros x Hx. unfold allocated in Halloc. rewrite Forall_forall in Halloc. auto. }
  destruct r as [[nl lm]|e]; [|cbn; auto].
  destruct (Hok nl lm eq_refl) as (Hval & _ & Hkey).
  destruct (apply_overrides h1 cs nl lm) as [h2 r2] eqn:Hover. cbn [fst].
  rewrite <- (Hkeep d (Hds d Hd)).
  apply (apply_overrides_protects ds _ _ _ _ _ _ Hover); [| | |assumption].
  - unfold allocated. rewrite Forall_forall. intros x Hx. rewrite Hkeep; auto.
  - intros nm l Hlook Hin. destruct (Hval nm l Hlook) as [H0|H0].
    + rewrite lookup_empty in H0. discriminate.
    + destruct (Hds l Hin) as [x Hx]. congruence.
  - intros d0 o Hd0 Ho. rewrite Hkeep in Ho by auto. eauto.
Qed.

Lemma alloc_all_keeps (objs : list library) :
  forall (h : heap) (l : loc), is_Some (h !! l) -> (alloc_all h objs).1 !! l = h !! l.
Proof.
  induction objs as [|o objs IH]; intros h l Hl; cbn [alloc_all]; [reflexivity|].
  specialize (IH (<[fresh (dom h) := o]> h) l).
  destruct (alloc_all (<[fresh (dom h) := o]> h) objs) as [h' ls]. cbn [fst] in *.
  assert (Hne : fresh (dom h) <> l).
  { intros <-. rewrite fresh_unallocated in Hl. destruct Hl; discriminate. }
  rewrite IH; rewrite lookup_insert_ne by exact Hne; auto.
Qed.

(** An operation keeps [original_libraries] and the objects it holds. *)
Lemma run_operation_keeps (st : state) (op : operation) :
  allocated (store st) (original_libraries st) ->
  original_libraries (run_operation st op) = original_libraries st
  /\ forall l, l ∈ original_libraries st ->
       store (run_operation st op) !! l = store st !! l.
Proof.
  intros Halloc. destruct op as [objs config]. unfold run_operation. cbn [fst snd].
  pose proof (alloc_all_keeps objs (store st)) as Hkeep.
  destruct (alloc_all (store st) objs) as [h ls]. cbn [fst] in Hkeep.
  assert (Hin : forall l, l ∈ original_libraries st -> is_Some (store st !! l)).
  { unfold allocated in Halloc. rewrite Forall_forall in Halloc. exact Halloc. }
  destruct config as [config|]; cbn [merge store original_libraries];
    [|split; [reflexivity|intros l Hl; cbn; auto]].
  pose proof (mergeConfig_protects h (original_libraries st) config) as Hmerge.
  destruct (mergeConfig h (original_libraries st) config) as [h' [out|e]];
    cbn [fst store original_libraries] in *; (split; [reflexivity|]);
    intros l Hl; (rewrite Hmerge; [auto| |assumption]);
    unfold allocated; rewrite Forall_forall; intros x Hx; rewrite Hkeep; auto.
Qed.

Lemma unique_names_NoDup (E : list library) :
  NoDup (omap truthy_name E) -> unique_names E.
Proof.
  induction E as [|o E IH]; intros Hnd i j o1 o2 nm Hi Hj H1 H2.
  - discriminate Hi.
  - assert (Htail : forall k e, E !! k = Some e -> truthy_name e = Some nm ->
                      nm ∈ omap truthy_name E).
    { intros k e Hk He. apply list_elem_of_omap. exists e. split; [|assumption].
      apply list_elem_of_lookup. eauto. }
    cbn [omap list_omap] in Hnd.
    destruct i as [|i], j as [|j]; cbn in Hi, Hj.
    + reflexivity.
    + exfalso. injection Hi as <-. rewrite H1 in Hnd.
      apply NoDup_cons in Hnd as [Hnot _]. eauto.
    + exfalso. injection Hj as <-. rewrite H2 in Hnd.
      apply NoDup_cons in Hnd as [Hnot _]. eauto.
    + f_equal. apply (IH ltac:(destruct (truthy_name o);
                                 [apply NoDup_cons in Hnd as [_ Hnd]|]; exact Hnd)
                         i j o1 o2 nm); assumption.
Qed.

Lemma allocated_check (h : heap) (ls : list loc) :
  forallb (fun l => match h !! l with Some _ => true | None => false end) ls = true ->
  allocated h ls.
Proof.
  intros H. unfold allocated. apply Forall_forall. intros l Hl.
  rewrite forallb_forall in H. specialize (H l ltac:(apply list_elem_of_In; exact Hl)).
  destruct (h !! l); [eauto|discriminate].
Qed.

Lemma no_inherited_check (E : list library) :
  forallb (fun o => match truthy_name o with
                    | Some nm => negb (inherited_key nm)
                    | None => true
                    end) E = true ->
  Forall (fun o => forall nm, truthy_name o = Some nm -> inherited_key nm = false) E.
Proof.
  intros H. apply Forall_forall. intros o Ho nm Hnm.
  rewrite forallb_forall in H. specialize (H o ltac:(apply list_elem_of_In; exact Ho)).
  rewrite Hnm in H. apply negb_true_iff, H.
Qed.

Lemma entry_named_found (h : heap) (nl : list loc) (E : list library) (nm : string)
    (i : nat) (target : loc) (o : library) :
  holds h nl E -> unique_names E ->
  nl !! i = Some target -> E !! i = Some o -> truthy_name o = Some nm ->
  entry_named h nl nm = Some target.
Proof.
  intros HE Huniq Hi Hi' Hno. unfold entry_named.
  pose proof (Forall2_lookup_lr _ _ _ _ _ _ HE Hi Hi') as Ht. cbn in Ht.
  destruct (List.find _ nl) as [x|] eqn:F.
  - apply find_some in F as [Hin Hx].
    apply list_elem_of_In, list_elem_of_lookup in Hin as [j Hj].
    destruct (Forall2_lookup_l _ _ _ _ _ HE Hj) as (o' & Hj' & Hx'). cbn in Hx'.
    rewrite Hx' in Hx. apply has_name_spec in Hx.
    assert (j = i) by (apply (Huniq j i o' o nm); assumption). subst j. congruence.
  - exfalso. pose proof (find_none _ _ F target) as Hf. cbn beta in Hf.
    rewrite Ht, (proj2 (has_name_spec nm o) Hno) in Hf.
    assert (true = false); [|discriminate].
    apply Hf, list_elem_of_In, list_elem_of_lookup. eauto.
Qed.

Lemma entry_named_none (h : heap) (nl : list loc) (E : list library)
    (lm : gmap string loc) (nm : string) :
  holds h nl E -> indexes lm nl E -> lm !! nm = None ->
  entry_named h nl nm = None.
Proof.
  intros HE Hlm Hlook. unfold entry_named.
  destruct (List.find _ nl) as [x|] eqn:F; [exfalso|reflexivity].
  apply find_some in F as [Hin Hx].
  apply list_elem_of_In, list_elem_of_lookup in Hin as [j Hj].
  destruct (Forall2_lookup_l _ _ _ _ _ HE Hj) as (o' & Hj' & Hx'). cbn in Hx'.
  rewrite Hx' in Hx. apply has_name_spec in Hx.
  assert (lm !! nm = Some x) by (apply Hlm; eauto). congruence.
Qed.

(** The second loop, on any list of overrides (an object may be listed
    twice, and may be an entry of the new list): it does to the store
    what the specification says, override by override. *)
Lemma apply_overrides_registry (cs : list loc) :
  forall (h : heap) (nl : list loc) (lm : gmap string loc) (E : list library),
  holds h nl E -> NoDup nl -> unique_names E -> indexes lm nl E ->
  Forall (override_ready h) cs ->
  apply_overrides h cs nl lm
  = ((foldl override_step (h, nl) cs).1, Ok (foldl override_step (h, nl) cs).2).
Proof.
  induction cs as [|c cs IH]; intros h nl lm E HE Hnd Huniq Hlm Hcs; [reflexivity|].
  apply Forall_cons_1 in Hcs as [(config & Hcfg & Hkey) Hcs].
  assert (Hlen : length nl = length E) by (eapply Forall2_length; exact HE).
  cbn [apply_overrides foldl]. rewrite Hcfg, truthy_name_string.
  destruct (truthy_name config) as [nm|] eqn:Hnm; cbn [negb].
  2:{ assert (Hstep : override_step (h, nl) c = (h, nl)).
      { unfold override_step. cbn [fst snd]. rewrite Hcfg, Hnm. reflexivity. }
      rewrite Hstep. apply (IH h nl lm E); assumption. }
  specialize (Hkey nm eq_refl).
  destruct (truthy_name_default _ _ Hnm) as [-> _].
  unfold libmap_get. destruct (lm !! nm) as [target|] eqn:Hlook.
  - (* the name is known: the entry of that name is overlaid *)
    pose proof Hlook as (i & o & Hi & Hi' & Hno)%Hlm.
    pose proof (Forall2_lookup_lr _ _ _ _ _ _ HE Hi Hi') as Ht. cbn in Ht. rewrite Ht.
    assert (Hstep : override_step (h, nl) c = (<[target := overlay config o]> h, nl)).
    { unfold override_step. cbn [fst snd].
      rewrite Hcfg, Hnm, (entry_named_found h nl E nm i target o), Ht by assumption.
      reflexivity. }
    rewrite Hstep.
    set (f := fun e => if has_name nm e then overlay config e else e).
    assert (Hf : forall e, truthy_name (f e) = truthy_name e).
    { intros e. unfold f. destruct (has_name nm e) eqn:He; [|reflexivity].
      apply has_name_spec in He. rewrite He. apply overlay_name, Hnm. }
    apply (IH (<[target := overlay config o]> h) nl lm (map f E)); [| assumption | | |].
    + apply Forall2_same_length_lookup_2; [rewrite length_map; exact Hlen|].
      intros j l e Hj Hje. rewrite list_lookup_fmap in Hje.
      destruct (E !! j) as [e0|] eqn:Hej; [|discriminate]. injection Hje as <-.
      destruct (decide (j = i)) as [->|Hne].
      * rewrite Hi in Hj. injection Hj as <-. rewrite Hi' in Hej. injection Hej as <-.
        unfold f. rewrite (proj2 (has_name_spec nm o) Hno). apply lookup_insert_eq.
      * assert (Hlt : target <> l).
        { intros <-. apply Hne. apply (NoDup_lookup nl j i target Hnd); assumption. }
        rewrite lookup_insert_ne by exact Hlt.
        unfold f. destruct (has_name nm e0) eqn:He.
        -- apply has_name_spec in He. exfalso. apply Hne.
           apply (Huniq j i e0 o nm); assumption.
        -- exact (Forall2_lookup_lr _ _ _ _ _ _ HE Hj Hej).
    + intros a b o1 o2 k. rewrite !list_lookup_fmap.
      destruct (E !! a) as [ea|] eqn:Hea; [|discriminate].
      destruct (E !! b) as [eb|] eqn:Heb; [|discriminate].
      intros [= <-] [= <-]. rewrite !Hf. eauto.
    + intros k v. rewrite (Hlm k v). split; intros (a & e & Ha & Hae & Hk).
      * exists a, (f e). rewrite list_lookup_fmap, Hae, Hf. auto.
      * rewrite list_lookup_fmap in Hae.
        destruct (E !! a) as [ea|] eqn:Hea; [|discriminate]. injection Hae as <-.
        rewrite Hf in Hk. eauto.
    + eapply Forall_impl; [exact Hcs|]. intros x (cx & Hx & Hkx).
      destruct (decide (x = target)) as [->|Hne].
      * exists (overlay config o). rewrite lookup_insert_eq. split; [reflexivity|].
        intros k Hk. rewrite (overlay_name _ _ _ Hnm) in Hk. injection Hk as <-. exact Hkey.
      * exists cx. rewrite lookup_insert_ne by congruence. auto.
  - (* the name is new: the override itself is appended *)
    pose proof Hkey as Hkey'. unfold inherited_key in Hkey'.
    apply orb_false_elim in Hkey' as [-> ->].
    set (config' := mkLibrary (desc config) (Some defaultCheck)).
    assert (Hn' : truthy_name config' = Some nm) by exact Hnm.
    assert (Hstep : override_step (h, nl) c = (<[c := config']> h, nl ++ [c])).
    { unfold override_step. cbn [fst snd].
      rewrite Hcfg, Hnm, (entry_named_none h nl E lm nm) by assumption. reflexivity. }
    rewrite Hstep.
    assert (Hc_nl : c ∉ nl).
    { intros [j Hj]%list_elem_of_lookup.
      destruct (Forall2_lookup_l _ _ _ _ _ HE Hj) as (o' & Hj' & Hx'). cbn in Hx'.
      assert (o' = config) by congruence. subst o'.
      assert (lm !! nm = Some c) by (apply Hlm; eauto). congruence. }
    apply (IH (<[c := config']> h) (nl ++ [c]) (<[nm := c]> lm) (E ++ [config'])).
    + apply Forall2_app.
      * eapply holds_keep; [|exact HE]. intros x Hx. apply lookup_insert_ne. congruence.
      * repeat constructor. apply lookup_insert_eq.
    + apply NoDup_app. split; [assumption|]. split; [|apply NoDup_singleton].
      intros x Hx Hx'. apply list_elem_of_singleton in Hx' as ->. contradiction.
    + intros a b o1 o2 k Ha Hb H1 H2.
      destruct (decide (a < length E)%nat) as [Hlta|Hgea],
               (decide (b < length E)%nat) as [Hltb|Hgeb].
      * rewrite lookup_app_l in Ha, Hb by assumption. eauto.
      * exfalso. rewrite lookup_app_l in Ha by assumption.
        assert (b = length E)
          by (apply lookup_lt_Some in Hb; rewrite length_app in Hb; cbn in Hb; lia).
        subst b. rewrite list_lookup_middle in Hb by reflexivity. injection Hb as <-.
        rewrite Hn' in H2. injection H2 as <-.
        destruct (Forall2_lookup_r _ _ _ _ _ HE Ha) as (l & Hl & _).
        assert (lm !! nm = Some l) by (apply Hlm; eauto). congruence.
      * exfalso. rewrite lookup_app_l in Hb by assumption.
        assert (a = length E)
          by (apply lookup_lt_Some in Ha; rewrite length_app in Ha; cbn in Ha; lia).
        subst a. rewrite list_lookup_middle in Ha by reflexivity. injection Ha as <-.
        rewrite Hn' in H1. injection H1 as <-.
        destruct (Forall2_lookup_r _ _ _ _ _ HE Hb) as (l & Hl & _).
        assert (lm !! nm = Some l) by (apply Hlm; eauto). congruence.
      * apply lookup_lt_Some in Ha, Hb. rewrite length_app in Ha, Hb. cbn in Ha, Hb. lia.
    + intros k v. split.
      * intros [[<- <-]|[Hne Hold]]%lookup_insert_Some.
        -- exists (length nl), config'. rewrite list_lookup_middle by reflexivity.
           rewrite Hlen, list_lookup_middle by reflexivity. auto.
        -- apply Hlm in Hold as (a & e & Ha & Hae & Hk). exists a, e.
           rewrite !lookup_app_l by (eapply lookup_lt_Some; eassumption). auto.
      * intros (a & e & Ha & Hae & Hk).
        destruct (decide (a < length nl)%nat) as [Hlt|Hge].
        -- rewrite lookup_app_l in Ha by assumption.
           rewrite lookup_app_l in Hae by lia.
           assert (Hold : lm !! k = Some v) by (apply Hlm; eauto).
           rewrite lookup_insert_ne; [assumption|]. congruence.
        -- assert (a = length nl).
           { apply lookup_lt_Some in Ha. rewrite length_app in Ha. cbn in Ha. lia. }
           subst a. rewrite list_lookup_middle in Ha by reflexivity.
           rewrite Hlen, list_lookup_middle in Hae by reflexivity.
           injection Ha as <-. injection Hae as <-.
           rewrite Hn' in Hk. injection Hk as <-. apply lookup_insert_eq.
    + eapply Forall_impl; [exact Hcs|]. intros x (cx & Hx & Hkx).
      destruct (decide (x = c)) as [->|Hne].
      * exists config'. rewrite lookup_insert_eq. split; [reflexivity|].
        intros k Hk. rewrite Hn' in Hk. injection Hk as <-. exact Hkey.
      * exists cx. rewrite lookup_insert_ne by congruence. auto.
Qed.

(** The list only grows, at its end. *)
Lemma merge_registry_extends (cs : list loc) :
  forall (h : heap) (nl : list loc),
  exists appended, (merge_registry h nl cs).2 = nl ++ appended.
Proof.
  unfold merge_registry.
  induction cs as [|c cs IH]; intros h nl; cbn [foldl].
  - exists []. cbn. rewrite app_nil_r. reflexivity.
  - assert (Hstep : exists h1 more, override_step (h, nl) c = (h1, nl ++ more)).
    { unfold override_step. cbn [fst snd].
      destruct (h !! c) as [config|]; [|exists h, []; rewrite app_nil_r; reflexivity].
      destruct (truthy_name config) as [nm|];
        [|exists h, []; rewrite app_nil_r; reflexivity].
      destruct (entry_named h nl nm) as [target|]; [|eauto].
      destruct (h !! target) as [t|]; eexists _, []; rewrite app_nil_r; reflexivity. }
    destruct Hstep as (h1 & more & ->). destruct (IH h1 (nl ++ more)) as [app ->].
    exists (more ++ app). rewrite app_assoc. reflexivity.
Qed.

(** [mergeConfig] on defaults with distinct names and overrides of any
    shape: new copies of the defaults, then the overrides applied to
    them as the specification says; the defaults stay as they were. *)
Lemma mergeConfig_registry (h : heap) (ds cs : list loc) :
  allocated h ds -> allocated h cs ->
  NoDup (omap truthy_name (objects h ds)) ->
  Forall plain (objects h ds) ->
  Forall (fun o => forall nm, truthy_name o = Some nm -> inherited_key nm = false)
         (objects h cs) ->
  exists h0 copies,
    Forall (fun l => h !! l = None) copies
    /\ NoDup copies
    /\ holds h0 copies (objects h ds)
    /\ (forall l, is_Some (h !! l) -> h0 !! l = h !! l)
    /\ mergeConfig h ds cs
       = ((merge_registry h0 copies cs).1, Ok (merge_registry h0 copies cs).2)
    /\ take (length ds) (merge_registry h0 copies cs).2 = copies
    /\ forall d, d ∈ ds -> (merge_registry h0 copies cs).1 !! d = h !! d.
Proof.
  intros Hds Hcs Hnames Hplain Hkeys.
  destruct (copy_defaults_spec ds h [] ∅ [] (objects h ds))
    as (h1 & nl1 & lm1 & Hcopy & Hkeep & Hfresh & Hlen & Hh1 & Hnd1 & Hi1).
  - constructor.
  - apply allocated_holds, Hds.
  - constructor.
  - apply unique_names_NoDup, Hnames.
  - exact Hplain.
  - intros nm l. rewrite lookup_empty. split; [discriminate|].
    intros (i & o & Hi & _). discriminate Hi.
  - cbn [app] in *. exists h1, nl1.
    assert (Hrun : mergeConfig h ds cs
                   = ((merge_registry h1 nl1 cs).1, Ok (merge_registry h1 nl1 cs).2)).
    { unfold mergeConfig. rewrite Hcopy. unfold merge_registry.
      apply (apply_overrides_registry cs h1 nl1 lm1 (objects h ds)); auto.
      - apply unique_names_NoDup, Hnames.
      - pose proof (allocated_holds h cs Hcs) as Hc.
        clear - Hc Hkeys Hkeep. unfold holds in Hc.
        induction Hc as [|c o cs os Hc _ IH]; [constructor|].
        apply Forall_cons_1 in Hkeys as [Hk Hkeys]. constructor; [|apply IH, Hkeys].
        exists o. split; [|exact Hk]. rewrite Hkeep; eauto. }
    repeat split; auto.
    + destruct (merge_registry_extends cs h1 nl1) as [app ->].
      rewrite <- Hlen. apply take_app_length.
    + intros d Hd. pose proof (mergeConfig_protects h ds cs Hds d Hd) as Hp.
      rewrite Hrun in Hp. exact Hp.
Qed.

Lemma plain_check (E : list library) :
  forallb (fun o => match truthy_name o with
                    | Some nm => negb (String.eqb nm "__proto__")
                    | None => true
                    end) E = true ->
  Forall plain E.
Proof.
  intros H. apply Forall_forall. intros o Ho nm Hnm ->.
  rewrite forallb_forall in H. specialize (H o ltac:(apply list_elem_of_In; exact Ho)).
  rewrite Hnm in H. discriminate H.
Qed.

End StoreFacts.

(** The module as loaded without [check-libs.json], and two overrides
    that share a name no default has. *)
Definition loaded : state :=
  match load None with
  | Ok st => st
  | Throw _ => mkModule ∅ [] []
  end.

Definition foo_override : library :=
  mkLibrary (mkDescriptor (Some "Foo") (Some (mkMinVersion "2." "0")) None None None
               (Some "Foo v(\d+\.\d+)")) None.

Definition foo_skip : library :=
  mkLibrary (mkDescriptor (Some "Foo") None None None (Some true) None) None.

Definition store_with_overrides : heap :=
  (alloc_all (store loaded) [foo_override; foo_skip]).1.

Example overrides_allocated :
  (alloc_all (store loaded) [foo_override; foo_skip]).2 = [16; 17]%nat.
Proof. vm_compute. reflexivity. Qed.

(** C6, as it stands, fails when two overrides share a new name: the
    first is appended and indexed, and the second, whose name matches
    no default either, is laid over the first instead of being
    appended. *)
Lemma mergeConfig_second_override_of_a_name_not_appended :
  ~ (forall (h : heap) (ds cs : list loc) (h' : heap) (out : list loc) (c : loc)
            (config : library) (nm : string),
       mergeConfig h ds cs = (h', Ok out) ->
       NoDup cs -> c ∈ cs -> h !! c = Some config ->
       truthy_name config = Some nm ->
       existsb (has_name nm) (objects h ds) = false ->
       c ∈ out /\ h' !! c = Some (mkLibrary (desc config) (Some defaultCheck))).
Proof.
  intros H.
  destruct (mergeConfig store_with_overrides (original_libraries loaded) [16; 17]%nat)
    as [h' r] eqn:Hrun.
  assert (Hout : r = Ok (seq 18 16 ++ [16%nat])).
  { apply (f_equal snd) in Hrun. cbn [snd] in Hrun. rewrite <- Hrun.
    vm_compute. reflexivity. }
  subst r.
  destruct (H store_with_overrides (original_libraries loaded) [16; 17]%nat h' _ 17%nat
              foo_skip "Foo" Hrun) as [Hin _].
  - apply (bool_decide_unpack _). vm_compute. exact I.
  - apply (bool_decide_unpack _). vm_compute. exact I.
  - vm_compute. reflexivity.
  - reflexivity.
  - vm_compute. reflexivity.
  - apply (bool_decide_pack _) in Hin. vm_compute in Hin. exact Hin.
Qed.

(** C6 (amended): on a default registry whose names are distinct and
    an override list of any shape (an object may be listed twice; no
    default is named [__proto__] and no override is named after a
    member of [Object.prototype]), [mergeConfig] returns a new list. The
    list starts as copies of the defaults in new objects, the defaults
    themselves being left as they were; the overrides are then applied
    in list order, each read as it is when its turn comes: an override
    without a name is passed over; an override whose name no entry of
    the list has by then (no copy, and no override appended before it)
    is appended, the override object itself, with [defaultCheck] written
    to it as its extraction rule; any other override overwrites, on the
    entry of its name, the properties it has and leaves the others. *)
Theorem mergeConfig_overlays (h : heap) (ds cs : list loc) :
  allocated h ds -> allocated h cs ->
  NoDup (omap truthy_name (objects h ds)) ->
  Forall plain (objects h ds) ->
  Forall (fun o => forall nm, truthy_name o = Some nm -> inherited_key nm = false)
         (objects h cs) ->
  exists h0 copies,
    Forall (fun l => h !! l = None) copies
    /\ NoDup copies
    /\ holds h0 copies (objects h ds)
    /\ (forall l, is_Some (h !! l) -> h0 !! l = h !! l)
    /\ mergeConfig h ds cs
       = ((merge_registry h0 copies cs).1, Ok (merge_registry h0 copies cs).2)
    /\ take (length ds) (merge_registry h0 copies cs).2 = copies
    /\ forall d, d ∈ ds -> (merge_registry h0 copies cs).1 !! d = h !! d.
Proof. apply mergeConfig_registry. Qed.

(** The built-in registry and the two overrides named ["Foo"], the
    first of them listed a second time. *)
Lemma mergeConfig_overlays_witness :
  exists h0 copies,
    Forall (fun l => store_with_overrides !! l = None) copies
    /\ NoDup copies
    /\ holds h0 copies (objects store_with_overrides (original_libraries loaded))
    /\ (forall l, is_Some (store_with_overrides !! l) -> h0 !! l = store_with_overrides !! l)
    /\ mergeConfig store_with_overrides (original_libraries loaded) [16; 17; 16]%nat
       = ((merge_registry h0 copies [16; 17; 16]%nat).1,
          Ok (merge_registry h0 copies [16; 17; 16]%nat).2)
    /\ take (length (original_libraries loaded))
         (merge_registry h0 copies [16; 17; 16]%nat).2 = copies
    /\ forall d, d ∈ original_libraries loaded ->
         (merge_registry h0 copies [16; 17; 16]%nat).1 !! d = store_with_overrides !! d.
Proof.
  apply (mergeConfig_overlays store_with_overrides (original_libraries loaded)
           [16; 17; 16]%nat).
  - apply allocated_check. vm_compute. reflexivity.
  - apply allocated_check. vm_compute. reflexivity.
  - apply (bool_decide_unpack _). vm_compute. exact I.
  - apply plain_check. vm_compute. reflexivity.
  - apply no_inherited_check. vm_compute. reflexivity.
Defined.





(** ** More on compareVersions: the order it defines *)

Section CompareOrder.

Lemma compare_parts_range (a : list Z) :
  forall b, compare_parts a b = -1 \/ compare_parts a b = 0 \/ compare_parts a b = 1.
Proof.
  induction a as [|x a IH]; intros [|y b]; cbn; auto.
  destruct (x =? y); [apply IH|]. destruct (y <? x); auto.
Qed.

Lemma compare_parts_antisym (a : list Z) :
  forall b, compare_parts b a = - compare_parts a b.
Proof.
  induction a as [|x a IH]; intros [|y b]; cbn; try reflexivity.
  destruct (Z.eqb_spec x y) as [->|Hne].
  - rewrite Z.eqb_refl. apply IH.
  - destruct (Z.eqb_spec y x) as [->|_]; [congruence|].
    destruct (Z.ltb_spec y x), (Z.ltb_spec x y); lia.
Qed.

Lemma compare_parts_eq (a : list Z) :
  forall b, compare_parts a b = 0 <-> a = b.
Proof.
  induction a as [|x a IH]; intros [|y b]; cbn; try (split; [discriminate|congruence]).
  - split; reflexivity.
  - destruct (Z.eqb_spec x y) as [->|Hne].
    + rewrite IH. split; congruence.
    + destruct (y <? x); split; (discriminate || congruence).
Qed.

Lemma compare_parts_trans (a : list Z) :
  forall b c, compare_parts a b <= 0 -> compare_parts b c = -1 -> compare_parts a c = -1.
Proof.
  induction a as [|x a IH]; intros [|y b] [|z c]; cbn; try discriminate; try reflexivity;
    try lia.
  destruct (Z.eqb_spec x y) as [->|Hxy].
  - destruct (Z.eqb_spec y z) as [->|Hyz]; [apply IH|].
    intros _ H. exact H.
  - destruct (Z.ltb_spec y x) as [Hlt|Hge]; [lia|]. intros _.
    destruct (Z.eqb_spec y z) as [->|Hyz].
    + intros _. destruct (Z.eqb_spec x z); [congruence|].
      destruct (Z.ltb_spec z x); [lia|reflexivity].
    + destruct (Z.ltb_spec z y); [discriminate|]. intros _.
      destruct (Z.eqb_spec x z); [lia|]. destruct (Z.ltb_spec z x); [lia|reflexivity].
Qed.

Lemma of_Z_inj (x y : Z) : @Ok number (of_Z x) = Ok (of_Z y) -> x = y.
Proof. intros [= H]. exact H. Qed.

Lemma compare_loop_range (v1 v2 : list number) (todo : nat) :
  forall (i : nat) (r : number),
  compare_loop v1 v2 i todo = Some r -> r = of_Z 1 \/ r = of_Z (-1).
Proof.
  induction todo as [|todo IH]; intros i r; cbn [compare_loop]; [discriminate|].
  destruct (length v2 =? i)%nat; [intros [= <-]; auto|].
  destruct (v1 !! i) as [a|]; [|intros [= <-]; auto].
  destruct (v2 !! i) as [b|]; [|intros [= <-]; auto].
  destruct (num_eqb a b); [apply IH|].
  destruct (num_gtb a b); intros [= <-]; auto.
Qed.

End CompareOrder.

(** X1: swapping the arguments of [compareVersions] negates the result
    (versions of well-formed parts of at most [2^53]): the one is older
    exactly when the other is newer, also where the lengths differ. *)
Theorem compareVersions_antisymmetric (a b : string) :
  well_formed a -> well_formed b -> representable a -> representable b ->
  exists r : Z,
    (r = -1 \/ r = 0 \/ r = 1)
    /\ compareVersions (VString a) (VString b) = Ok (of_Z r)
    /\ compareVersions (VString b) (VString a) = Ok (of_Z (- r)).
Proof.
  intros Wa Wb Ra Rb. exists (compare_parts (parts a) (parts b)).
  split; [apply compare_parts_range|]. split.
  - apply compareVersions_parts; assumption.
  - rewrite <- compare_parts_antisym. apply compareVersions_parts; assumption.
Qed.

Lemma compareVersions_antisymmetric_witness :
  exists r : Z,
    (r = -1 \/ r = 0 \/ r = 1)
    /\ compareVersions (VString "1.2") (VString "1.2.0") = Ok (of_Z r)
    /\ compareVersions (VString "1.2.0") (VString "1.2") = Ok (of_Z (- r)).
Proof.
  apply (compareVersions_antisymmetric "1.2" "1.2.0");
    repeat constructor; discriminate.
Defined.

(** X2: the order of [compareVersions] is transitive: a version that
    is not newer than a second one, which is older than a third, is
    older than the third. *)
Theorem compareVersions_transitive (a b c : string) :
  well_formed a -> well_formed b -> well_formed c ->
  representable a -> representable b -> representable c ->
  compareVersions (VString a) (VString b) = Ok (of_Z (-1))
  \/ compareVersions (VString a) (VString b) = Ok (of_Z 0) ->
  compareVersions (VString b) (VString c) = Ok (of_Z (-1)) ->
  compareVersions (VString a) (VString c) = Ok (of_Z (-1)).
Proof.
  intros Wa Wb Wc Ra Rb Rc Hab Hbc.
  rewrite (compareVersions_parts a b Wa Wb Ra Rb) in Hab.
  rewrite (compareVersions_parts b c Wb Wc Rb Rc) in Hbc.
  rewrite (compareVersions_parts a c Wa Wc Ra Rc). do 2 f_equal.
  apply of_Z_inj in Hbc.
  apply (compare_parts_trans _ (parts b)); [|exact Hbc].
  destruct Hab as [H|H]; apply of_Z_inj in H; lia.
Qed.

Lemma compareVersions_transitive_witness :
  compareVersions (VString "1.4") (VString "1.6.4") = Ok (of_Z (-1)).
Proof.
  apply (compareVersions_transitive "1.4" "1.4.0" "1.6.4");
    [ repeat constructor; discriminate ..
    | left; vm_compute; reflexivity
    | vm_compute; reflexivity ].
Defined.

(** X3: two versions compare equal exactly when their parts write the
    same integers: leading zeros do not count (["1.02"] equals
    ["1.2"]), a missing part does (["1.2"] is not ["1.2.0"]). *)
Theorem compareVersions_equal_parts (a b : string) :
  well_formed a -> well_formed b -> representable a -> representable b ->
  compareVersions (VString a) (VString b) = Ok (of_Z 0) <-> parts a = parts b.
Proof.
  intros Wa Wb Ra Rb. rewrite (compareVersions_parts a b Wa Wb Ra Rb).
  rewrite <- compare_parts_eq. split.
  - apply of_Z_inj.
  - intros ->. reflexivity.
Qed.

Lemma compareVersions_equal_parts_witness :
  compareVersions (VString "1.02") (VString "1.2") = Ok (of_Z 0).
Proof.
  apply (compareVersions_equal_parts "1.02" "1.2");
    [ repeat constructor; discriminate .. | reflexivity ].
Defined.

(** X4: [compareVersions] throws in one case only, a [TypeError] when
    the first argument is a string and the second is not; whenever it
    returns, the result is NaN, 1, 0 or -1. *)
Theorem compareVersions_outcomes (version1 version2 : value) :
  (forall e : error,
     compareVersions version1 version2 = Throw e <->
     e = TypeError /\ typeof_is_string version1 = true /\ typeof_is_string version2 = false)
  /\ (forall r : number,
        compareVersions version1 version2 = Ok r ->
        r = NaN \/ r = of_Z 1 \/ r = of_Z 0 \/ r = of_Z (-1)).
Proof.
  assert (Hother : forall v, typeof_is_string v = false ->
            compareVersions v version2 = Ok NaN).
  { intros v Hv. unfold compareVersions. rewrite Hv. reflexivity. }
  destruct version1 as [| | b | x | s1];
    try (rewrite Hother by reflexivity; split;
         [intros e; split; [discriminate|intros (_ & H & _); discriminate H]
         |intros r [= <-]; auto]).
  destruct version2 as [| | b | x | s2];
    try (split; [intros e; split; [intros [= <-]; auto|intros (-> & _); reflexivity]
                |discriminate]).
  unfold compareVersions. cbn [typeof_is_string negb orb value_split mbind res_bind].
  split.
  - intros e. split; [|intros (_ & _ & H); discriminate H].
    destruct (_ || _); [discriminate|]. destruct (compare_loop _ _ _ _); [discriminate|].
    destruct (negb _); discriminate.
  - intros r. destruct (_ || _); [intros [= <-]; auto|].
    destruct (compare_loop _ _ _ _) as [r'|] eqn:Hloop.
    + intros [= <-]. destruct (compare_loop_range _ _ _ _ _ Hloop) as [->| ->]; auto.
    + destruct (negb _); intros [= <-]; auto.
Qed.

(** ** More on checkVersion *)

Section VersionFacts.

Lemma str_span_inv (p : ascii -> bool) (s : string) :
  forall d r, str_span p s = (d, r) ->
  str_forallb p d = true /\ s = d +:+ r
  /\ match r with String c _ => p c = false | EmptyString => True end.
Proof.
  induction s as [|c s IH]; intros d r; cbn [str_span].
  - intros [= <- <-]. repeat split.
  - destruct (p c) eqn:Hc.
    + destruct (str_span p s) as [d' r'] eqn:Hs. intros [= <- <-].
      destruct (IH d' r' eq_refl) as (Hd & -> & Hr).
      cbn [str_forallb]. rewrite Hc, Hd. repeat split. exact Hr.
    + intros [= <- <-]. repeat split. exact Hc.
Qed.

Lemma patch_shape_inv (v majmin suffix : string) :
  patch_shape v = Some (majmin, suffix) ->
  exists d1 d2,
    majmin = d1 +:+ "." +:+ d2 /\ v = majmin +:+ suffix
    /\ d1 <> EmptyString /\ d2 <> EmptyString
    /\ str_forallb isDigit d1 = true /\ str_forallb isDigit d2 = true
    /\ match suffix with String c _ => isDigit c = false | EmptyString => True end
    /\ str_forallb not_line_terminator suffix = true.
Proof.
  unfold patch_shape. destruct (str_span isDigit v) as [d1 r1] eqn:H1.
  destruct r1 as [|c r2]; [discriminate|].
  destruct (str_span isDigit r2) as [d2 sfx] eqn:H2.
  destruct (Ascii.eqb_spec c ".") as [->|]; [|discriminate].
  destruct d1 as [|a d1]; [discriminate|]. destruct d2 as [|b d2]; [discriminate|].
  cbn [is_empty negb andb].
  destruct (str_forallb not_line_terminator sfx) eqn:Hnl; [|discriminate].
  intros [= <- <-].
  destruct (str_span_inv _ _ _ _ H1) as (Hd1 & -> & _).
  destruct (str_span_inv _ _ _ _ H2) as (Hd2 & -> & Hsfx).
  exists (String a d1), (String b d2). repeat split; try assumption; try discriminate.
  rewrite !append_assoc. reflexivity.
Qed.

Lemma patch_normalize_idempotent (v : string) :
  patch_normalize (patch_normalize v) = patch_normalize v.
Proof.
  unfold patch_normalize at 2 3.
  destruct (patch_shape v) as [[majmin suffix]|] eqn:Hshape.
  2:{ unfold patch_normalize. rewrite Hshape. reflexivity. }
  destruct (starts_dot_digit suffix) eqn:Hdd.
  { unfold patch_normalize. rewrite Hshape, Hdd. reflexivity. }
  destruct (patch_shape_inv _ _ _ Hshape)
    as (d1 & d2 & -> & _ & Hn1 & Hn2 & Hd1 & Hd2 & _ & Hnl).
  unfold patch_normalize, patch_shape.
  rewrite !append_assoc.
  rewrite (str_span_exact isDigit d1 ("." +:+ d2 +:+ ".0" +:+ suffix) Hd1 eq_refl).
  change ("." +:+ d2 +:+ ".0" +:+ suffix) with (String "." (d2 +:+ ".0" +:+ suffix)).
  cbv iota beta.
  rewrite (str_span_exact isDigit d2 (".0" +:+ suffix) Hd2 eq_refl).
  destruct d1 as [|a d1]; [congruence|]. destruct d2 as [|b d2]; [congruence|].
  cbn [Ascii.eqb Bool.eqb is_empty negb andb].
  change (".0" +:+ suffix) with (String "." (String "0" suffix)).
  cbn [str_forallb]. rewrite Hnl. reflexivity.
Qed.

(** What [checkVersion] returns on a string, for a descriptor with a
    minimum version. *)
Lemma checkVersion_string (library : descriptor) (v : string) (mv : minVersion_t) :
  minVersion library = Some mv ->
  exists cmp,
    compareVersions (VString (normalized library v)) (VString (major mv +:+ minor mv)) = Ok cmp
    /\ checkVersion library (VString v)
       = Ok (mkVinfo (name library)
               (num_eqb cmp (of_Z (-1)) || banned_hit library (normalized library v))
               (major mv +:+ minor mv) (VString v)
               (if banned_hit library (normalized library v)
                then Some (VString (normalized library v)) else None)
               None None).
Proof.
  intros Hmv.
  destruct (compareVersions_strings (normalized library v) (major mv +:+ minor mv))
    as [cmp Hcmp].
  exists cmp. split; [exact Hcmp|].
  unfold checkVersion. rewrite Hmv. cbn [mbind res_bind vminVersion vname vversion].
  replace (if truthy_flag (patchOptional library)
           then patch_version (VString v) else Ok (VString v))
    with (@Ok value (VString (normalized library v))).
  2:{ unfold normalized. destruct (truthy_flag (patchOptional library));
        [symmetry; apply patch_version_normalize|reflexivity]. }
  cbn [mbind res_bind]. rewrite Hcmp. cbn [mbind res_bind].
  unfold banned_hit. destruct (bannedVersions library) as [banned|]; cbn [is_banned].
  - destruct (array_includes banned (normalized library v));
      rewrite ?orb_true_r, ?orb_false_r; reflexivity.
  - rewrite orb_false_r. reflexivity.
Qed.

End VersionFacts.

(** X5: the [patchOptional] step is idempotent: applied to its own
    result it changes nothing, so a version is never given a second
    [.0]. *)
Theorem patch_version_idempotent (v : string) :
  exists w : string,
    patch_version (VString v) = Ok (VString w)
    /\ patch_version (VString w) = Ok (VString w).
Proof.
  exists (patch_normalize v). split; [apply patch_version_normalize|].
  rewrite patch_version_normalize, patch_normalize_idempotent. reflexivity.
Qed.

(** X6: [checkVersion] throws in two cases only, both a [TypeError]:
    the descriptor has no [minVersion], or it is [patchOptional] and the
    version is not a string. *)
Theorem checkVersion_throws (library : descriptor) (version : value) (e : error) :
  checkVersion library version = Throw e <->
  e = TypeError
  /\ (minVersion library = None
      \/ (truthy_flag (patchOptional library) = true /\ typeof_is_string version = false)).
Proof.
  destruct (minVersion library) as [mv|] eqn:Hmv.
  2:{ unfold checkVersion. rewrite Hmv. cbn [mbind res_bind].
      split; [intros [= <-]; auto|intros [-> _]; reflexivity]. }
  destruct version as [| | b | x | v].
  5:{ destruct (checkVersion_string library v mv Hmv) as (cmp & _ & ->).
      split; [discriminate|]. intros [_ [H|[_ H]]]; discriminate H. }
  all: unfold checkVersion; rewrite Hmv; cbn [mbind res_bind];
    destruct (truthy_flag (patchOptional library)); cbn [patch_version mbind res_bind];
    [ split; [intros [= <-]; auto|intros [-> _]; reflexivity]
    | split; [|intros [_ [H|[H _]]]; discriminate H] ];
    unfold compareVersions; cbn [typeof_is_string negb orb mbind res_bind];
    destruct (bannedVersions library); cbn [is_banned]; discriminate.
Qed.

(** ** More on compareVersions: every string *)

(** A version [compareVersions] accepts: every part converts to a
    Number that writes as a run of digits. The values it then compares
    are the integers these Numbers denote. *)
Definition valid_version (a : string) : bool :=
  forallb isValidPart (map ToNumber (split_on "." a)).

Definition part_values (a : string) : list Z :=
  map (fun x => default 0 (int_value x)) (map ToNumber (split_on "." a)).

Section AnyVersion.

Lemma num_eqb_int (x y : number) (a b : Z) :
  int_value x = Some a -> int_value y = Some b ->
  num_eqb x y = (a =? b) /\ num_gtb x y = (b <? a).
Proof.
  intros Hx Hy. unfold num_eqb, num_gtb. rewrite (num_compare_int _ _ a b Hx Hy).
  rewrite Z.eqb_compare, (Z.ltb_compare b a), (Z.compare_antisym a b).
  destruct (a ?= b); split; reflexivity.
Qed.

Lemma compare_loop_ints (xs ys : list number) (a b : list Z) :
  Forall2 (fun x z => int_value x = Some z) xs a ->
  Forall2 (fun x z => int_value x = Some z) ys b ->
  forall pre1 pre2 : list number,
  length pre1 = length pre2 ->
  compare_loop (pre1 ++ xs) (pre2 ++ ys) (length pre1) (length xs)
  = of_Z <$> loop_result a b.
Proof.
  intros Ha. revert ys b.
  induction Ha as [|x z xs a Hx Ha IH]; intros ys b Hb pre1 pre2 Hlen; [reflexivity|].
  cbn [length compare_loop loop_result].
  destruct Hb as [|y w ys b Hy Hb].
  - rewrite app_nil_r, <- Hlen, Nat.eqb_refl. reflexivity.
  - replace (length (pre2 ++ y :: ys) =? length pre1)%nat with false.
    2:{ symmetry. apply Nat.eqb_neq. rewrite length_app. cbn. lia. }
    rewrite (list_lookup_middle pre1 _ x _ eq_refl).
    rewrite (list_lookup_middle pre2 _ y _ Hlen).
    destruct (num_eqb_int x y z w Hx Hy) as [-> ->].
    destruct (z =? w).
    + rewrite (cons_middle x), (cons_middle y), !app_assoc.
      replace (S (length pre1)) with (length (pre1 ++ [x]))
        by (rewrite length_app; cbn; lia).
      apply (IH ys b Hb). rewrite !length_app. cbn. lia.
    + destruct (w <? z); reflexivity.
Qed.

Lemma valid_values (xs : list number) :
  forallb isValidPart xs = true ->
  Forall2 (fun x z => int_value x = Some z) xs
          (map (fun x => default 0 (int_value x)) xs).
Proof.
  induction xs as [|x xs IH]; cbn [forallb map]; [constructor|].
  intros [Hx Hxs]%andb_prop. constructor; [|apply IH, Hxs].
  unfold isValidPart in Hx. destruct (int_value x); [reflexivity|discriminate Hx].
Qed.

(** [compareVersions] on two strings, whatever they hold: [NaN] when a
    part of either is not valid, else the order of the two lists of
    integers. *)
Lemma compareVersions_values (a b : string) :
  compareVersions (VString a) (VString b)
  = Ok (if valid_version a && valid_version b
        then of_Z (compare_parts (part_values a) (part_values b))
        else NaN).
Proof.
  unfold compareVersions, valid_version, part_values.
  cbn [typeof_is_string negb orb value_split mbind res_bind].
  set (xs := map ToNumber (split_on "." a)). set (ys := map ToNumber (split_on "." b)).
  destruct (forallb isValidPart xs) eqn:Va; cbn [negb orb andb]; [|reflexivity].
  destruct (forallb isValidPart ys) eqn:Vb; cbn [negb orb andb]; [|reflexivity].
  pose proof (compare_loop_ints xs ys _ _ (valid_values xs Va) (valid_values ys Vb)
                [] [] eq_refl) as Hloop.
  cbn [app length] in Hloop. rewrite Hloop, compare_parts_loop, !length_map.
  destruct (loop_result _ _); cbn [fmap option_fmap option_map]; [reflexivity|].
  destruct (negb (length xs =? length ys)%nat); reflexivity.
Qed.

End AnyVersion.

(** X7: [needsUpdate] is monotone in the version, whatever the strings
    hold: when a version needs an update for its number (it is not
    banned), so does every version that [compareVersions] puts below it
    or level with it. The versions are taken as [checkVersion] compares
    them, normalized. *)
Theorem checkVersion_monotone (library : descriptor) (mv : minVersion_t) (v1 v2 : string)
    (r2 : vinfo) :
  minVersion library = Some mv ->
  compareVersions (VString (normalized library v1)) (VString (normalized library v2))
    = Ok (of_Z (-1))
  \/ compareVersions (VString (normalized library v1)) (VString (normalized library v2))
     = Ok (of_Z 0) ->
  banned_hit library (normalized library v2) = false ->
  checkVersion library (VString v2) = Ok r2 -> needsUpdate r2 = true ->
  exists r1, checkVersion library (VString v1) = Ok r1 /\ needsUpdate r1 = true.
Proof.
  intros Hmv H12 Hban Hr2 Hneeds.
  destruct (checkVersion_string library v2 mv Hmv) as (cmp2 & Hcmp2 & Hv2).
  rewrite Hv2 in Hr2. injection Hr2 as <-. cbn [needsUpdate] in Hneeds.
  rewrite Hban, orb_false_r in Hneeds.
  rewrite compareVersions_values in Hcmp2, H12. injection Hcmp2 as <-.
  set (n1 := normalized library v1) in *. set (n2 := normalized library v2) in *.
  set (m := major mv +:+ minor mv) in *.
  destruct (valid_version n1) eqn:V1; cbn [andb] in H12;
    [|destruct H12 as [H|H]; discriminate H].
  destruct (valid_version n2); [|destruct H12 as [H|H]; discriminate H].
  destruct (valid_version m) eqn:Vm; [|discriminate Hneeds].
  cbn [andb] in *.
  assert (H2m : compare_parts (part_values n2) (part_values m) = -1).
  { destruct (compare_parts_range (part_values n2) (part_values m)) as [H|[H|H]];
      rewrite H in Hneeds; [exact H|discriminate Hneeds|discriminate Hneeds]. }
  destruct (checkVersion_string library v1 mv Hmv) as (cmp1 & Hcmp1 & Hv1).
  eexists. split; [exact Hv1|]. cbn [needsUpdate].
  rewrite compareVersions_values in Hcmp1. injection Hcmp1 as <-.
  fold n1 m. rewrite V1, Vm. cbn [andb].
  rewrite (compare_parts_trans _ (part_values n2) _); [reflexivity| |exact H2m].
  destruct H12 as [H|H]; injection H as H; lia.
Qed.

(** jQuery (patch-optional, minimum 1.6.4): ["1.5.2"] needs an update,
    so ["1.4"], compared as ["1.4.0"], does. *)
Definition jQuery_descriptor : descriptor :=
  mkDescriptor (Some "jQuery") (Some (mkMinVersion "1.6." "4")) (Some true) None None None.

(** Modernizr, whose minimum version is written ["1.1."] and compares
    as 1.1.0: ["1.0"] needs an update, so ["0.9"] does. *)
Lemma checkVersion_monotone_witness :
  exists r1,
    checkVersion (mkDescriptor (Some "Modernizr") (Some (mkMinVersion "1.1." "")) None None
                    None None) (VString "0.9") = Ok r1
    /\ needsUpdate r1 = true.
Proof.
  apply (checkVersion_monotone
           (mkDescriptor (Some "Modernizr") (Some (mkMinVersion "1.1." "")) None None None None)
           (mkMinVersion "1.1." "") "0.9" "1.0"
           (mkVinfo (Some "Modernizr") true "1.1." (VString "1.0") None None None));
    [ reflexivity
    | left; vm_compute; reflexivity
    | reflexivity | vm_compute; reflexivity | reflexivity ].
Defined.

(** ** More on checkScript *)

Section ScriptFacts.

Lemma str_prefixb_append (pat post : string) : str_prefixb pat (pat +:+ post) = true.
Proof.
  induction pat as [|a pat IH]; [reflexivity|].
  rewrite append_cons. cbn [str_prefixb]. rewrite Ascii.eqb_refl. exact IH.
Qed.

Lemma str_take_prefix (a b : string) : str_take (strlen a) (a +:+ b) = a.
Proof.
  induction a as [|c a IH]; [destruct b; reflexivity|].
  rewrite append_cons. cbn [strlen String.length str_take]. f_equal. exact IH.
Qed.

(** [split] on a character gives one part more than the text holds
    separators. *)
Lemma split_on_length (sep : ascii) (s : string) :
  length (split_on sep s) = S (count_char sep s).
Proof.
  induction s as [|c s IH]; [reflexivity|]. cbn [split_on count_char].
  destruct (Ascii.eqb c sep); cbn [length]; [rewrite IH; reflexivity|].
  destruct (split_on sep s); [discriminate IH|exact IH].
Qed.

(** An offset other than [-1] is that of the first occurrence. *)
Lemma indexOf_from_first (pat s : string) :
  forall i n : Z,
  indexOf_from pat s i = n -> n <> -1 -> 0 <= i ->
  exists pre post,
    s = pre +:+ pat +:+ post
    /\ n = i + Z.of_nat (strlen pre)
    /\ forall pre' post', s = pre' +:+ pat +:+ post' -> (strlen pre <= strlen pre')%nat.
Proof.
  assert (Hhere : forall s i n, str_prefixb pat s = true -> i = n ->
            exists pre post,
              s = pre +:+ pat +:+ post
              /\ n = i + Z.of_nat (strlen pre)
              /\ forall pre' post', s = pre' +:+ pat +:+ post' ->
                   (strlen pre <= strlen pre')%nat).
  { intros s0 i n Hp <-. destruct (str_prefixb_spec _ _ Hp) as [post ->].
    exists EmptyString, post. repeat split; [cbn; lia|]. intros. cbn. lia. }
  induction s as [|c s IH]; intros i n; cbn [indexOf_from].
  - destruct (str_prefixb pat "") eqn:Hp; [intros; apply Hhere; assumption|].
    intros <- Hne. congruence.
  - destruct (str_prefixb pat (String c s)) eqn:Hp; [intros; apply Hhere; assumption|].
    intros Hn Hne Hi.
    destruct (IH (i + 1) n Hn Hne ltac:(lia)) as (pre & post & -> & -> & Hmin).
    exists (String c pre), post. repeat split.
    + unfold strlen. cbn [String.length]. lia.
    + intros [|c' pre'] post' Hs.
      * change (EmptyString +:+ pat +:+ post') with (pat +:+ post') in Hs.
        rewrite Hs, str_prefixb_append in Hp. discriminate Hp.
      * rewrite append_cons in Hs. injection Hs as _ Hs.
        specialize (Hmin pre' post' Hs). unfold strlen in *. cbn [String.length]. lia.
Qed.

End ScriptFacts.

(** X8: an inline script (address ["embed"]) is never handed to a
    [check] function: [checkScript] passes it whatever the registry
    holds. *)
Theorem checkScript_embed (libs : list library) (c : option string) (site : website) :
  checkScript libs (mkScript "embed" c) site = Ok (mkStatus true None).
Proof.
  unfold checkScript. generalize (mkStatus true None). intros st.
  induction libs as [|lib libs IH]; [reflexivity|]. cbn [scan_libraries jsUrl].
  destruct (truthy_flag (skip (desc lib))); exact IH.
Qed.

(** X9: descriptors flagged [skip] take no part: [checkScript] gives
    what it gives on the registry without them. *)
Theorem checkScript_skips (libs : list library) (js : script) (site : website) :
  checkScript libs js site
  = checkScript (List.filter (fun lib => negb (truthy_flag (skip (desc lib)))) libs) js site.
Proof.
  unfold checkScript. generalize (mkStatus true None). intros st.
  induction libs as [|lib libs IH]; [reflexivity|]. cbn [scan_libraries List.filter].
  destruct (truthy_flag (skip (desc lib))) eqn:Hskip; cbn [negb]; [exact IH|].
  cbn [scan_libraries]. rewrite Hskip, IH. reflexivity.
Qed.

(** X10: when the address of the script occurs in the markup, a
    violation carries the line of its first occurrence: one more than
    the number of line feeds before it. *)
Theorem checkScript_line_of_first_occurrence (libs : list library) (js : script)
    (site : website) (st : status) :
  occurs (jsUrl js) (wcontent site) ->
  checkScript libs js site = Ok st ->
  passed st = false ->
  exists pre post r,
    wcontent site = pre +:+ jsUrl js +:+ post
    /\ (forall pre' post', wcontent site = pre' +:+ jsUrl js +:+ post' ->
          (strlen pre <= strlen pre')%nat)
    /\ data st = Some r
    /\ lineNumber r = Some (S (count_char newline pre)).
Proof.
  intros Hocc Hscan Hfail.
  pose proof (indexOf_from_occurs _ _ 0 ltac:(lia) Hocc) as Hge.
  destruct (indexOf_from_first (jsUrl js) (wcontent site) 0 _ eq_refl ltac:(lia) ltac:(lia))
    as (pre & post & Hs & Hn & Hmin).
  exists pre, post.
  destruct (scan_libraries_status _ _ _ _ _ Hscan) as [->|(r & _ & ->)];
    [discriminate Hfail|].
  eexists. split; [exact Hs|]. split; [exact Hmin|]. split; [reflexivity|].
  cbn [lineNumber]. unfold line_of, indexOf, substr0. rewrite Hn, Z.add_0_l, Nat2Z.id.
  rewrite Hs at 1. rewrite str_take_prefix, split_on_length. reflexivity.
Qed.

(** A page that names the script on its second line. *)
Definition two_line_page : website :=
  mkWebsite "http://example.org/" "http://example.org/"
    ("<html>" +:+ String newline "<script src=swf.js></script>")
    [mkScript "swf.js" (Some "* SWFObject v1.5")].

Lemma checkScript_line_of_first_occurrence_witness :
  exists pre post r,
    wcontent two_line_page = pre +:+ "swf.js" +:+ post
    /\ (forall pre' post', wcontent two_line_page = pre' +:+ "swf.js" +:+ post' ->
          (strlen pre <= strlen pre')%nat)
    /\ data (mkStatus false
               (Some (mkVinfo (Some "SWFObject") true "2.1" (VString "1.5") None
                        (Some "swf.js") (Some 2%nat)))) = Some r
    /\ lineNumber r = Some (S (count_char newline pre)).
Proof.
  apply (checkScript_line_of_first_occurrence default_libraries
           (mkScript "swf.js" (Some "* SWFObject v1.5")) two_line_page).
  - exists ("<html>" +:+ String newline "<script src="), "></script>". reflexivity.
  - vm_compute. reflexivity.
  - reflexivity.
Defined.

(** ** More on the registry in the store *)

Section AliasFacts.




End AliasFacts.



Section OverrideFacts.

(** The merge on defaults with distinct names and overrides that are
    distinct objects, no name being a member of [Object.prototype]. *)
Lemma mergeConfig_holds (h : heap) (ds cs : list loc) :
  allocated h ds -> allocated h cs -> NoDup cs ->
  NoDup (omap truthy_name (objects h ds)) ->
  Forall (fun o => forall nm, truthy_name o = Some nm -> inherited_key nm = false)
         (objects h ds ++ objects h cs) ->
  exists h' out,
    mergeConfig h ds cs = (h', Ok out)
    /\ holds h' out (merge_spec (objects h ds) (objects h cs)).
Proof.
  intros Hds Hcs Hnd Hnames Hkeys. apply Forall_app in Hkeys as [Hkd Hkc].
  destruct (copy_defaults_spec ds h [] ∅ [] (objects h ds))
    as (h1 & nl1 & lm1 & Hcopy & Hkeep & Hfresh & Hlen & Hh1 & Hnd1 & Hi1).
  - constructor.
  - apply allocated_holds, Hds.
  - constructor.
  - apply unique_names_NoDup, Hnames.
  - eapply Forall_impl; [exact Hkd|]. intros o Ho nm Hnm ->.
    specialize (Ho _ Hnm). discriminate Ho.
  - intros nm l. rewrite lookup_empty. split; [discriminate|].
    intros (i & o & Hi & _). discriminate Hi.
  - cbn [app] in *.
    assert (Hin : forall x, x ∈ cs -> is_Some (h !! x)).
    { unfold allocated in Hcs. rewrite Forall_forall in Hcs. exact Hcs. }
    destruct (apply_overrides_spec cs h1 nl1 lm1 (objects h ds) (objects h cs))
      as (h' & out & Hrun & Hout & _); auto.
    + eapply holds_keep; [|apply allocated_holds, Hcs]. intros x Hx. apply Hkeep; auto.
    + intros c Hc Hc'. rewrite Forall_forall in Hfresh. specialize (Hfresh c Hc').
      destruct (Hin c Hc) as [x Hx]. congruence.
    + apply unique_names_NoDup, Hnames.
    + exists h', out. split; [|exact Hout].
      unfold mergeConfig. rewrite Hcopy. exact Hrun.
Qed.

Lemma scan_libraries_overlaid (o : library) (nm : string) (E : list library)
    (js : script) (site : website) (st : status) :
  truthy_flag (skip (desc o)) = true ->
  scan_libraries (map (fun e => if has_name nm e then overlay o e else e) E) js site st
  = scan_libraries (List.filter (fun e => negb (has_name nm e)) E) js site st.
Proof.
  intros Hskip. induction E as [|e E IH]; [reflexivity|].
  cbn [map List.filter]. destruct (has_name nm e); cbn [negb scan_libraries].
  - cbn [overlay desc skip]. unfold truthy_flag in *.
    destruct (skip (desc o)) as [b|]; [|discriminate Hskip].
    cbn [or_else default] in *. rewrite Hskip. exact IH.
  - rewrite IH. reflexivity.
Qed.

Lemma scan_libraries_appended (x : library) (E : list library)
    (js : script) (site : website) (st : status) :
  truthy_flag (skip (desc x)) = true ->
  scan_libraries (E ++ [x]) js site st = scan_libraries E js site st.
Proof.
  intros Hskip. induction E as [|e E IH]; cbn [app scan_libraries].
  - rewrite Hskip. reflexivity.
  - rewrite IH. reflexivity.
Qed.

Lemma filter_none (nm : string) (E : list library) :
  existsb (has_name nm) E = false ->
  List.filter (fun e => negb (has_name nm e)) E = E.
Proof.
  induction E as [|e E IH]; [reflexivity|]. cbn [existsb List.filter].
  intros [He HE]%orb_false_elim. rewrite He, (IH HE). reflexivity.
Qed.


End OverrideFacts.




(** An override that sets nothing but [skip] on the library of a
    name. *)
Definition skip_override (nm : string) : library :=
  mkLibrary (mkDescriptor (Some nm) None None None (Some true) None) None.

(** X13: merging an override that only sets [skip] for a name switches
    the library of that name off: on the merged registry [checkScript]
    gives what it gives on the defaults without that library. *)
Theorem merge_skip_disables (h : heap) (ds : list loc) (c : loc) (nm : string) :
  allocated h ds ->
  NoDup (omap truthy_name (objects h ds)) ->
  Forall (fun o => forall n, truthy_name o = Some n -> inherited_key n = false)
         (objects h ds) ->
  h !! c = Some (skip_override nm) ->
  nm <> EmptyString -> inherited_key nm = false ->
  exists h' out,
    mergeConfig h ds [c] = (h', Ok out)
    /\ forall (js : script) (site : website),
         checkScript (objects h' out) js site
         = checkScript (List.filter (fun e => negb (has_name nm e)) (objects h ds)) js site.
Proof.
  intros Hds Hnames Hkd Hc Hne Hkey.
  assert (Hname : truthy_name (skip_override nm) = Some nm).
  { unfold truthy_name. cbn. destruct nm; [congruence|reflexivity]. }
  assert (Hobj : objects h [c] = [skip_override nm]).
  { unfold objects. cbn. rewrite Hc. reflexivity. }
  destruct (mergeConfig_holds h ds [c]) as (h' & out & Hrun & Hout).
  - exact Hds.
  - repeat constructor. eauto.
  - apply NoDup_singleton.
  - exact Hnames.
  - rewrite Hobj. apply Forall_app. split; [exact Hkd|]. repeat constructor.
    intros n Hn. rewrite Hname in Hn. injection Hn as <-. exact Hkey.
  - exists h', out. split; [exact Hrun|]. intros js site.
    rewrite (holds_objects _ _ _ Hout), Hobj. unfold merge_spec, checkScript.
    cbn [foldl]. unfold apply_override. rewrite Hname.
    destruct (existsb (has_name nm) (objects h ds)) eqn:Hex.
    + apply scan_libraries_overlaid. reflexivity.
    + rewrite scan_libraries_appended by reflexivity.
      rewrite (filter_none nm _ Hex). reflexivity.
Qed.

(** Switching jQuery off in the built-in registry. *)
Lemma merge_skip_disables_witness :
  exists h' out,
    mergeConfig (alloc_all (store loaded) [skip_override "jQuery"]).1
      (original_libraries loaded) [16%nat] = (h', Ok out)
    /\ forall (js : script) (site : website),
         checkScript (objects h' out) js site
         = checkScript
             (List.filter (fun e => negb (has_name "jQuery" e))
                (objects (alloc_all (store loaded) [skip_override "jQuery"]).1
                   (original_libraries loaded))) js site.
Proof.
  apply (merge_skip_disables (alloc_all (store loaded) [skip_override "jQuery"]).1
           (original_libraries loaded) 16%nat "jQuery").
  - apply allocated_check. vm_compute. reflexivity.
  - apply (bool_decide_unpack _). vm_compute. exact I.
  - apply no_inherited_check. vm_compute. reflexivity.
  - vm_compute. reflexivity.
  - discriminate.
  - reflexivity.
Defined.

(** ** More on the built-in checks: what a match captures *)

(** Group [k] lies on every path through the pattern, outside any
    quantifier: a match cannot but capture it. *)
Fixpoint captures (k : nat) (r : regex) : bool :=
  match r with
  | RGroup i a => Nat.eqb i k || captures k a
  | RSeq a b => captures k b || (captures k a && negb (existsb (Nat.eqb k) (groups_of b)))
  | RAlt a b => captures k a && captures k b
  | _ => false
  end.

Section CaptureFacts.

Variables ignoreCase multiline : bool.

Lemma clear_groups_keeps (gs : list nat) (st : mstate) (k : nat) :
  ~ In k gs -> ms_caps (clear_groups gs st) !! k = ms_caps st !! k.
Proof.
  unfold clear_groups. cbn [ms_caps]. induction gs as [|g gs IH]; intros Hk; [reflexivity|].
  cbn [foldr]. rewrite lookup_delete_ne by (intros ->; apply Hk; left; reflexivity).
  apply IH. intros Hin. apply Hk. right. exact Hin.
Qed.

Lemma repeat_match_keeps (step : mstate -> list mstate) (clear : mstate -> mstate)
    (k : nat) :
  (forall st st', In st' (step st) -> ms_caps st' !! k = ms_caps st !! k) ->
  (forall st, ms_caps (clear st) !! k = ms_caps st !! k) ->
  forall (fuel lo : nat) (hi : option nat) (greedy : bool) (st st' : mstate),
  In st' (repeat_match step clear fuel lo hi greedy st) ->
  ms_caps st' !! k = ms_caps st !! k.
Proof.
  intros Hstep Hclear. induction fuel as [|fuel IH]; intros lo hi greedy st st' Hin;
    cbn [repeat_match] in Hin; [destruct Hin|].
  assert (Hmore : forall l : list mstate,
            In st' (flat_map
                      (fun st1 =>
                         if Nat.eqb lo 0 && Nat.eqb (strlen (ms_rest st1)) (strlen (ms_rest st))
                         then []
                         else repeat_match step clear fuel (Nat.pred lo) (Nat.pred <$> hi)
                                greedy st1)
                      l) ->
            (forall st1, In st1 l -> ms_caps st1 !! k = ms_caps st !! k) ->
            ms_caps st' !! k = ms_caps st !! k).
  { intros l Hl Hall. apply in_flat_map in Hl as (st1 & Hst1 & Hl).
    destruct (_ && _); [destruct Hl|]. rewrite (IH _ _ _ _ _ Hl). auto. }
  assert (Hfirst : forall st1, In st1 (step (clear st)) ->
            ms_caps st1 !! k = ms_caps st !! k).
  { intros st1 H1. rewrite (Hstep _ _ H1). apply Hclear. }
  assert (Hself : In st' [st] -> ms_caps st' !! k = ms_caps st !! k).
  { intros [<-|[]]. reflexivity. }
  destruct hi as [[|n]|]; [auto| |];
    (destruct (0 <? lo)%nat; [eauto|]; destruct greedy;
     [apply in_app_iff in Hin as [Hin|Hin]; eauto
     |destruct Hin as [<-|Hin]; [reflexivity|eauto]]).
Qed.

(** A pattern leaves the captures of the groups it does not hold as
    they are. *)
Lemma rmatch_keeps (r : regex) (k : nat) :
  ~ In k (groups_of r) ->
  forall st st', In st' (rmatch ignoreCase multiline r st) ->
  ms_caps st' !! k = ms_caps st !! k.
Proof.
  induction r as [| invert cs | a IHa b IHb | a IHa b IHb | lo hi greedy a IHa
                  | i a IHa | negative a IHa | | | negative];
    cbn [groups_of rmatch]; intros Hk st st' Hin.
  - destruct Hin as [<-|[]]. reflexivity.
  - destruct (ms_rest st) as [|c rest]; [destruct Hin|].
    destruct (set_matches ignoreCase invert cs c); [|destruct Hin].
    destruct Hin as [<-|[]]. reflexivity.
  - apply in_flat_map in Hin as (st1 & H1 & H2).
    rewrite (IHb ltac:(intros H; apply Hk, in_app_iff; auto) _ _ H2).
    apply (IHa ltac:(intros H; apply Hk, in_app_iff; auto) _ _ H1).
  - apply in_app_iff in Hin as [Hin|Hin].
    + apply (IHa ltac:(intros H; apply Hk, in_app_iff; auto) _ _ Hin).
    + apply (IHb ltac:(intros H; apply Hk, in_app_iff; auto) _ _ Hin).
  - eapply repeat_match_keeps; [| |exact Hin].
    + intros s1 s2. apply IHa, Hk.
    + intros s1. apply clear_groups_keeps, Hk.
  - apply in_map_iff in Hin as (st1 & <- & H1). cbn [ms_caps].
    rewrite lookup_insert_ne by (intros ->; apply Hk; left; reflexivity).
    apply (IHa ltac:(intros H; apply Hk; right; exact H) _ _ H1).
  - destruct (rmatch ignoreCase multiline a st) as [|st1 l] eqn:Ha.
    + destruct negative; [|destruct Hin]. destruct Hin as [<-|[]]. reflexivity.
    + destruct negative; [destruct Hin|]. destruct Hin as [<-|[]]. cbn [ms_caps].
      apply (IHa Hk st st1). rewrite Ha. left. reflexivity.
  - destruct (is_line_start multiline st); [|destruct Hin].
    destruct Hin as [<-|[]]. reflexivity.
  - destruct (is_line_end multiline st); [|destruct Hin].
    destruct Hin as [<-|[]]. reflexivity.
  - destruct (xorb negative (at_word_boundary st)); [|destruct Hin].
    destruct Hin as [<-|[]]. reflexivity.
Qed.

Lemma rmatch_captures (r : regex) (k : nat) :
  captures k r = true ->
  forall st st', In st' (rmatch ignoreCase multiline r st) -> is_Some (ms_caps st' !! k).
Proof.
  induction r as [| invert cs | a IHa b IHb | a IHa b IHb | lo hi greedy a IHa
                  | i a IHa | negative a IHa | | | negative];
    cbn [captures rmatch]; try discriminate; intros Hc st st' Hin.
  - apply in_flat_map in Hin as (st1 & H1 & H2).
    apply orb_prop in Hc as [Hb|[Ha Hnot]%andb_prop]; [apply (IHb Hb _ _ H2)|].
    rewrite (rmatch_keeps b k) with (st := st1); [apply (IHa Ha _ _ H1)| |exact H2].
    intros Hin. apply negb_true_iff in Hnot.
    assert (existsb (Nat.eqb k) (groups_of b) = true); [|congruence].
    apply existsb_exists. exists k. split; [exact Hin|apply Nat.eqb_refl].
  - apply andb_prop in Hc as [Ha Hb].
    apply in_app_iff in Hin as [Hin|Hin]; [apply (IHa Ha _ _ Hin)|apply (IHb Hb _ _ Hin)].
  - apply in_map_iff in Hin as (st1 & <- & H1). cbn [ms_caps].
    destruct (Nat.eqb_spec i k) as [->|Hne]; [rewrite lookup_insert_eq; eauto|].
    rewrite lookup_insert_ne by exact Hne. cbn [orb] in Hc. apply (IHa Hc _ _ H1).
Qed.

End CaptureFacts.

Section BuiltinFacts.

(** The first group of a match of a pattern that cannot but capture it
    is a string. *)
Lemma search_group1 (re : regexp) :
  captures 1 (re_body re) = true -> (0 < re_groups re)%nat ->
  forall (s : string) (prev : option ascii) (m : match_result),
  search re prev s = Some m -> exists t, group m 1 = VString t.
Proof.
  intros Hc Hn.
  assert (Hhere : forall prev s st' l m,
            rmatch (re_ignoreCase re) (re_multiline re) (re_body re) (mkState prev s ∅)
            = st' :: l ->
            Some (result_of re (mkState prev s ∅) st') = Some m ->
            exists t, group m 1 = VString t).
  { intros prev s st' l m Hr [= <-].
    destruct (rmatch_captures (re_ignoreCase re) (re_multiline re) _ _ Hc
                (mkState prev s ∅) st') as [t Ht].
    { rewrite Hr. left. reflexivity. }
    exists t. unfold group, result_of. destruct (re_groups re) as [|n]; [lia|].
    cbn. rewrite Ht. reflexivity. }
  induction s as [|c s IH]; intros prev m; rewrite search_unfold;
    destruct (rmatch _ _ _ _) as [|st' l] eqn:Hr; eauto; discriminate.
Qed.

Lemma checkVersion_returns (this : descriptor) (v : string) :
  minVersion this <> None -> exists r, checkVersion this (VString v) = Ok r.
Proof.
  intros Hmv. destruct (minVersion this) as [mv|] eqn:E; [|congruence].
  destruct (checkVersion_string this v mv E) as (cmp & _ & H). eauto.
Qed.

Lemma and_checkVersion_string (this : descriptor) (m : option match_result)
    (f : match_result -> string) :
  minVersion this <> None ->
  exists r, and_checkVersion this m (fun x => VString (f x)) = Ok r.
Proof.
  intros Hmv. destruct m as [x|]; cbn [and_checkVersion]; [|eauto].
  destruct (checkVersion_returns this (f x) Hmv) as [r ->]. cbn. eauto.
Qed.

Lemma and_checkVersion_group1 (this : descriptor) (re : regexp) (text : string) :
  minVersion this <> None ->
  captures 1 (re_body re) = true /\ (0 < re_groups re)%nat ->
  exists r, and_checkVersion this (String_match text re) (fun v => group v 1) = Ok r.
Proof.
  intros Hmv [Hc Hn]. unfold String_match, RegExp_exec.
  destruct (search re None text) as [m|] eqn:Hm; cbn [and_checkVersion]; [|eauto].
  destruct (search_group1 re Hc Hn _ _ _ Hm) as [t ->].
  destruct (checkVersion_returns this t Hmv) as [r ->]. cbn. eauto.
Qed.

End BuiltinFacts.

Ltac parse_pattern E :=
  match goal with
  | |- context [RegExp_new ?p ?f] =>
      let re := fresh "re" in
      destruct (RegExp_new p f) as [re|?] eqn:E; [|vm_compute in E; discriminate E];
      cbn [mbind res_bind]
  end.

Ltac parse_this p f E :=
  let re := fresh "re" in
  destruct (RegExp_new p f) as [re|?] eqn:E; [|vm_compute in E; discriminate E];
  cbn [mbind res_bind].

Ltac captured E := vm_compute in E; injection E as <-; split; [reflexivity|cbn; lia].

Ltac pattern_check f Hmv :=
  let E := fresh "E" in
  unfold f; parse_pattern E; apply and_checkVersion_group1; [exact Hmv|captured E].

Section BuiltinReturns.

Variable this : descriptor.
Variable text : string.
Hypothesis Hmv : minVersion this <> None.

Lemma check_Prototype_returns : exists r, check_Prototype this text = Ok r.
Proof. pattern_check check_Prototype Hmv. Qed.

Lemma check_Dojo_returns : exists r, check_Dojo this text = Ok r.
Proof.
  unfold check_Dojo. destruct (indexOf text "dojo" =? -1); [eauto|].
  parse_this "\.version\s*=\s*\{\s*major:\s*(\d+)\D+(\d+)\D+(\d+)" "m" E1. destruct (String_match text re) as [version|].
  - destruct (checkVersion_returns this
                (group_text version 1 +:+ "." +:+ group_text version 2 +:+ "."
                 +:+ group_text version 3) Hmv) as [r ->].
    cbn. eauto.
  - parse_pattern E2.
    apply (and_checkVersion_string this _
             (fun version => group_text version 1 +:+ "." +:+ group_text version 2 +:+ "."
                             +:+ group_text version 3) Hmv).
Qed.

Lemma check_Mootools_returns : exists r, check_Mootools this text = Ok r.
Proof. pattern_check check_Mootools Hmv. Qed.

Lemma check_SWFObject_returns : exists r, check_SWFObject this text = Ok r.
Proof. pattern_check check_SWFObject Hmv. Qed.

Lemma check_jQueryFormPlugin_returns : exists r, check_jQueryFormPlugin this text = Ok r.
Proof. pattern_check check_jQueryFormPlugin Hmv. Qed.

Lemma check_Modernizr_returns : exists r, check_Modernizr this text = Ok r.
Proof. pattern_check check_Modernizr Hmv. Qed.

Lemma check_jQueryCookie_returns : exists r, check_jQueryCookie this text = Ok r.
Proof. pattern_check check_jQueryCookie Hmv. Qed.

Lemma check_hoverIntent_returns : exists r, check_hoverIntent this text = Ok r.
Proof.
  unfold check_hoverIntent. parse_this "\*\s*hoverIntent v(\d+\.\d+\.\d+)" "m" E1.
  pose proof (and_checkVersion_group1 this re text Hmv) as H1.
  destruct (String_match text re) as [version|].
  - apply H1. captured E1.
  - parse_pattern E2.
    apply (and_checkVersion_string this _
             (fun version => "1." +:+ group_text version 1 +:+ ".0") Hmv).
Qed.

Lemma check_jQueryEasing_returns : exists r, check_jQueryEasing this text = Ok r.
Proof. pattern_check check_jQueryEasing Hmv. Qed.

Lemma check_underscore_returns : exists r, check_underscore this text = Ok r.
Proof. pattern_check check_underscore Hmv. Qed.

Lemma check_hammer_returns : exists r, check_hammer this text = Ok r.
Proof.
  unfold check_hammer. destruct (negb _); [|eauto].
  parse_pattern E. apply and_checkVersion_group1; [exact Hmv|captured E].
Qed.

Lemma check_jQuerySuperfish_returns : exists r, check_jQuerySuperfish this text = Ok r.
Proof. pattern_check check_jQuerySuperfish Hmv. Qed.

Lemma check_jQueryMousewheel_returns : exists r, check_jQueryMousewheel this text = Ok r.
Proof. pattern_check check_jQueryMousewheel Hmv. Qed.

Lemma check_jQueryMobile_returns : exists r, check_jQueryMobile this text = Ok r.
Proof. pattern_check check_jQueryMobile Hmv. Qed.

Lemma check_jQueryUI_returns : exists r, check_jQueryUI this text = Ok r.
Proof. pattern_check check_jQueryUI Hmv. Qed.

End BuiltinReturns.

Ltac by_lemma L :=
  let r := fresh "r" in
  let Hr := fresh "Hr" in
  destruct L as [r Hr]; eexists; exists r; split; [reflexivity|exact Hr].

Section RegistryFacts.

Lemma builtins_return (this : descriptor) (text : string) :
  minVersion this <> None ->
  Forall (fun lib => exists f r, lib_check lib = Some f /\ f this text = Ok r)
         (removelast default_libraries).
Proof.
  intros Hmv. unfold default_libraries. cbn [removelast].
  repeat first [apply List.Forall_nil | apply List.Forall_cons].
  - by_lemma (check_Prototype_returns this text Hmv).
  - by_lemma (check_Dojo_returns this text Hmv).
  - by_lemma (check_Mootools_returns this text Hmv).
  - by_lemma (check_SWFObject_returns this text Hmv).
  - by_lemma (check_jQueryFormPlugin_returns this text Hmv).
  - by_lemma (check_Modernizr_returns this text Hmv).
  - by_lemma (check_jQueryCookie_returns this text Hmv).
  - by_lemma (check_hoverIntent_returns this text Hmv).
  - by_lemma (check_jQueryEasing_returns this text Hmv).
  - by_lemma (check_underscore_returns this text Hmv).
  - by_lemma (check_hammer_returns this text Hmv).
  - by_lemma (check_jQuerySuperfish_returns this text Hmv).
  - by_lemma (check_jQueryMousewheel_returns this text Hmv).
  - by_lemma (check_jQueryMobile_returns this text Hmv).
  - by_lemma (check_jQueryUI_returns this text Hmv).
Qed.

(** Each built-in descriptor has a minimum version. *)
Lemma builtins_minVersion :
  Forall (fun lib => minVersion (desc lib) <> None) default_libraries.
Proof. unfold default_libraries. repeat constructor; discriminate. Qed.

Lemma elem_of_removelast {A : Type} (x : A) (l : list A) : x ∈ removelast l -> x ∈ l.
Proof.
  induction l as [|a l IH]; [auto|]. cbn [removelast].
  destruct l as [|b l]; [intros H; apply elem_of_nil in H as []|].
  intros [->|H]%elem_of_cons; [apply list_elem_of_here|].
  apply list_elem_of_further, IH, H.
Qed.

Lemma builtins_return_own (js : script) :
  Forall (fun lib => returns lib js = true) (removelast default_libraries).
Proof.
  apply Forall_forall. intros lib Hlib.
  assert (Hmv : minVersion (desc lib) <> None).
  { pose proof builtins_minVersion as H. rewrite Forall_forall in H.
    apply H, elem_of_removelast, Hlib. }
  pose proof (builtins_return (desc lib) (script_text js) Hmv) as H.
  rewrite Forall_forall in H. destruct (H lib Hlib) as (f & r & Hf & Hr).
  unfold returns. rewrite Hf, Hr. apply orb_true_r.
Qed.

(** The scan passes over descriptors that return and report nothing. *)
Lemma scan_libraries_pass (l1 l2 : list library) (js : script) (site : website)
    (st : status) :
  Forall (fun lib => returns lib js = true /\ report lib js = None) l1 ->
  scan_libraries (l1 ++ l2) js site st = scan_libraries l2 js site st.
Proof.
  induction 1 as [|lib l1 [Hret Hrep] _ IH]; [reflexivity|].
  cbn [app scan_libraries]. unfold returns, report, script_text in *.
  destruct (truthy_flag (skip (desc lib))); [exact IH|].
  destruct (String.eqb (jsUrl js) "embed"); [exact IH|].
  cbn [orb negb] in *.
  destruct (lib_check lib) as [f|]; [|discriminate Hret]. cbn [mbind res_bind].
  destruct (f (desc lib) (default "" (content js))) as [[r|]|e];
    [| exact IH | discriminate Hret].
  cbn [mbind res_bind]. destruct (needsUpdate r); [discriminate Hrep|exact IH].
Qed.

Lemma report_none_check (libs : list library) (js : script) :
  forallb (fun lib => match report lib js with None => true | Some _ => false end) libs = true ->
  Forall (fun lib => report lib js = None) libs.
Proof.
  intros H. apply Forall_forall. intros lib Hlib. rewrite forallb_forall in H.
  specialize (H lib ltac:(apply list_elem_of_In; exact Hlib)).
  destruct (report lib js); [discriminate H|reflexivity].
Qed.

End RegistryFacts.

(** X14: each built-in check other than that of jQuery returns on
    every script text, called on any descriptor that has a [minVersion]
    (its own, or a copy overlaid by a merge): it gives a result or a
    falsy value, and never throws. *)
Theorem builtin_checks_return (this : descriptor) (text : string) :
  minVersion this <> None ->
  Forall (fun lib => exists f r, lib_check lib = Some f /\ f this text = Ok r)
         (removelast default_libraries).
Proof. apply builtins_return. Qed.

Lemma builtin_checks_return_witness :
  Forall (fun lib => exists f r,
            lib_check lib = Some f /\ f jQuery_descriptor "* SWFObject v1.5" = Ok r)
         (removelast default_libraries).
Proof.
  apply (builtin_checks_return jQuery_descriptor "* SWFObject v1.5"). discriminate.
Defined.

(** X15: the check of jQuery puts the text its header pattern matched
    into a new pattern as it is. When that text is not a pattern (it
    holds an unbalanced parenthesis, say), the constructor throws a
    [SyntaxError], and so does [check] on a page whose first script is
    such a text and holds no other outdated library: its promise is
    never resolved. *)
Theorem check_throws_on_header (site : website) (js0 : script) (rest : list script)
    (re : regexp) (m : match_result) :
  js site = js0 :: rest ->
  String.eqb (jsUrl js0) "embed" = false ->
  Forall (fun lib => report lib js0 = None) (removelast default_libraries) ->
  RegExp_new "(?:jQuery\s*v)(\d+.\d+.\d+)\s" "g" = Ok re ->
  RegExp_exec re (script_text js0) = Some m ->
  RegExp_new ("(?::\s*)" +:+ group_text m 0) "g" = Throw SyntaxError ->
  check_jQuery jQuery_descriptor (script_text js0) = Throw SyntaxError
  /\ check default_libraries site = Throw SyntaxError.
Proof.
  intros Hjs Hembed Hnone Hre Hexec Hplugin.
  assert (Hthrow : forall this, check_jQuery this (script_text js0) = Throw SyntaxError).
  { intros this. unfold check_jQuery. rewrite Hre. cbn [mbind res_bind].
    rewrite Hexec, Hplugin. reflexivity. }
  split; [apply Hthrow|].
  unfold check. rewrite Hjs. cbn [scan_scripts]. unfold checkScript.
  change default_libraries
    with (removelast default_libraries ++ [builtin "jQuery" "1.6." "4" (Some true) check_jQuery]).
  rewrite scan_libraries_pass.
  - cbn [scan_libraries builtin desc skip truthy_flag default lib_check mbind res_bind].
    rewrite Hembed. cbn [negb mbind res_bind].
    fold (script_text js0). rewrite Hthrow. reflexivity.
  - pose proof (builtins_return_own js0) as Hret.
    rewrite Forall_forall in *. intros lib Hlib. split; auto.
Qed.

(** A script that opens with a header holding a parenthesis. *)
Definition header_pattern : regexp :=
  match RegExp_new "(?:jQuery\s*v)(\d+.\d+.\d+)\s" "g" with
  | Ok re => re
  | Throw _ => mkRegExp REmpty 0 false false false
  end.

Definition crafted_script : script := mkScript "a.js" (Some "jQuery v1(2.3 ").

Definition crafted_page : website :=
  mkWebsite "http://example.org/" "http://example.org/" "<script src=a.js></script>"
    [crafted_script].

Definition crafted_match : match_result :=
  default [] (RegExp_exec header_pattern (script_text crafted_script)).

Lemma check_throws_on_header_witness :
  check_jQuery jQuery_descriptor (script_text crafted_script) = Throw SyntaxError
  /\ check default_libraries crafted_page = Throw SyntaxError.
Proof.
  apply (check_throws_on_header crafted_page crafted_script [] header_pattern crafted_match).
  - reflexivity.
  - reflexivity.
  - apply report_none_check. vm_compute. reflexivity.
  - vm_compute. reflexivity.
  - vm_compute. reflexivity.
  - vm_compute. reflexivity.
Defined.

(** ** More on defaultCheck *)

Lemma checkVersion_returns_any (this : descriptor) (v : value) :
  minVersion this <> None -> truthy_flag (patchOptional this) = false ->
  exists r, checkVersion this v = Ok r.
Proof.
  intros Hmv Hflag. destruct v as [| | b | x | t]; [| | | |apply checkVersion_returns, Hmv];
    unfold checkVersion; destruct (minVersion this) as [mv|]; try congruence;
    rewrite Hflag; cbn [mbind res_bind];
    unfold compareVersions; cbn [typeof_is_string negb orb mbind res_bind];
    destruct (bannedVersions this); cbn [is_banned]; eauto.
Qed.

(** X28: the generic check given to an appended override, on a
    descriptor whose [match] is a valid pattern: it returns [null] on a
    text the pattern does not match; it throws a [TypeError] on every
    text the pattern matches when the descriptor has no [minVersion];
    and it returns on every text when the descriptor has a [minVersion]
    and either is not [patchOptional] or has a pattern whose first group
    every match captures. *)
Theorem defaultCheck_outcomes (this : descriptor) (text : string) (re : regexp) :
  RegExp_new (default "" (match_ this)) "m" = Ok re ->
  (String_match text re = None -> defaultCheck this text = Ok None)
  /\ (minVersion this = None -> String_match text re <> None ->
      defaultCheck this text = Throw TypeError)
  /\ (minVersion this <> None ->
      truthy_flag (patchOptional this) = false
      \/ (captures 1 (re_body re) = true /\ (0 < re_groups re)%nat) ->
      exists r, defaultCheck this text = Ok r).
Proof.
  intros Hre. unfold defaultCheck. rewrite Hre. cbn [mbind res_bind]. repeat split.
  - intros ->. reflexivity.
  - intros Hmv Hm. destruct (String_match text re) as [m|]; [|congruence].
    cbn [and_checkVersion]. unfold checkVersion. rewrite Hmv. reflexivity.
  - intros Hmv [Hflag|Hcap]; [|apply and_checkVersion_group1; assumption].
    destruct (String_match text re) as [m|]; cbn [and_checkVersion]; [|eauto].
    destruct (checkVersion_returns_any this (group m 1) Hmv Hflag) as [r ->]. cbn. eauto.
Qed.

(** The override for a library named Foo, on a text that names an old
    version of it. *)
Definition foo_pattern : regexp :=
  match RegExp_new "Foo v(\d+\.\d+)" "m" with
  | Ok re => re
  | Throw _ => mkRegExp REmpty 0 false false false
  end.

Lemma defaultCheck_outcomes_witness :
  (String_match "/* Foo v1.2 */" foo_pattern = None ->
   defaultCheck (desc foo_override) "/* Foo v1.2 */" = Ok None)
  /\ (minVersion (desc foo_override) = None ->
      String_match "/* Foo v1.2 */" foo_pattern <> None ->
      defaultCheck (desc foo_override) "/* Foo v1.2 */" = Throw TypeError)
  /\ (minVersion (desc foo_override) <> None ->
      truthy_flag (patchOptional (desc foo_override)) = false
      \/ (captures 1 (re_body foo_pattern) = true /\ (0 < re_groups foo_pattern)%nat) ->
      exists r, defaultCheck (desc foo_override) "/* Foo v1.2 */" = Ok r).
Proof.
  apply (defaultCheck_outcomes (desc foo_override) "/* Foo v1.2 */" foo_pattern).
  vm_compute. reflexivity.
Defined.

(** ** More on the module: loading and merging again *)

Section ModuleFacts.

Lemma alloc_all_holds (objs : list library) :
  forall h : heap, holds (alloc_all h objs).1 (alloc_all h objs).2 objs.
Proof.
  induction objs as [|o objs IH]; intros h; cbn [alloc_all]; [constructor|].
  pose proof (IH (<[fresh (dom h) := o]> h)) as Hrest.
  pose proof (alloc_all_keeps objs (<[fresh (dom h) := o]> h) (fresh (dom h))) as Hkeep.
  destruct (alloc_all (<[fresh (dom h) := o]> h) objs) as [h' ls]. cbn [fst snd] in *.
  constructor; [|exact Hrest].
  rewrite Hkeep; rewrite lookup_insert_eq; eauto.
Qed.

(** Operations keep [original_libraries] and the objects it holds. *)
Lemma operations_keep (ops : list operation) :
  forall st0 : state,
  allocated (store st0) (original_libraries st0) ->
  original_libraries (foldl run_operation st0 ops) = original_libraries st0
  /\ forall l, l ∈ original_libraries st0 ->
       store (foldl run_operation st0 ops) !! l = store st0 !! l.
Proof.
  induction ops as [|op ops IH]; intros st0 Halloc; [split; reflexivity|].
  cbn [foldl]. destruct (run_operation_keeps st0 op Halloc) as [Ho Hs].
  destruct (IH (run_operation st0 op)) as [Ho' Hs'].
  - unfold allocated in *. rewrite Forall_forall in *. intros l Hl.
    rewrite Ho in Hl. rewrite Hs by assumption. auto.
  - split; [congruence|]. intros l Hl. rewrite Hs', Hs; [reflexivity|assumption|].
    rewrite Ho. assumption.
Qed.

Lemma objects_same (h h' : heap) (ls : list loc) :
  (forall l, l ∈ ls -> h' !! l = h !! l) -> objects h' ls = objects h ls.
Proof.
  unfold objects. induction ls as [|l ls IH]; intros Hs; [reflexivity|].
  cbn [omap list_omap]. rewrite Hs by apply list_elem_of_here.
  rewrite IH; [reflexivity|]. intros x Hx. apply Hs, list_elem_of_further, Hx.
Qed.

(** However the module was loaded, [original_libraries] holds the
    built-in registry. *)
Lemma load_originals (libconfig : option (list library)) (st : state) :
  load libconfig = Ok st ->
  allocated (store st) (original_libraries st)
  /\ objects (store st) (original_libraries st) = default_libraries.
Proof.
  unfold load. pose proof (alloc_all_holds default_libraries ∅) as Hh.
  destruct (alloc_all ∅ default_libraries) as [h libs]. cbn [fst snd] in Hh.
  destruct libconfig as [cfg|].
  2:{ intros [= <-]. cbn [store original_libraries].
      split; [exact (holds_allocated _ _ _ Hh)|exact (holds_objects _ _ _ Hh)]. }
  pose proof (alloc_all_keeps cfg h) as Hkeep.
  destruct (alloc_all h cfg) as [h1 locs]. cbn [fst] in Hkeep.
  assert (Hh1 : holds h1 libs default_libraries).
  { eapply holds_keep; [|exact Hh]. intros l Hl. apply Hkeep.
    pose proof (holds_allocated _ _ _ Hh) as Ha. unfold allocated in Ha.
    rewrite Forall_forall in Ha. auto. }
  pose proof (mergeConfig_protects h1 libs locs (holds_allocated _ _ _ Hh1)) as Hp.
  destruct (mergeConfig h1 libs locs) as [h2 [out|e]]; [|discriminate].
  intros [= <-]. cbn [store original_libraries fst] in *.
  assert (Hh2 : holds h2 libs default_libraries) by (eapply holds_keep; eauto).
  split; [exact (holds_allocated _ _ _ Hh2)|exact (holds_objects _ _ _ Hh2)].
Qed.

End ModuleFacts.

(** ** Objects named [__proto__]

    An override named [__proto__] makes [mergeConfig] write its
    properties onto [Object.prototype], which every descriptor inherits
    from; a default of that name would replace the prototype of
    [libmap]. Neither is modelled. Where no object is so named, no
    merge ever gets there. *)

(** No merge of the sequence goes outside what is modelled. *)
Fixpoint supported (st : state) (ops : list operation) : Prop :=
  match ops with
  | [] => True
  | op :: rest =>
      (merge (mkModule (alloc_all (store st) op.1).1 (libraries st) (original_libraries st))
             op.2).2 <> Throw Unsupported
      /\ supported (run_operation st op) rest
  end.

Section PlainFacts.

Lemma plain_overlay (config t : library) :
  plain config -> plain t -> plain (overlay config t).
Proof.
  unfold plain, truthy_name. cbn [overlay desc name].
  destruct (name (desc config)) as [x|]; cbn [or_else]; auto.
Qed.

Lemma all_plain_insert (h : heap) (l : loc) (o : library) :
  all_plain h -> plain o -> all_plain (<[l := o]> h).
Proof.
  intros Hh Ho x y [[_ <-]|[_ Hx]]%lookup_insert_Some; [exact Ho|exact (Hh _ _ Hx)].
Qed.

Lemma alloc_all_plain (objs : list library) :
  forall h : heap, all_plain h -> Forall plain objs -> all_plain (alloc_all h objs).1.
Proof.
  induction objs as [|o objs IH]; intros h Hh Hobjs; cbn [alloc_all]; [exact Hh|].
  apply Forall_cons_1 in Hobjs as [Ho Hobjs].
  specialize (IH (<[fresh (dom h) := o]> h) (all_plain_insert _ _ _ Hh Ho) Hobjs).
  destruct (alloc_all (<[fresh (dom h) := o]> h) objs) as [h' ls]. exact IH.
Qed.

Lemma copy_defaults_plain (ds : list loc) :
  forall (h : heap) (nl : list loc) (lm : gmap string loc),
  all_plain h ->
  all_plain (copy_defaults h ds nl lm).1
  /\ forall e, (copy_defaults h ds nl lm).2 = Throw e -> e = TypeError.
Proof.
  induction ds as [|d ds IH]; intros h nl lm Hh; cbn [copy_defaults].
  - split; [exact Hh|discriminate].
  - destruct (h !! d) as [library|] eqn:Hd; [|split; [exact Hh|intros e [= <-]; reflexivity]].
    pose proof (Hh _ _ Hd) as Hp.
    assert (Hh1 : all_plain (<[fresh (dom h) := library]> h))
      by (apply all_plain_insert; assumption).
    unfold plain, truthy_name in Hp.
    destruct (name (desc library)) as [nm|]; [|apply IH, Hh1].
    destruct (is_empty nm); [apply IH, Hh1|].
    destruct (String.eqb_spec nm "__proto__") as [->|_]; [|apply IH, Hh1].
    exfalso. apply (Hp "__proto__"); reflexivity.
Qed.

Lemma apply_overrides_plain (cs : list loc) :
  forall (h : heap) (nl : list loc) (lm : gmap string loc),
  all_plain h ->
  all_plain (apply_overrides h cs nl lm).1
  /\ forall e, (apply_overrides h cs nl lm).2 = Throw e -> e = TypeError.
Proof.
  induction cs as [|c cs IH]; intros h nl lm Hh; cbn [apply_overrides].
  - split; [exact Hh|discriminate].
  - destruct (h !! c) as [config|] eqn:Hc; [|split; [exact Hh|intros e [= <-]; reflexivity]].
    pose proof (Hh _ _ Hc) as Hp. rewrite truthy_name_string.
    destruct (truthy_name config) as [nm|] eqn:Hnm; cbn [negb]; [|apply IH, Hh].
    destruct (truthy_name_default _ _ Hnm) as [-> _].
    unfold libmap_get. destruct (lm !! nm) as [target|].
    + destruct (h !! target) as [t|] eqn:Ht;
        [|split; [exact Hh|intros e [= <-]; reflexivity]].
      apply IH, all_plain_insert; [exact Hh|].
      apply plain_overlay; [exact Hp|exact (Hh _ _ Ht)].
    + destruct (String.eqb_spec nm "__proto__") as [->|_].
      { exfalso. apply (Hp "__proto__"); [exact Hnm|reflexivity]. }
      destruct (existsb (String.eqb nm) Object_prototype_methods);
        [split; [exact Hh|intros e [= <-]; reflexivity]|].
      apply IH, all_plain_insert; [exact Hh|]. exact Hp.
Qed.

Lemma mergeConfig_plain (h : heap) (ds cs : list loc) :
  all_plain h ->
  all_plain (mergeConfig h ds cs).1
  /\ forall e, (mergeConfig h ds cs).2 = Throw e -> e = TypeError.
Proof.
  intros Hh. unfold mergeConfig.
  destruct (copy_defaults_plain ds h [] ∅ Hh) as [H1 H2].
  destruct (copy_defaults h ds [] ∅) as [h1 [[nl lm]|e]]; cbn [fst snd] in *.
  - apply apply_overrides_plain, H1.
  - split; [exact H1|]. intros e' [= <-]. apply H2. reflexivity.
Qed.

Lemma run_operation_plain (st : state) (op : operation) :
  all_plain (store st) -> Forall plain op.1 ->
  all_plain (store (run_operation st op))
  /\ (merge (mkModule (alloc_all (store st) op.1).1 (libraries st) (original_libraries st))
            op.2).2 <> Throw Unsupported.
Proof.
  intros Hh Hobjs. destruct op as [objs config]. unfold run_operation. cbn [fst snd] in *.
  pose proof (alloc_all_plain objs (store st) Hh Hobjs) as Hh1.
  destruct (alloc_all (store st) objs) as [h ls]. cbn [fst] in *.
  destruct config as [cs|]; cbn [merge store original_libraries fst snd];
    [|split; [exact Hh1|discriminate]].
  destruct (mergeConfig_plain h (original_libraries st) cs Hh1) as [H1 H2].
  destruct (mergeConfig h (original_libraries st) cs) as [h' [out|e]];
    cbn [fst snd store] in *; (split; [exact H1|]); [discriminate|].
  intros [= ->]. specialize (H2 _ eq_refl). discriminate H2.
Qed.

Lemma operations_plain (ops : list operation) :
  forall st0 : state,
  all_plain (store st0) -> Forall (fun op => Forall plain op.1) ops ->
  supported st0 ops /\ all_plain (store (foldl run_operation st0 ops)).
Proof.
  induction ops as [|op ops IH]; intros st0 Hh Hops; cbn [supported foldl]; [auto|].
  apply Forall_cons_1 in Hops as [Hop Hops].
  destruct (run_operation_plain st0 op Hh Hop) as [H1 H2].
  destruct (IH (run_operation st0 op) H1 Hops) as [H3 H4]. auto.
Qed.

Lemma builtins_plain : Forall plain default_libraries.
Proof. apply plain_check. vm_compute. reflexivity. Qed.

Lemma load_plain (libconfig : option (list library)) (st : state) :
  Forall plain (default [] libconfig) -> load libconfig = Ok st -> all_plain (store st).
Proof.
  intros Hcfg. unfold load.
  assert (H0 : all_plain (alloc_all ∅ default_libraries).1).
  { apply alloc_all_plain; [|exact builtins_plain].
    intros l o Hl. rewrite lookup_empty in Hl. discriminate Hl. }
  destruct (alloc_all ∅ default_libraries) as [h libs]. cbn [fst] in H0.
  destruct libconfig as [cfg|]; [|intros [= <-]; exact H0]. cbn [default] in Hcfg.
  pose proof (alloc_all_plain cfg h H0 Hcfg) as H1.
  destruct (alloc_all h cfg) as [h1 locs]. cbn [fst] in H1.
  destruct (mergeConfig_plain h1 libs locs H1) as [H2 _].
  destruct (mergeConfig h1 libs locs) as [h2 [out|e]]; [|discriminate].
  intros [= <-]. exact H2.
Qed.

Lemma plain_operations_check (ops : list operation) :
  forallb (fun op : operation =>
             forallb (fun o => match truthy_name o with
                               | Some nm => negb (String.eqb nm "__proto__")
                               | None => true
                               end) op.1) ops = true ->
  Forall (fun op : operation => Forall plain op.1) ops.
Proof.
  intros H. apply Forall_forall. intros op Hop. apply plain_check.
  rewrite forallb_forall in H. apply H, list_elem_of_In, Hop.
Qed.

End PlainFacts.

(** X26: [original_libraries] is saved before the entries of
    [check-libs.json] are merged in: a reset discards them too. Where
    no object handed to the module (an entry of the file, an object of
    a later caller) is named [__proto__], after any sequence of merges a
    [merge] without argument makes [check] run against the built-in
    registry again; and no merge of the sequence writes to
    [Object.prototype]. *)
Theorem reset_discards_file_overrides (libconfig : option (list library)) (st0 : state)
    (ops : list operation) (site : website) :
  Forall plain (default [] libconfig) ->
  Forall (fun op : operation => Forall plain op.1) ops ->
  load libconfig = Ok st0 ->
  supported st0 ops
  /\ check_active (merge (foldl run_operation st0 ops) None).1 site
     = check default_libraries site.
Proof.
  intros Hcfg Hops Hload. split.
  - exact (proj1 (operations_plain ops st0 (load_plain _ _ Hcfg Hload) Hops)).
  - destruct (load_originals _ _ Hload) as [Halloc Hobj].
    destruct (operations_keep ops st0 Halloc) as [Ho Hs].
    unfold check_active. cbn [merge fst store libraries]. rewrite Ho.
    rewrite (objects_same (store st0) _ _ Hs), Hobj. reflexivity.
Qed.

(** The module loaded with a file of two overrides, merged again, and
    reset. *)
Definition loaded_with_file : state :=
  match load (Some [foo_override; foo_skip]) with
  | Ok st => st
  | Throw _ => mkModule ∅ [] []
  end.

Lemma reset_discards_file_overrides_witness :
  supported loaded_with_file [([foo_skip], Some [0; 16]%nat)]
  /\ check_active
       (merge (foldl run_operation loaded_with_file [([foo_skip], Some [0; 16]%nat)]) None).1
       two_outdated_scripts
     = check default_libraries two_outdated_scripts.
Proof.
  apply (reset_discards_file_overrides (Some [foo_override; foo_skip]) loaded_with_file
           [([foo_skip], Some [0; 16]%nat)] two_outdated_scripts).
  - apply plain_check. vm_compute. reflexivity.
  - apply plain_operations_check. vm_compute. reflexivity.
  - unfold loaded_with_file.
    destruct (load (Some [foo_override; foo_skip])) as [st|e] eqn:E; [reflexivity|].
    apply (f_equal (fun r => match r with Ok _ => true | Throw _ => false end)) in E.
    vm_compute in E. discriminate E.
Defined.

(** X27: merges do not add up. Where no object handed to the module is
    named [__proto__], whatever was merged before, [merge] with a list
    of overrides (none named after a member of [Object.prototype])
    starts from the saved defaults: the registry it installs is new
    copies of the built-in descriptors with the overrides of that list
    alone applied to them, in the way of [mergeConfig]: a nameless
    override passed over, an override whose name no entry has appended
    itself with the generic check, any other laid over the entry of its
    name. *)
Theorem merge_starts_from_defaults (libconfig : option (list library)) (st0 : state)
    (ops : list operation) (cs : list loc) :
  let st := foldl run_operation st0 ops in
  Forall plain (default [] libconfig) ->
  Forall (fun op : operation => Forall plain op.1) ops ->
  load libconfig = Ok st0 ->
  allocated (store st) cs ->
  Forall (fun o => forall nm, truthy_name o = Some nm -> inherited_key nm = false)
         (objects (store st) cs) ->
  supported st0 ops
  /\ exists h0 copies,
       Forall (fun l => store st !! l = None) copies
       /\ NoDup copies
       /\ holds h0 copies default_libraries
       /\ (forall l, is_Some (store st !! l) -> h0 !! l = store st !! l)
       /\ merge st (Some cs)
          = (mkModule (merge_registry h0 copies cs).1 (merge_registry h0 copies cs).2
               (original_libraries st0),
             Ok (merge_registry h0 copies cs).2).
Proof.
  intros st Hcfg Hops Hload Hcs Hkeys.
  destruct (operations_plain ops st0 (load_plain _ _ Hcfg Hload) Hops) as [Hsup Hplain].
  split; [exact Hsup|].
  destruct (load_originals _ _ Hload) as [Halloc Hobj0].
  destruct (operations_keep ops st0 Halloc) as [Ho Hs]. fold st in Ho, Hs, Hplain.
  pose proof (objects_same (store st0) (store st) _ Hs) as Hobj.
  rewrite Hobj0 in Hobj.
  destruct (mergeConfig_registry (store st) (original_libraries st0) cs)
    as (h0 & copies & Hfresh & Hnd & Hh0 & Hkeep & Hrun & _).
  - unfold allocated in *. rewrite Forall_forall in *. intros l Hl.
    rewrite Hs by assumption. auto.
  - exact Hcs.
  - rewrite Hobj. apply (bool_decide_unpack _). vm_compute. exact I.
  - rewrite Hobj. exact builtins_plain.
  - exact Hkeys.
  - exists h0, copies. rewrite Hobj in Hh0. repeat split; try assumption.
    cbn [merge]. rewrite Ho, Hrun. reflexivity.
Qed.

Definition merged_once : state :=
  foldl run_operation loaded [([foo_override; foo_skip], Some [16; 17]%nat)].

Lemma merge_starts_from_defaults_witness :
  supported loaded [([foo_override; foo_skip], Some [16; 17]%nat)]
  /\ exists h0 copies,
       Forall (fun l => store merged_once !! l = None) copies
       /\ NoDup copies
       /\ holds h0 copies default_libraries
       /\ (forall l, is_Some (store merged_once !! l) -> h0 !! l = store merged_once !! l)
       /\ merge merged_once (Some [17; 17]%nat)
          = (mkModule (merge_registry h0 copies [17; 17]%nat).1
               (merge_registry h0 copies [17; 17]%nat).2 (original_libraries loaded),
             Ok (merge_registry h0 copies [17; 17]%nat).2).
Proof.
  apply (merge_starts_from_defaults None loaded
           [([foo_override; foo_skip], Some [16; 17]%nat)] [17; 17]%nat).
  - constructor.
  - apply plain_operations_check. vm_compute. reflexivity.
  - unfold loaded. destruct (load None) as [st|e] eqn:E; [reflexivity|].
    apply (f_equal (fun r => match r with Ok _ => true | Throw _ => false end)) in E.
    vm_compute in E. discriminate E.
  - apply allocated_check. vm_compute. reflexivity.
  - apply no_inherited_check. vm_compute. reflexivity.
Defined.

End CheckLibs.


(* ================================================================== *)
(** * Part III. check-same-markup                                      *)
(* ================================================================== *)

Module CheckSameMarkup.

(** ** Configuration ([config.js]) *)

Record element_config : Type := mkElementConfig {
  ename : string;
  threshold : option number
}.

Record config_t : Type := mkConfig {
  check_markup_elements : list element_config;
  check_markup_default_threshold : number;
  check_markup_exclude_list : list string;
  user_agent_chrome : string
}.

(** ** Responses and results *)

(** The body [request] hands to its callback. The defaults set
    [encoding: null], so a body is a Buffer, and a Buffer is truthy
    whatever its length; [NoBody] stands for the falsy bodies
    ([undefined], the empty string). *)
Inductive body_t : Type :=
| Buffer (bytes : list Byte.byte)
| NoBody.

Record response : Type := mkResponse {
  content_encoding : option string
}.

(** [if (response.headers['content-encoding'])]: the header is there
    and is not the empty string. *)
Definition truthy_header (h : option string) : bool :=
  match h with
  | Some v => negb (is_empty v)
  | None => false
  end.

(** What a request comes back with: [(err, response, body)]. *)
Inductive fetched : Type :=
| FetchError (err : string)
| Fetched (r : response) (b : body_t).

(** What [zlib] calls back with: [(err, data)]. *)
Inductive inflated : Type :=
| Inflated (data : list Byte.byte)
| InflateError (err : string).

Record decoded : Type := mkDecoded {
  body : string;
  compression : string
}.

(** How a promise ends: resolved, rejected, or left pending because the
    callback that was to settle it threw. *)
Inductive settled (A : Type) : Type :=
| Resolved (a : A)
| Rejected (reason : string)
| Thrown (e : error).

Arguments Resolved {A} a.
Arguments Rejected {A} reason.
Arguments Thrown {A} e.

Record element_result : Type := mkElementResult {
  element : string;
  ethreshold : number;
  edgeCount : nat;
  chromeCount : nat;
  epassed : bool
}.

Record comparison_t : Type := mkComparison {
  cpassed : bool;
  results : list element_result
}.

Inductive result_data : Type :=
| Message (s : string)
| Results (l : list element_result).

Record result : Type := mkResult {
  testName : string;
  passed : bool;
  excluded : option bool;
  transient : option bool;
  data : result_data
}.

(** A check that issues requests: it is done, or it issues a request
    (address and User-Agent) and goes on with what comes back. *)
Inductive io (A : Type) : Type :=
| Done (a : A)
| Request (href user_agent : string) (k : fetched -> io A).

Arguments Done {A} a.
Arguments Request {A} href user_agent k.

(** Running a check against the answers of the network, in order: the
    outcome and the requests issued, as (address, User-Agent). *)
Fixpoint run {A : Type} (c : io A) (network : list fetched)
    : option (A * list (string * string)) :=
  match c with
  | Done a => Some (a, [])
  | Request href user_agent k =>
      match network with
      | [] => None
      | f :: rest =>
          '(a, issued) ← run (k f) rest;
          Some (a, (href, user_agent) :: issued)
      end
  end.

Section Analyzer.

(** What the analyzer takes from outside the file: [zlib] ([gunzip],
    [inflateRaw]); [Buffer.toString(encoding)]; the variable [charset],
    which the file reads but does not declare, so it is looked up on
    the global object ([None] when there is none, and reading it then
    throws, the file being in strict mode); [cheerio] (loading a
    document with the options of [compareMarkup], selecting elements,
    reading a style property); [config.js]. *)
Variable gunzip : body_t -> inflated.
Variable inflateRaw : body_t -> inflated.
Variable toString : list Byte.byte -> string -> string.
Variable charset : option string.
Variable document : Type.
Variable node : Type.
Variable cheerio_load : string -> document.
Variable select : document -> string -> list node.
Variable css : node -> string -> option string.

Variable config : config_t.

Definition is_value (v : option string) (s : string) : bool :=
  match v with
  | Some x => String.eqb x s
  | None => false
  end.

Definition countElements (doc : document) (elementName : string) : nat :=
  length (filter (fun el => negb (is_value (css el "display") "none")
                            && negb (is_value (css el "visibility") "hidden"))
                 (select doc elementName)).

(** [{ body: data.toString(charset), compression: ... }] *)
Definition decode (data : list Byte.byte) (compression : string) : settled decoded :=
  match charset with
  | Some cs => Resolved (mkDecoded (toString data cs) compression)
  | None => Thrown ReferenceError
  end.

Definition decompress (b : body_t) (type : string) : settled decoded :=
  if String.eqb type "gzip" then
    match gunzip b with
    | Inflated data => decode data "gzip"
    | InflateError err => Rejected ("Error found: can't gunzip content " +:+ err)
    end
  else if String.eqb type "deflate" then
    match inflateRaw b with
    | Inflated data => decode data "deflate"
    | InflateError err => Rejected ("Error found: can't deflate content" +:+ err)
    end
  else Rejected ("Unknown content encoding: " +:+ type).

Definition getBody (r : response) (b : body_t) : settled decoded :=
  if truthy_header (content_encoding r)
  then decompress b (default "" (content_encoding r))
  else match b with
       | Buffer bytes => decode bytes "none"
       | NoBody => Rejected "Error found: Empty body"
       end.

Definition isExcluded (siteUrl : string) : bool :=
  existsb (fun x => -1 <? indexOf siteUrl x) (check_markup_exclude_list config).

(** [a / b] on two counts, [b] positive. *)
Definition ratio (a b : nat) : number :=
  if Nat.eqb a 0 then Fin 0 0 else round_ratio (Z.of_nat a) (Z.of_nat b).

(** [elementConfig.threshold || config.check_markup_default_threshold] *)
Definition effective_threshold (e : element_config) : number :=
  match threshold e with
  | Some t => if num_truthy t then t else check_markup_default_threshold config
  | None => check_markup_default_threshold config
  end.

Definition compareElement (edge chrome : document) (elementConfig : element_config)
    : element_result :=
  let elementName := ename elementConfig in
  let elementThreshold := effective_threshold elementConfig in
  let edgeCount := countElements edge elementName in
  let chromeCount := countElements chrome elementName in
  let maxCount := Nat.max edgeCount chromeCount in
  mkElementResult elementName elementThreshold edgeCount chromeCount
    (if (maxCount <=? 0)%nat then true
     else num_geb (ratio (Nat.min edgeCount chromeCount) maxCount) elementThreshold).

(** The loop of [compareMarkup] over the configured elements. *)
Fixpoint compare_elements (edge chrome : document) (elements : list element_config)
    (passed : bool) (elementResults : list element_result) : comparison_t :=
  match elements with
  | [] => mkComparison passed elementResults
  | elementConfig :: rest =>
      let elementResult := compareElement edge chrome elementConfig in
      compare_elements edge chrome rest (passed && epassed elementResult)
        (elementResults ++ [elementResult])
  end.

Definition compareMarkup (markup1 markup2 : string) : comparison_t :=
  let edge := cheerio_load markup1 in
  let chrome := cheerio_load markup2 in
  compare_elements edge chrome (check_markup_elements config) true [].

Definition excluded_message : string :=
  "The site was excluded for this test. See the 'check_markup_exclude_list' setting.".

Definition transient_message : string :=
  "Site candidate for exclude list. The HTML markup for this site presents differences on each request regardless of the user agent.".

(** [getBody(...).then(resolved, rejected)] inside [check]: a rejection
    rejects the check; a promise left pending leaves the check
    pending. *)
Definition then_ (p : settled decoded) (resolved : decoded -> io (settled result))
    : io (settled result) :=
  match p with
  | Resolved r => resolved r
  | Rejected e => Done (Rejected e)
  | Thrown e => Done (Thrown e)
  end.

Definition check (site : website) : io (settled result) :=
  if isExcluded (originalUrl site) then
    Done (Resolved (mkResult "markup" true (Some true) None (Message excluded_message)))
  else
    Request (url_href site) (user_agent_chrome config) (fun f =>
      match f with
      | FetchError err => Done (Rejected err)
      | Fetched response body1 =>
          then_ (getBody response body1) (fun r =>
            let edgeMarkup := wcontent site in
            let chromeMarkup := body r in
            let compareResults := compareMarkup edgeMarkup chromeMarkup in
            if cpassed compareResults then
              Done (Resolved (mkResult "markup" (cpassed compareResults) None None
                                (Results (results compareResults))))
            else
              Request (url_href site) (user_agent_chrome config) (fun f2 =>
                match f2 with
                | FetchError err2 => Done (Rejected err2)
                | Fetched response2 body2 =>
                    then_ (getBody response2 body2) (fun r2 =>
                      let chromeMarkup2 := body r2 in
                      let compareResults2 := compareMarkup chromeMarkup chromeMarkup2 in
                      Done (Resolved
                        (mkResult "markup"
                           (negb (cpassed compareResults2))
                           None
                           (Some (negb (cpassed compareResults2)))
                           (if cpassed compareResults2
                            then Results (results compareResults)
                            else Message transient_message))))
                end))
      end).

(** ** Facts: the comparison *)

(** The threshold of an element as the specification words it: the
    threshold of the element when it has one, else the default. *)
Definition stated_threshold (e : element_config) : number :=
  match threshold e with
  | Some t => t
  | None => check_markup_default_threshold config
  end.

(** A threshold that is there and is neither zero nor NaN. *)
Definition usable_threshold (e : element_config) : bool :=
  match threshold e with
  | Some t => num_truthy t
  | None => false
  end.

Lemma compare_elements_spec (edge chrome : document) (elements : list element_config) :
  forall (passed : bool) (elementResults : list element_result),
  compare_elements edge chrome elements passed elementResults
  = mkComparison
      (passed && forallb epassed (map (compareElement edge chrome) elements))
      (elementResults ++ map (compareElement edge chrome) elements).
Proof.
  induction elements as [|e elements IH]; intros passed elementResults.
  - cbn. rewrite andb_true_r, app_nil_r. reflexivity.
  - cbn [compare_elements map forallb]. rewrite IH, <- app_assoc, andb_assoc.
    reflexivity.
Qed.

(** C8 (amended): [compareMarkup] yields one result per configured
    element, in order, and passes exactly when each of them does. The
    result of an element holds its name, the counts of its visible
    elements in the two documents and the threshold used: the threshold
    of the element when it has one that is neither zero nor NaN, else
    the default. The element passes exactly when both counts are zero
    or [min / max >= threshold], the quotient being the Number the
    division yields. *)
Theorem compareMarkup_per_element (markup1 markup2 : string) :
  let edge := cheerio_load markup1 in
  let chrome := cheerio_load markup2 in
  let c := compareMarkup markup1 markup2 in
  results c = map (compareElement edge chrome) (check_markup_elements config)
  /\ cpassed c = forallb epassed (results c)
  /\ forall e : element_config,
       let r := compareElement edge chrome e in
       element r = ename e
       /\ edgeCount r = countElements edge (ename e)
       /\ chromeCount r = countElements chrome (ename e)
       /\ ethreshold r = (if usable_threshold e then stated_threshold e
                          else check_markup_default_threshold config)
       /\ (epassed r = true <->
           (edgeCount r = 0 /\ chromeCount r = 0)%nat
           \/ num_geb (ratio (Nat.min (edgeCount r) (chromeCount r))
                             (Nat.max (edgeCount r) (chromeCount r)))
                      (ethreshold r) = true).
Proof.
  cbv zeta. unfold compareMarkup. rewrite compare_elements_spec.
  cbn [results cpassed app andb]. split; [reflexivity|]. split; [reflexivity|].
  intros e. unfold compareElement.
  cbn [element edgeCount chromeCount ethreshold epassed].
  repeat (split; [reflexivity|]). split.
  - unfold effective_threshold, usable_threshold, stated_threshold.
    destruct (threshold e) as [t|]; reflexivity.
  - set (a := countElements (cheerio_load markup1) (ename e)).
    set (b := countElements (cheerio_load markup2) (ename e)).
    destruct (Nat.leb_spec (Nat.max a b) 0) as [Hle|Hlt].
    + split; [intros _; left; lia | reflexivity].
    + split; [intros H; right; exact H | intros [[Ha Hb]|H]; [lia | exact H]].
Qed.

(** ** Facts: the body of a response *)

(** No encoding is declared: the header is absent, or empty. *)
Definition undeclared (r : response) : Prop :=
  content_encoding r = None \/ content_encoding r = Some "".

Lemma undeclared_falsy (r : response) :
  undeclared r -> truthy_header (content_encoding r) = false.
Proof. intros [H|H]; rewrite H; reflexivity. Qed.

Lemma declared_truthy (r : response) (type : string) :
  content_encoding r = Some type -> type <> "" ->
  truthy_header (content_encoding r) = true
  /\ default "" (content_encoding r) = type.
Proof.
  intros H Hne. rewrite H. split; [|reflexivity].
  destruct type; [contradiction|reflexivity].
Qed.

(** Where a global [charset] is defined, [getBody] settles as
    follows. Under a declared encoding [gzip] (resp. [deflate]) the body
    goes through [gunzip] (resp. [inflateRaw]) and the promise resolves
    with the inflated data as text, or is rejected when [zlib] reports
    an error. Under any other declared encoding it is rejected with
    ["Unknown content encoding: "] and the encoding. Without a declared
    encoding, a body that is there resolves to its text as it is, and a
    body that is not is rejected with ["Error found: Empty body"]. *)
Lemma getBody_resolution (cs : string) (r : response) (b : body_t) :
  charset = Some cs ->
  (content_encoding r = Some "gzip" ->
   getBody r b = match gunzip b with
                 | Inflated data => Resolved (mkDecoded (toString data cs) "gzip")
                 | InflateError err =>
                     Rejected ("Error found: can't gunzip content " +:+ err)
                 end)
  /\ (content_encoding r = Some "deflate" ->
      getBody r b = match inflateRaw b with
                    | Inflated data => Resolved (mkDecoded (toString data cs) "deflate")
                    | InflateError err =>
                        Rejected ("Error found: can't deflate content" +:+ err)
                    end)
  /\ (forall type, content_encoding r = Some type ->
      type <> "" -> type <> "gzip" -> type <> "deflate" ->
      getBody r b = Rejected ("Unknown content encoding: " +:+ type))
  /\ (undeclared r -> forall bytes, b = Buffer bytes ->
      getBody r b = Resolved (mkDecoded (toString bytes cs) "none"))
  /\ (undeclared r -> b = NoBody -> getBody r b = Rejected "Error found: Empty body").
Proof.
  intros Hcs. unfold getBody, decompress, decode. rewrite Hcs.
  repeat split.
  - intros H. rewrite H. reflexivity.
  - intros H. rewrite H. reflexivity.
  - intros type H Hne Hgz Hdf.
    destruct (declared_truthy r type H Hne) as [-> ->].
    apply String.eqb_neq in Hgz, Hdf. rewrite Hgz, Hdf. reflexivity.
  - intros H bytes ->. rewrite (undeclared_falsy r H). reflexivity.
  - intros H ->. rewrite (undeclared_falsy r H). reflexivity.
Qed.

(** Where there is no global [charset], a body that is there and
    carries no declared encoding settles nothing: reading the variable
    throws. *)
Lemma getBody_without_charset (r : response) (bytes : list Byte.byte) :
  charset = None -> undeclared r -> getBody r (Buffer bytes) = Thrown ReferenceError.
Proof.
  intros Hcs H. unfold getBody, decode. rewrite Hcs, (undeclared_falsy r H). reflexivity.
Qed.


(** ** Facts: the requests of [check] *)

(** C2: on a site that is not excluded, when the first answer decodes
    and its markup fails the comparison with the markup of the site,
    [check] issues one more request, to the same address under the same
    User-Agent, whatever comes back; and when that answer decodes too,
    its markup is compared with that of the first answer: if this
    comparison fails, [check] resolves with [passed=true],
    [transient=true] and the message; if it passes, with
    [passed=false] and the element results of the first comparison. *)
Theorem check_retries_on_mismatch (site : website) (r1 : response) (b1 : body_t)
    (d1 : decoded) :
  isExcluded (originalUrl site) = false ->
  getBody r1 b1 = Resolved d1 ->
  cpassed (compareMarkup (wcontent site) (body d1)) = false ->
  let requests := [ (url_href site, user_agent_chrome config);
                    (url_href site, user_agent_chrome config) ] in
  (forall f2 : fetched,
     exists outcome, run (check site) [Fetched r1 b1; f2] = Some (outcome, requests))
  /\ forall (r2 : response) (b2 : body_t) (d2 : decoded),
       getBody r2 b2 = Resolved d2 ->
       run (check site) [Fetched r1 b1; Fetched r2 b2]
       = Some (Resolved
                 (if cpassed (compareMarkup (body d1) (body d2))
                  then mkResult "markup" false None (Some false)
                         (Results (results (compareMarkup (wcontent site) (body d1))))
                  else mkResult "markup" true None (Some true)
                         (Message transient_message)),
               requests).
Proof.
  intros Hex H1 Hfail requests. unfold check. rewrite Hex.
  cbn [run mbind option_bind]. rewrite H1. cbn [then_]. rewrite Hfail.
  cbn [run mbind option_bind]. split.
  - intros [err|r2 b2]; [eexists; reflexivity|].
    destruct (getBody r2 b2); cbn [then_ run mbind option_bind]; eexists; reflexivity.
  - intros r2 b2 d2 H2. rewrite H2. cbn [then_ run mbind option_bind].
    destruct (cpassed (compareMarkup (body d1) (body d2))); reflexivity.
Qed.

(** ** More on the comparison: thresholds and the ratio *)

Section RatioFacts.

(** Two finite Numbers compare as their significands do on any common
    scale. *)
Lemma num_compare_scaled (m1 e1 m2 e2 K : Z) :
  K <= e1 -> K <= e2 ->
  num_compare (Fin m1 e1) (Fin m2 e2)
  = Some (m1 * 2 ^ (e1 - K) ?= m2 * 2 ^ (e2 - K)).
Proof.
  intros H1 H2. cbn [num_compare]. f_equal. set (k := Z.min e1 e2).
  replace (2 ^ (e1 - K)) with (2 ^ (e1 - k) * 2 ^ (k - K))
    by (rewrite <- Z.pow_add_r by lia; f_equal; lia).
  replace (2 ^ (e2 - K)) with (2 ^ (e2 - k) * 2 ^ (k - K))
    by (rewrite <- Z.pow_add_r by lia; f_equal; lia).
  rewrite !Z.mul_assoc. apply Zmult_compare_compat_r.
  assert (0 < 2 ^ (k - K)) by (apply Z.pow_pos_nonneg; lia). lia.
Qed.

Lemma floor_log2_ratio_le (a b : Z) : 0 < a <= b -> floor_log2_ratio a b <= 0.
Proof.
  intros H. unfold floor_log2_ratio.
  assert (Z.log2 a <= Z.log2 b) by (apply Z.log2_le_mono; lia).
  destruct (if 0 <=? Z.log2 a - Z.log2 b then _ else _); lia.
Qed.

(** The quotient of two counts, the smaller by the larger, lies
    between 0 and 1. *)
Lemma round_ratio_unit (a b : Z) :
  0 < a <= b ->
  exists q e, round_ratio a b = Fin q e /\ e < 0 /\ 0 <= q <= 2 ^ (- e).
Proof.
  intros H. pose proof (floor_log2_ratio_le a b H) as Hl.
  unfold round_ratio. cbv zeta. set (l := floor_log2_ratio a b) in *.
  set (e := Z.max (l - 52) (-1074)). assert (He : e < 0) by lia.
  destruct (Z.ltb_spec e 0) as [_|]; [|lia].
  assert (HP : 0 < 2 ^ (- e)) by (apply Z.pow_pos_nonneg; lia).
  set (P := 2 ^ (- e)) in *.
  pose proof (Z.div_mod (a * P) b ltac:(lia)) as Hdm.
  pose proof (Z.mod_pos_bound (a * P) b ltac:(lia)) as Hr.
  assert (Hq0 : 0 <= a * P / b) by (apply Z.div_pos; nia).
  set (q := a * P / b) in *. set (r := (a * P) mod b) in *.
  assert (Hq : q <= P) by nia.
  assert (Hq1 : b <= 2 * r -> q + 1 <= P) by nia.
  destruct (Z.ltb_spec 971 e); [lia|]. destruct (Z.eqb_spec e 971); [lia|]. cbn [orb andb].
  destruct (Z.ltb_spec (2 * r) b).
  - exists q, e. split; [reflexivity|]. lia.
  - destruct (Z.ltb_spec b (2 * r)); [exists (q + 1), e; split; [reflexivity|lia]|].
    destruct (Z.even q); [exists q, e|exists (q + 1), e]; (split; [reflexivity|lia]).
Qed.


Lemma ratio_unit (a b : nat) :
  (a <= b)%nat -> (0 < b)%nat ->
  exists q e, ratio a b = Fin q e /\ e <= 0 /\ 0 <= q <= 2 ^ (- e).
Proof.
  intros Hab Hb. unfold ratio. destruct (Nat.eqb_spec a 0).
  - exists 0, 0. split; [reflexivity|]. cbn. lia.
  - destruct (round_ratio_unit (Z.of_nat a) (Z.of_nat b) ltac:(lia)) as (q & e & -> & He & Hq).
    exists q, e. split; [reflexivity|]. lia.
Qed.


(** A threshold of at most 0 is met by every quotient. *)
Lemma geb_nonpositive (q e : Z) (t : number) :
  0 <= q -> num_leb t (of_Z 0) = true -> num_geb (Fin q e) t = true.
Proof.
  intros Hq. unfold num_leb, num_geb, of_Z. destruct t as [|[|]|m e']; try discriminate;
    [reflexivity|].
  set (K := Z.min (Z.min e e') 0).
  rewrite (num_compare_scaled m e' 0 0 K), (num_compare_scaled q e m e' K) by lia.
  assert (0 < 2 ^ (e - K)) by (apply Z.pow_pos_nonneg; lia).
  assert (0 < 2 ^ (e' - K)) by (apply Z.pow_pos_nonneg; lia).
  destruct (Z.compare_spec (m * 2 ^ (e' - K)) (0 * 2 ^ (0 - K))); try discriminate; intros _;
    destruct (Z.compare_spec (q * 2 ^ (e - K)) (m * 2 ^ (e' - K))); try reflexivity; nia.
Qed.

(** A threshold above 1 is met by no quotient of the smaller count by
    the larger. *)
Lemma geb_above_one (q e : Z) (t : number) :
  e <= 0 -> 0 <= q <= 2 ^ (- e) -> num_gtb t (of_Z 1) = true -> num_geb (Fin q e) t = false.
Proof.
  intros He Hq. unfold num_gtb, num_geb, of_Z. destruct t as [|[|]|m e']; try discriminate;
    [reflexivity|].
  set (K := Z.min (Z.min e e') 0).
  rewrite (num_compare_scaled m e' 1 0 K), (num_compare_scaled q e m e' K) by lia.
  assert (Hs : 2 ^ (- e) * 2 ^ (e - K) = 2 ^ (0 - K))
    by (rewrite <- Z.pow_add_r by lia; f_equal; lia).
  assert (0 < 2 ^ (e - K)) by (apply Z.pow_pos_nonneg; lia).
  destruct (Z.compare_spec (m * 2 ^ (e' - K)) (1 * 2 ^ (0 - K))); try discriminate; intros _;
    destruct (Z.compare_spec (q * 2 ^ (e - K)) (m * 2 ^ (e' - K))); try reflexivity; nia.
Qed.


End RatioFacts.

Lemma cpassed_results (markup1 markup2 : string) :
  cpassed (compareMarkup markup1 markup2)
  = forallb epassed (results (compareMarkup markup1 markup2)).
Proof. unfold compareMarkup. rewrite compare_elements_spec. reflexivity. Qed.

(** X16: the verdict of the comparison does not depend on which
    document comes first: the element results mirror each other (the
    counts swapped) and pass or fail together. *)
Theorem compareMarkup_symmetric (markup1 markup2 : string) :
  cpassed (compareMarkup markup1 markup2) = cpassed (compareMarkup markup2 markup1)
  /\ Forall2 (fun r r' => element r = element r' /\ ethreshold r = ethreshold r'
                          /\ edgeCount r = chromeCount r' /\ chromeCount r = edgeCount r'
                          /\ epassed r = epassed r')
       (results (compareMarkup markup1 markup2)) (results (compareMarkup markup2 markup1)).
Proof.
  assert (Hel : forall e,
            epassed (compareElement (cheerio_load markup1) (cheerio_load markup2) e)
            = epassed (compareElement (cheerio_load markup2) (cheerio_load markup1) e)).
  { intros e. unfold compareElement. cbn [epassed].
    rewrite Nat.max_comm, Nat.min_comm. reflexivity. }
  unfold compareMarkup. rewrite !compare_elements_spec. cbn [cpassed results app andb].
  split.
  - induction (check_markup_elements config) as [|e l IH]; [reflexivity|].
    cbn [map forallb]. rewrite IH, Hel. reflexivity.
  - induction (check_markup_elements config) as [|e l IH]; [constructor|].
    cbn [map]. constructor; [|exact IH]. repeat split. apply Hel.
Qed.



(** X18: a threshold in force of at most 0 lets the element pass
    whatever the counts; one above 1 lets it pass only when neither
    document holds the element. *)
Theorem compareElement_threshold_bounds (edge chrome : document) (e : element_config) :
  (num_leb (effective_threshold e) (of_Z 0) = true ->
   epassed (compareElement edge chrome e) = true)
  /\ (num_gtb (effective_threshold e) (of_Z 1) = true ->
      (epassed (compareElement edge chrome e) = true <->
       countElements edge (ename e) = 0%nat /\ countElements chrome (ename e) = 0%nat)).
Proof.
  unfold compareElement. cbn [epassed].
  set (a := countElements edge (ename e)). set (b := countElements chrome (ename e)).
  destruct (Nat.leb_spec (Nat.max a b) 0) as [Hz|Hpos].
  - split; [reflexivity|]. intros _. split; [lia|reflexivity].
  - destruct (ratio_unit (Nat.min a b) (Nat.max a b) ltac:(lia) Hpos) as (q & x & -> & Hx & Hq).
    split.
    + apply geb_nonpositive. lia.
    + intros Ht. rewrite (geb_above_one q x _ Hx Hq Ht). split; [discriminate|lia].
Qed.

(** ** More on the body of a response and on [check] *)

Lemma isExcluded_occurs (siteUrl : string) :
  isExcluded siteUrl = true <->
  exists x, In x (check_markup_exclude_list config) /\ CheckLibs.occurs x siteUrl.
Proof.
  assert (Hocc : forall x, (-1 <? indexOf siteUrl x) = true <-> CheckLibs.occurs x siteUrl).
  { intros x. split.
    - intros H. apply Z.ltb_lt in H.
      destruct (CheckLibs.indexOf_from_first x siteUrl 0 _ eq_refl) as (pre & post & Hs & _);
        [unfold indexOf in H; lia|lia|].
      exists pre, post. exact Hs.
    - intros H. apply Z.ltb_lt.
      pose proof (CheckLibs.indexOf_from_occurs x siteUrl 0 ltac:(lia) H). unfold indexOf. lia. }
  unfold isExcluded. rewrite existsb_exists. split; intros (x & Hin & Hx); exists x;
    (split; [exact Hin|apply Hocc, Hx]).
Qed.

(** X19: a site is excluded exactly when its address holds an entry of
    the exclude list as a substring; so an empty entry excludes every
    site. *)
Theorem isExcluded_substring (siteUrl : string) :
  (isExcluded siteUrl = true <->
   exists x, In x (check_markup_exclude_list config) /\ CheckLibs.occurs x siteUrl)
  /\ (In EmptyString (check_markup_exclude_list config) -> isExcluded siteUrl = true).
Proof.
  split; [apply isExcluded_occurs|]. intros Hin. apply isExcluded_occurs.
  exists EmptyString. split; [exact Hin|]. exists EmptyString, siteUrl. reflexivity.
Qed.

(** X20: a site whose original address holds an entry of the exclude
    list is not fetched: whatever the network would answer, [check]
    issues no request and resolves with [passed=true] and
    [excluded=true]. *)
Theorem check_excluded (site : website) (network : list fetched) (entry : string) :
  In entry (check_markup_exclude_list config) ->
  CheckLibs.occurs entry (originalUrl site) ->
  run (check site) network
  = Some (Resolved (mkResult "markup" true (Some true) None (Message excluded_message)), []).
Proof.
  intros Hin Hocc. unfold check.
  rewrite (proj2 (isExcluded_occurs (originalUrl site))) by eauto. reflexivity.
Qed.

(** X21: when the first comparison passes, [check] makes no second
    request: it resolves with [passed=true] and the element results. *)
Theorem check_passes_at_once (site : website) (r1 : response) (b1 : body_t) (d1 : decoded)
    (rest : list fetched) :
  isExcluded (originalUrl site) = false ->
  getBody r1 b1 = Resolved d1 ->
  cpassed (compareMarkup (wcontent site) (body d1)) = true ->
  run (check site) (Fetched r1 b1 :: rest)
  = Some (Resolved (mkResult "markup" true None None
                      (Results (results (compareMarkup (wcontent site) (body d1))))),
          [(url_href site, user_agent_chrome config)]).
Proof.
  intros Hex H1 Hpass. unfold check. rewrite Hex. cbn [run mbind option_bind].
  rewrite H1. cbn [then_]. rewrite Hpass. reflexivity.
Qed.


(** X23: the result [check] resolves with agrees with the element
    results it carries: with results as data, [passed] holds exactly
    when every element passed (a failed check names a failing element);
    with a message as data the check passed. *)
Theorem check_result_consistent (site : website) (network : list fetched)
    (res : result) (issued : list (string * string)) :
  run (check site) network = Some (Resolved res, issued) ->
  match data res with
  | Results rs => passed res = forallb epassed rs
  | Message _ => passed res = true
  end.
Proof.
  intros H. unfold check in H.
  destruct (isExcluded (originalUrl site)); [injection H as <- _; reflexivity|].
  destruct network as [|f1 network]; [discriminate H|]. cbn [run mbind option_bind] in H.
  destruct f1 as [err|r1 b1]; cbn [run mbind option_bind] in H; [discriminate H|].
  destruct (getBody r1 b1) as [d1|reason|e]; cbn [then_ run mbind option_bind] in H;
    try discriminate H.
  pose proof (cpassed_results (wcontent site) (body d1)) as Hc1.
  destruct (cpassed (compareMarkup (wcontent site) (body d1))) eqn:Hp1;
    cbn [run mbind option_bind] in H.
  { injection H as <- _. cbn [data passed]. exact Hc1. }
  destruct network as [|f2 network]; [discriminate H|]. cbn [run mbind option_bind] in H.
  destruct f2 as [err|r2 b2]; cbn [run mbind option_bind] in H; [discriminate H|].
  destruct (getBody r2 b2) as [d2|reason|e]; cbn [then_ run mbind option_bind] in H;
    try discriminate H.
  injection H as <- _. cbn [data passed].
  destruct (cpassed (compareMarkup (body d1) (body d2))); cbn [negb]; [exact Hc1|reflexivity].
Qed.


End Analyzer.

(** ** A small instance

    Stand-ins for the libraries, to run the analyzer on: [zlib] that
    stores, text as bytes, and documents in which every character is an
    element named by it ([x] being a hidden one). *)

Definition stored (b : body_t) : inflated :=
  match b with
  | Buffer bytes => Inflated bytes
  | NoBody => InflateError "TypeError: Invalid non-string/buffer chunk"
  end.

Definition text (bytes : list Byte.byte) (encoding : string) : string :=
  string_of_list_byte bytes.

Definition letters (markup : string) : list ascii := list_ascii_of_string markup.

Definition named (doc : list ascii) (elementName : string) : list ascii :=
  filter (fun c => String.eqb (String c EmptyString) elementName) doc.

Definition style (el : ascii) (property : string) : option string :=
  if Ascii.eqb el "x" && String.eqb property "display" then Some "none" else None.

Definition paragraphs (t : option number) : config_t :=
  mkConfig [mkElementConfig "p" t] (round_ratio 9 10) ["bing.com"] "Chrome".

Definition example_site : website :=
  mkWebsite "http://example.org/" "http://example.org/" "ppp" [].

Definition page (markup : string) : fetched :=
  Fetched (mkResponse None) (Buffer (list_byte_of_string markup)).

(** C8, as it stands, fails for an element whose threshold is 0: the
    default threshold is used in its place, so one paragraph against two
    fails under the default 0.9 although [1 / 2 >= 0]. *)
Lemma compareMarkup_zero_threshold_replaced :
  ~ (forall (document node : Type) (cheerio_load : string -> document)
            (select : document -> string -> list node)
            (css : node -> string -> option string) (config : config_t)
            (markup1 markup2 : string) (e : element_config),
       e ∈ check_markup_elements config ->
       let r := compareElement document node select css config
                  (cheerio_load markup1) (cheerio_load markup2) e in
       epassed r = true <->
       (edgeCount r = 0 /\ chromeCount r = 0)%nat
       \/ num_geb (ratio (Nat.min (edgeCount r) (chromeCount r))
                         (Nat.max (edgeCount r) (chromeCount r)))
                  (stated_threshold config e) = true).
Proof.
  intros H.
  specialize (H (list ascii) ascii letters named style (paragraphs (Some (Fin 0 0)))
                "p" "pp" (mkElementConfig "p" (Some (Fin 0 0)))
                ltac:(apply list_elem_of_here)).
  cbv zeta in H. destruct H as [_ H].
  assert (E : epassed (compareElement (list ascii) ascii named style
                         (paragraphs (Some (Fin 0 0))) (letters "p") (letters "pp")
                         (mkElementConfig "p" (Some (Fin 0 0)))) = false)
    by (vm_compute; reflexivity).
  rewrite E in H. discriminate H. right. vm_compute. reflexivity.
Qed.

(** The site of three paragraphs, answered with one paragraph, then
    with two: the answers differ from each other too. *)
Lemma check_retries_on_mismatch_witness :
  (forall f2 : fetched,
     exists outcome,
       run (check stored stored text (Some "utf8") (list ascii) ascii letters named style
              (paragraphs None) example_site) [page "p"; f2]
       = Some (outcome, [ ("http://example.org/", "Chrome");
                          ("http://example.org/", "Chrome") ]))
  /\ run (check stored stored text (Some "utf8") (list ascii) ascii letters named style
            (paragraphs None) example_site) [page "p"; page "pp"]
     = Some (Resolved (mkResult "markup" true None (Some true) (Message transient_message)),
             [ ("http://example.org/", "Chrome"); ("http://example.org/", "Chrome") ]).
Proof.
  pose proof (check_retries_on_mismatch stored stored text (Some "utf8") (list ascii) ascii
                letters named style (paragraphs None) example_site
                (mkResponse None) (Buffer (list_byte_of_string "p"))
                (mkDecoded "p" "none") eq_refl eq_refl eq_refl) as [Hreq Hres].
  split; [exact Hreq|].
  exact (Hres (mkResponse None) (Buffer (list_byte_of_string "pp"))
              (mkDecoded "pp" "none") eq_refl).
Defined.

(** A gzip answer under the storing [zlib], an answer in an encoding
    the analyzer does not know, and answers without declared
    encoding. *)
Lemma getBody_resolution_witness :
  getBody stored stored text (Some "utf8") (mkResponse (Some "gzip"))
    (Buffer (list_byte_of_string "pp"))
  = Resolved (mkDecoded "pp" "gzip")
  /\ getBody stored stored text (Some "utf8") (mkResponse (Some "br"))
       (Buffer (list_byte_of_string "pp"))
     = Rejected "Unknown content encoding: br"
  /\ getBody stored stored text (Some "utf8") (mkResponse None)
       (Buffer (list_byte_of_string "pp"))
     = Resolved (mkDecoded "pp" "none")
  /\ getBody stored stored text (Some "utf8") (mkResponse None) NoBody
     = Rejected "Error found: Empty body".
Proof.
  split; [|split; [|split]].
  - exact (proj1 (getBody_resolution stored stored text (Some "utf8") "utf8"
                    (mkResponse (Some "gzip")) (Buffer (list_byte_of_string "pp"))
                    eq_refl) eq_refl).
  - refine (proj1 (proj2 (proj2 (getBody_resolution stored stored text (Some "utf8") "utf8"
                    (mkResponse (Some "br")) (Buffer (list_byte_of_string "pp"))
                    eq_refl))) "br" eq_refl _ _ _); discriminate.
  - refine (proj1 (proj2 (proj2 (proj2 (getBody_resolution stored stored text (Some "utf8")
                    "utf8" (mkResponse None) (Buffer (list_byte_of_string "pp"))
                    eq_refl)))) _ _ eq_refl).
    left. reflexivity.
  - refine (proj2 (proj2 (proj2 (proj2 (getBody_resolution stored stored text (Some "utf8")
                    "utf8" (mkResponse None) NoBody eq_refl)))) _ eq_refl).
    left. reflexivity.
Defined.

(** ** The instance, for the further facts *)

Definition bing_site : website :=
  mkWebsite "http://www.bing.com/" "http://www.bing.com/search" "ppp" [].


Lemma check_excluded_witness :
  run (check stored stored text (Some "utf8") (list ascii) ascii letters named style
         (paragraphs None) bing_site) []
  = Some (Resolved (mkResult "markup" true (Some true) None (Message excluded_message)), []).
Proof.
  apply (check_excluded stored stored text (Some "utf8") (list ascii) ascii letters named style
           (paragraphs None) bing_site [] "bing.com").
  - left. reflexivity.
  - exists "http://www.", "/search". reflexivity.
Defined.

Lemma check_passes_at_once_witness :
  run (check stored stored text (Some "utf8") (list ascii) ascii letters named style
         (paragraphs None) example_site) [page "ppp"]
  = Some (Resolved (mkResult "markup" true None None
                      (Results [mkElementResult "p" (round_ratio 9 10) 3 3 true])),
          [("http://example.org/", "Chrome")]).
Proof.
  exact (check_passes_at_once stored stored text (Some "utf8") (list ascii) ascii letters
           named style (paragraphs None) example_site (mkResponse None)
           (Buffer (list_byte_of_string "ppp")) (mkDecoded "ppp" "none") []
           eq_refl eq_refl eq_refl).
Defined.

Lemma check_result_consistent_witness :
  false = forallb epassed [mkElementResult "p" (round_ratio 9 10) 3 1 false].
Proof.
  exact (check_result_consistent stored stored text (Some "utf8") (list ascii) ascii letters
           named style (paragraphs None) example_site [page "p"; page "p"]
           (mkResult "markup" false None (Some false)
              (Results [mkElementResult "p" (round_ratio 9 10) 3 1 false]))
           [("http://example.org/", "Chrome"); ("http://example.org/", "Chrome")]
           eq_refl).
Defined.


(** ** The undeclared [charset] *)

Section Charset.

Variable gunzip : body_t -> inflated.
Variable inflateRaw : body_t -> inflated.
Variable toString : list Byte.byte -> string -> string.
Variable document : Type.
Variable node : Type.
Variable cheerio_load : string -> document.
Variable select : document -> string -> list node.
Variable css : node -> string -> option string.
Variable config : config_t.

Lemma getBody_global (cs : string) (r : response) (b : body_t) :
  getBody gunzip inflateRaw toString None r b
  = match getBody gunzip inflateRaw toString (Some cs) r b with
    | Resolved _ => Thrown ReferenceError
    | Rejected reason => Rejected reason
    | Thrown e => Thrown e
    end.
Proof.
  unfold getBody, decompress, decode.
  destruct (truthy_header (content_encoding r)).
  - destruct (String.eqb _ "gzip"); [destruct (gunzip b); reflexivity|].
    destruct (String.eqb _ "deflate"); [destruct (inflateRaw b); reflexivity|reflexivity].
  - destruct b; reflexivity.
Qed.

Lemma getBody_unresolved (r : response) (b : body_t) (d : decoded) :
  getBody gunzip inflateRaw toString None r b <> Resolved d.
Proof.
  rewrite (getBody_global "" r b).
  destruct (getBody gunzip inflateRaw toString (Some "") r b); discriminate.
Qed.

(** C9 (a slip of the code): [getBody] and [decompress] decode with
    [toString(charset)], and [charset] is declared nowhere in the file,
    which is in strict mode. As the file stands, the read throws a
    [ReferenceError] on every path that was to produce text: a [gzip]
    or [deflate] body that [zlib] inflates, and a body without declared
    encoding; the promise is settled neither way, and [check], on a site
    that is not excluded, is left pending after its first request. The
    rejections are as the claim has them. And the test of the body is a
    test of truthiness: with a global [charset] supplied, a Buffer of
    length zero is not refused as an empty body but decoded. *)
Theorem getBody_reads_undeclared_charset (site : website) :
  (forall r b data, content_encoding r = Some "gzip" -> gunzip b = Inflated data ->
     getBody gunzip inflateRaw toString None r b = Thrown ReferenceError)
  /\ (forall r b data, content_encoding r = Some "deflate" -> inflateRaw b = Inflated data ->
        getBody gunzip inflateRaw toString None r b = Thrown ReferenceError)
  /\ (forall r bytes, undeclared r ->
        getBody gunzip inflateRaw toString None r (Buffer bytes) = Thrown ReferenceError)
  /\ (forall r b type, content_encoding r = Some type ->
        type <> "" -> type <> "gzip" -> type <> "deflate" ->
        getBody gunzip inflateRaw toString None r b
        = Rejected ("Unknown content encoding: " +:+ type))
  /\ (forall r, undeclared r ->
        getBody gunzip inflateRaw toString None r NoBody = Rejected "Error found: Empty body")
  /\ (forall r bytes rest, isExcluded config (originalUrl site) = false -> undeclared r ->
        run (check gunzip inflateRaw toString None document node cheerio_load select css
               config site) (Fetched r (Buffer bytes) :: rest)
        = Some (Thrown ReferenceError, [(url_href site, user_agent_chrome config)]))
  /\ (forall cs r, undeclared r ->
        getBody gunzip inflateRaw toString (Some cs) r (Buffer [])
        = Resolved (mkDecoded (toString [] cs) "none")).
Proof.
  unfold check, getBody, decompress, decode. repeat split.
  - intros r b data H Hz. rewrite H, Hz. reflexivity.
  - intros r b data H Hz. rewrite H, Hz. reflexivity.
  - intros r bytes H. rewrite (undeclared_falsy r H). reflexivity.
  - intros r b type H Hne Hgz Hdf.
    destruct (declared_truthy r type H Hne) as [-> ->].
    apply String.eqb_neq in Hgz, Hdf. rewrite Hgz, Hdf. reflexivity.
  - intros r H. rewrite (undeclared_falsy r H). reflexivity.
  - intros r bytes rest Hex H. rewrite Hex. cbn [run mbind option_bind].
    rewrite (undeclared_falsy r H). reflexivity.
  - intros cs r H. rewrite (undeclared_falsy r H). reflexivity.
Qed.

(** X25: the file reads [charset] without declaring it. Where no
    global of that name exists, [getBody] is rejected as it is with one,
    but wherever it would resolve, the read throws; so [check] resolves
    for excluded sites only, and no markup is ever compared. *)
Theorem check_without_charset (site : website) :
  (forall (cs : string) (r : response) (b : body_t),
     getBody gunzip inflateRaw toString None r b
     = match getBody gunzip inflateRaw toString (Some cs) r b with
       | Resolved _ => Thrown ReferenceError
       | Rejected reason => Rejected reason
       | Thrown e => Thrown e
       end)
  /\ (forall (network : list fetched) (res : result) (issued : list (string * string)),
        run (check gunzip inflateRaw toString None document node cheerio_load select css
               config site) network = Some (Resolved res, issued) ->
        isExcluded config (originalUrl site) = true
        /\ excluded res = Some true /\ issued = []).
Proof.
  split; [apply getBody_global|]. intros network res issued H. unfold check in H.
  destruct (isExcluded config (originalUrl site)); [injection H as <- <-; auto|].
  destruct network as [|f1 network]; [discriminate H|]. cbn [run mbind option_bind] in H.
  destruct f1 as [err|r1 b1]; cbn [run mbind option_bind] in H; [discriminate H|].
  pose proof (getBody_unresolved r1 b1) as Hno.
  destruct (getBody gunzip inflateRaw toString None r1 b1) as [d1|reason|e];
    cbn [then_ run mbind option_bind] in H; [|discriminate H|discriminate H].
  exfalso. apply (Hno d1). reflexivity.
Qed.

End Charset.

End CheckSameMarkup.
